(** * python-twitch-stream: the output streams of [twitchstream/outputvideo.py]

    A shallow embedding of the three stream classes
    ([TwitchOutputStream], [TwitchOutputStreamRepeater],
    [TwitchBufferedOutputStream]) and the properties of their frame
    conversion, sink handling, pacing and reordering.

    Conventions of the embedding.
    - Python [int] is [Z].  A Python [float] (sample values, clock readings,
      [fps]) is a double: it is represented by the rational it denotes, and
      every arithmetic operation of the code rounds its exact result to the
      nearest double ([round64], ties to even).  Infinities, NaN, the sign
      of zero and overflow are outside the model.
    - A numpy array is its shape together with its samples in C order.
    - The ffmpeg child process and the timers are the outside world: what a
      method does to them is returned as a list of effects, and what they
      answer ([poll()], whether [write] fails, the clock) is an explicit
      environment argument.
    - A Python exception is a [Raise] result.
    - [Queue.PriorityQueue] appears twice: by its contract ([pq_put],
      [pq_get_nowait]) and as the library implements it, a [heapq] heap of
      [(frame_counter, frame)] tuples ([heapq_heappush], [heapq_heappop]),
      whose comparisons raise [ValueError] on equal counters.  The two
      agree on pairwise distinct counters ([heapq_run_refines]).
    - [reset] and [send_frame] are the case in which relaunching ffmpeg
      succeeds; [send_frame_os] adds the case in which it raises. *)

From Stdlib Require Import ZArith QArith Qround Qminmax Qabs Qpower List Bool Lia.
From Stdlib Require Import Floats.SpecFloat.
From Stdlib Require Import Sorting.Sorted Sorting.Permutation Lqa.
Import ListNotations.

Local Open Scope Z_scope.

(** ** Exceptions *)

Inductive exn : Type :=
| AssertionError
| IOError
| AttributeError
| ZeroDivisionError.

Inductive result (A : Type) : Type :=
| Ok (a : A)
| Raise (e : exn).
Arguments Ok {A} a.
Arguments Raise {A} e.

(** ** Double precision arithmetic

    A finite double is [m * 2^e] with [|m| < 2^53] and [e >= -1074].  The
    result of an operation is its exact result rounded to the nearest such
    number, ties going to the even mantissa. *)

Definition pow2 (e : Z) : Q := (2 ^ e)%Q.

(** For [0 < x]: the [m] with [2^(m-1) <= x < 2^m]. *)
Definition mag (x : Q) : Z :=
  let e := Z.log2 (Qnum x) - Z.log2 (Zpos (Qden x)) in
  if Qle_bool (pow2 e) x then e + 1 else e.

(** Exponent of the last bit of a double of magnitude [m]: 53 bits of
    mantissa, and never below the exponent of the subnormal numbers. *)
Definition fexp (m : Z) : Z := Z.max (m - 53) (-1074).

(** Nearest integer, ties to even. *)
Definition rne (x : Q) : Z :=
  let f := Qfloor x in
  match (x - inject_Z f ?= 1 # 2)%Q with
  | Lt => f
  | Gt => f + 1
  | Eq => if Z.even f then f else f + 1
  end.

Definition round_pos (x : Q) : Q :=
  let u := fexp (mag x) in
  (inject_Z (rne (x / pow2 u)) * pow2 u)%Q.

Definition round64 (x : Q) : Q :=
  match (x ?= 0)%Q with
  | Eq => 0%Q
  | Gt => Qred (round_pos x)
  | Lt => Qred (- round_pos (- x))
  end.

(** Python's [x + y], [x - y], [x * y] and [x / y] on floats. *)
Definition fadd (x y : Q) : Q := round64 (x + y).
Definition fsub (x y : Q) : Q := round64 (x - y).
Definition fmul (x y : Q) : Q := round64 (x * y).
Definition fdiv (x y : Q) : Q := round64 (x / y).

(** The value of a finite binary floating-point number of the standard
    library's specification of IEEE 754 ([SpecFloat]), against which
    [round64] is checked below. *)
Definition SF2Q (f : spec_float) : Q :=
  match f with
  | S754_finite s m e =>
      Qred ((if s then - inject_Z (Zpos m) else inject_Z (Zpos m)) * pow2 e)
  | _ => 0%Q
  end.

(** ** Frames (numpy arrays of floats) *)

Record Frame : Type := mkFrame {
  shape : list Z;
  data : list Q
}.

(** [np.ones((height, width, 3))] *)
Definition np_ones (height width : Z) : Frame :=
  mkFrame [height; width; 3] (repeat 1%Q (Z.to_nat (height * width * 3))).

(** Tuple equality [frame.shape == (height, width, 3)]. *)
Definition shape_eqb (s1 s2 : list Z) : bool :=
  if list_eq_dec Z.eq_dec s1 s2 then true else false.

(** [np.clip(x, lo, hi)] on one sample: [minimum(maximum(x, lo), hi)]. *)
Definition np_clip (x lo hi : Q) : Q := Qmin (Qmax x lo) hi.

(** [.astype('uint8')] on one sample: the fraction is dropped (truncation
    towards zero) and the integer is kept modulo 2^8. *)
Definition astype_uint8 (x : Q) : Z :=
  (Z.quot (Qnum x) (Zpos (Qden x))) mod 256.

(** One sample of [np.clip(255*frame, 0, 255).astype('uint8')]. *)
Definition to_uint8 (v : Q) : Z :=
  astype_uint8 (np_clip (fmul 255 v) 0 255).

(** [np.clip(255*frame, 0, 255).astype('uint8').tostring()]: one byte per
    sample, in C order. *)
Definition frame_tostring (f : Frame) : list Z := map to_uint8 (data f).

(** ** The sink: the ffmpeg child process behind [self.pipe] *)

(** A [Popen] handle; successive launches get successive handles. *)
Definition Proc : Type := nat.

Inductive Effect : Type :=
| Sigint (p : Proc)                 (* pipe.send_signal(signal.SIGINT) *)
| Popen (p : Proc)                  (* sp.Popen(command, stdin=sp.PIPE, ...) *)
| Write (p : Proc) (bytes : list Z) (* pipe.stdin.write(...) *).

(** What the outside world answers during one [send_frame]: the value of
    [pipe.poll()] ([None] while the child runs, its return code once it has
    exited) and whether [pipe.stdin.write] goes through ([false]: it raises
    [IOError], the pipe is closed). *)
Record SinkEnv : Type := mkSinkEnv {
  poll : option Z;
  write_ok : bool
}.

(** Python truth value of [pipe.poll()]: [None] and [0] are false. *)
Definition truthy (r : option Z) : bool :=
  match r with
  | None => false
  | Some rc => negb (rc =? 0)
  end.

(** ** [TwitchOutputStream] *)

Record TwitchOutputStream : Type := mkStream {
  width : Z;
  height : Z;
  fps : Q;
  pipe : option Proc
}.

Definition set_pipe (s : TwitchOutputStream) (p : option Proc) : TwitchOutputStream :=
  mkStream (width s) (height s) (fps s) p.

Definition next_proc (p : option Proc) : Proc :=
  match p with
  | None => O
  | Some n => S n
  end.

(** [reset]: interrupt the previous child if there is one (an [OSError] of
    [send_signal] is swallowed), then launch ffmpeg again.  The command line
    is fixed by [width], [height], [fps] and the stream key and is not
    spelled out.  This is the case in which [open] and [Popen] return, as
    they did at construction; the case in which they raise is
    [send_frame_os] below. *)
Definition reset (s : TwitchOutputStream) : TwitchOutputStream * list Effect :=
  let closing := match pipe s with
                 | Some p => [Sigint p]
                 | None => []
                 end in
  let p' := next_proc (pipe s) in
  (set_pipe s (Some p'), closing ++ [Popen p']).

(** [__init__] *)
Definition stream_init (w h : Z) (rate : Q) : TwitchOutputStream * list Effect :=
  reset (mkStream w h rate None).

(** [send_frame] *)
Definition send_frame (s : TwitchOutputStream) (frame : Frame) (env : SinkEnv)
  : TwitchOutputStream * result unit * list Effect :=
  match pipe s with
  | None => (s, Raise AttributeError, [])
  | Some _ =>
      let '(s1, fx) := if truthy (poll env) then reset s else (s, []) in
      if negb (shape_eqb (shape frame) [height s1; width s1; 3])
      then (s1, Raise AssertionError, fx)
      else
        let bytes := frame_tostring frame in
        match pipe s1 with
        | None => (s1, Raise AttributeError, fx)
        | Some p =>
            if write_ok env
            then (s1, Ok tt, fx ++ [Write p bytes])
            else (s1, Raise IOError, fx)
        end
  end.

(** ** Timers and tick reports *)

(** [1./self.fps] *)
Definition period (rate : Q) : result Q :=
  if Qeq_bool rate 0 then Raise ZeroDivisionError else Ok (fdiv 1 rate).

(** What a tick starts to get the next tick run:
    [threading.Timer(delay, self._send_me_last_frame_again).start()] or
    [threading.Thread(target=self._send_me_last_frame_again).start()]. *)
Inductive Sched : Type :=
| Timer (delay : Q)
| Thread.

(** The observable account of one run of [_send_me_last_frame_again]. *)
Record Report : Type := mkReport {
  rp_popped : option (Z * Frame);  (* entry taken from the queue, if any *)
  rp_frame : Frame;                (* frame handed to the base [send_frame] *)
  rp_result : result unit;         (* [Ok]: the tick returned; [Raise]: it died *)
  rp_effects : list Effect;        (* what was done to the sink *)
  rp_started : list Sched          (* timers and threads started, in order *)
}.

(** ** [TwitchOutputStreamRepeater] *)

Record TwitchOutputStreamRepeater : Type := mkRepeater {
  rep_base : TwitchOutputStream;
  lastframe : Frame
}.

Definition repeater_tick (r : TwitchOutputStreamRepeater) (env : SinkEnv)
  : TwitchOutputStreamRepeater * Report :=
  let '(b, res, fx) := send_frame (rep_base r) (lastframe r) env in
  let r' := mkRepeater b (lastframe r) in
  match res with
  | Raise IOError =>
      (* stream has been closed: pass *)
      (r', mkReport None (lastframe r) (Ok tt) fx [])
  | Raise e =>
      (r', mkReport None (lastframe r) (Raise e) fx [])
  | Ok _ =>
      (* send the next frame at the appropriate time *)
      match period (fps b) with
      | Ok delay => (r', mkReport None (lastframe r) (Ok tt) fx [Timer delay])
      | Raise e => (r', mkReport None (lastframe r) (Raise e) fx [])
      end
  end.

(** [__init__]: base constructor, neutral frame, then the first tick is run
    directly. *)
Definition repeater_init (w h : Z) (rate : Q) (env : SinkEnv)
  : TwitchOutputStreamRepeater * list Effect * Report :=
  let '(b, fx) := stream_init w h rate in
  let '(r, rep) := repeater_tick (mkRepeater b (np_ones (height b) (width b))) env in
  (r, fx, rep).

(** [send_frame] of the repeater only latches the frame. *)
Definition repeater_send_frame (r : TwitchOutputStreamRepeater) (frame : Frame)
  : TwitchOutputStreamRepeater :=
  mkRepeater (rep_base r) frame.

(** The repeater with its timers: [r_pending] counts the timers that have
    been started and have not fired yet.  A tick runs only when one fires. *)
Record RepeaterSystem : Type := mkRSys {
  r_obj : TwitchOutputStreamRepeater;
  r_pending : nat
}.

Inductive REvent : Type :=
| RSend (frame : Frame)     (* the producer calls [send_frame] *)
| RFire (env : SinkEnv)     (* a pending timer expires *).

Definition repeater_step (sys : RepeaterSystem) (ev : REvent)
  : RepeaterSystem * list Report :=
  match ev with
  | RSend f => (mkRSys (repeater_send_frame (r_obj sys) f) (r_pending sys), [])
  | RFire env =>
      match r_pending sys with
      | O => (sys, [])
      | S n =>
          let '(r', rep) := repeater_tick (r_obj sys) env in
          (mkRSys r' (n + length (rp_started rep)), [rep])
      end
  end.

Fixpoint repeater_run (evs : list REvent) (sys : RepeaterSystem)
  : RepeaterSystem * list Report :=
  match evs with
  | [] => (sys, [])
  | ev :: evs' =>
      let '(sys1, reps1) := repeater_step sys ev in
      let '(sys2, reps2) := repeater_run evs' sys1 in
      (sys2, reps1 ++ reps2)
  end.

(** ** [Queue.PriorityQueue] holding [(frame_counter, frame)] tuples

    The queue is the standard library's and is modelled by its contract:
    [put] adds an entry and [get_nowait] removes and returns a lowest entry,
    or raises [Queue.Empty].  Entries are ordered by their frame counter.
    This is what the library does as long as the counters in the queue are
    pairwise distinct; what it does when two entries carry the same counter
    (the comparison then reaches the frames and raises [ValueError]) is
    transcribed further down ([heapq_heappush], [heapq_heappop]), with the
    proof that the two agree on distinct counters ([heapq_run_refines]); on
    equal counters the model here returns the entry put first. *)

Definition Entry : Type := (Z * Frame)%type.
Definition PriorityQueue : Type := list Entry.

Definition pq_put (q : PriorityQueue) (item : Entry) : PriorityQueue :=
  q ++ [item].

(** Lowest entry of [x :: l] together with the entries left behind. *)
Fixpoint extract_min (x : Entry) (l : list Entry) : Entry * list Entry :=
  match l with
  | [] => (x, [])
  | y :: l' =>
      let '(m, rest) := extract_min y l' in
      if fst x <=? fst m then (x, l) else (m, x :: rest)
  end.

(** [None] stands for [Queue.Empty]. *)
Definition pq_get_nowait (q : PriorityQueue) : option (Entry * PriorityQueue) :=
  match q with
  | [] => None
  | x :: l => Some (extract_min x l)
  end.

(** ** [TwitchBufferedOutputStream] *)

Record TwitchBufferedOutputStream : Type := mkBuffered {
  base : TwitchOutputStream;
  last_frame : Frame;
  last_frame_time : option Q;
  next_send_time : option Q;
  frame_counter : Z;
  q : PriorityQueue
}.

(** What the outside world answers during one tick: the clock read by
    [time.time()] on entry, the seconds that pass between that reading and
    the moment the tick starts its timer (the sink write blocks), and the
    sink's answers. *)
Record TickEnv : Type := mkTickEnv {
  start_time : Q;
  busy : Q;
  sink_env : SinkEnv
}.

(** The clock when the tick starts the timer for the next tick. *)
Definition now_at_reschedule (env : TickEnv) : Q := (start_time env + busy env)%Q.

(** The rescheduling block at the end of the tick, given the value [step]
    of [1./self.fps]: new [next_send_time] and what gets started. *)
Definition next_schedule (step : Q) (nst : option Q) (start : Q) : option Q * list Sched :=
  match nst with
  | None => (Some (fadd start step), [Timer step])
  | Some t =>
      let t' := fadd t step in
      let next_event_time := fsub t' start in
      if Qle_bool next_event_time 0
      then (Some t', [Thread])
      else (Some t', [Timer next_event_time])
  end.

(** In either branch [1./self.fps] is evaluated before anything is started
    or assigned. *)
Definition reschedule (rate : Q) (nst : option Q) (start : Q)
  : result (option Q * list Sched) :=
  match period rate with
  | Ok step => Ok (next_schedule step nst start)
  | Raise e => Raise e
  end.

Definition buffered_tick (s : TwitchBufferedOutputStream) (env : TickEnv)
  : TwitchBufferedOutputStream * Report :=
  let '(popped, frame, lf, q') :=
    match pq_get_nowait (q s) with
    | Some (item, rest) => (Some item, snd item, snd item, rest)
    | None => (None, last_frame s, last_frame s, q s)
    end in
  let '(b, res, fx) := send_frame (base s) frame (sink_env env) in
  let died e :=
    (mkBuffered b lf (last_frame_time s) (next_send_time s) (frame_counter s) q',
     mkReport popped frame (Raise e) fx []) in
  let continue_ :=
    match reschedule (fps b) (next_send_time s) (start_time env) with
    | Ok (nst, started) =>
        (mkBuffered b lf (last_frame_time s) nst (frame_counter s) q',
         mkReport popped frame (Ok tt) fx started)
    | Raise e => died e
    end in
  match res with
  | Ok _ => continue_
  | Raise IOError => continue_
  | Raise e => died e
  end.

(** [__init__]: the first tick is handed to a timer with delay [0.0]. *)
Definition buffered_init (w h : Z) (rate : Q)
  : TwitchBufferedOutputStream * list Effect * list Sched :=
  let '(b, fx) := stream_init w h rate in
  (mkBuffered b (np_ones (height b) (width b)) None None 0 [], fx, [Timer 0]).

(** [send_frame(frame, frame_counter=None)] *)
Definition buffered_send_frame (s : TwitchBufferedOutputStream) (frame : Frame)
    (counter : option Z) : TwitchBufferedOutputStream :=
  match counter with
  | None =>
      mkBuffered (base s) (last_frame s) (last_frame_time s) (next_send_time s)
        (frame_counter s + 1) (pq_put (q s) (frame_counter s, frame))
  | Some c =>
      mkBuffered (base s) (last_frame s) (last_frame_time s) (next_send_time s)
        (frame_counter s) (pq_put (q s) (c, frame))
  end.

(** An execution: producer calls and ticks, one after the other. *)
Inductive Event : Type :=
| Submit (frame : Frame) (counter : option Z)
| Tick (env : TickEnv).

Definition buffered_step (s : TwitchBufferedOutputStream) (ev : Event)
  : TwitchBufferedOutputStream * list (TickEnv * Report) :=
  match ev with
  | Submit f c => (buffered_send_frame s f c, [])
  | Tick env => let '(s', rep) := buffered_tick s env in (s', [(env, rep)])
  end.

Fixpoint buffered_run (evs : list Event) (s : TwitchBufferedOutputStream)
  : TwitchBufferedOutputStream * list (TickEnv * Report) :=
  match evs with
  | [] => (s, [])
  | ev :: evs' =>
      let '(s1, log1) := buffered_step s ev in
      let '(s2, log2) := buffered_run evs' s1 in
      (s2, log1 ++ log2)
  end.

(** Sequence numbers of the entries popped, in the order of the ticks. *)
Definition popped_entries (log : list (TickEnv * Report)) : list Entry :=
  flat_map (fun er => match rp_popped (snd er) with
                      | Some e => [e]
                      | None => []
                      end) log.

Definition popped_numbers (log : list (TickEnv * Report)) : list Z :=
  map fst (popped_entries log).

(** Frames handed to the base [send_frame], in the order of the ticks. *)
Definition emitted_frames (log : list (TickEnv * Report)) : list Frame :=
  map (fun er => rp_frame (snd er)) log.

(** ** Rounding, in the words of the specification

    [round(x)]: an integer nearest to [x].  On a tie either neighbour is
    accepted, so the definition does not commit to a tie-breaking rule. *)
Definition is_round (x : Q) (n : Z) : Prop :=
  (Qabs (x - inject_Z n) <= 1 # 2)%Q.

(** ** Observations on executions *)

(** The ticks of a log that ran to their end (no exception escaped). *)
Definition tick_completed (er : TickEnv * Report) : bool :=
  match rp_result (snd er) with
  | Ok _ => true
  | Raise _ => false
  end.

Definition completed_ticks (log : list (TickEnv * Report)) : list (TickEnv * Report) :=
  filter tick_completed log.

(** [bounded_below hi k]: [k] is not lower than [hi], the greatest number
    popped so far ([None]: nothing popped yet). *)
Definition bounded_below (hi : option Z) (k : Z) : Prop :=
  match hi with
  | None => True
  | Some h => h <= k
  end.

Definition raise_bound (hi : option Z) (k : Z) : option Z :=
  match hi with
  | None => Some k
  | Some h => Some (Z.max h k)
  end.

(** No submission of the execution carries a sequence number lower than a
    number popped before it: [hi] is the greatest number popped so far. *)
Fixpoint no_late_submission (hi : option Z) (evs : list Event)
    (s : TwitchBufferedOutputStream) : Prop :=
  match evs with
  | [] => True
  | Submit f c :: evs' =>
      bounded_below hi (match c with Some k => k | None => frame_counter s end)
      /\ no_late_submission hi evs' (buffered_send_frame s f c)
  | Tick env :: evs' =>
      let '(s', rep) := buffered_tick s env in
      no_late_submission
        (match rp_popped rep with
         | Some e => raise_bound hi (fst e)
         | None => hi
         end) evs' s'
  end.

(** The frame a tick will hand to the sink: the frame of the lowest entry,
    or the last frame when the queue is empty. *)
Definition candidate (s : TwitchBufferedOutputStream) : Frame :=
  match pq_get_nowait (q s) with
  | Some (item, _) => snd item
  | None => last_frame s
  end.

(** ** The stream as a context manager, and sequences of calls *)

(** [__enter__] *)
Definition stream_enter (s : TwitchOutputStream) : TwitchOutputStream := s.

Inductive exit_outcome : Type :=
| Exited
| ExitOSError
| ExitAttributeError.

(** [__exit__]: [self.pipe.send_signal(signal.SIGINT)].  Unlike in [reset],
    an [OSError] of [send_signal] (the child is gone already) is not caught
    here; the signal is attempted either way. *)
Definition stream_exit (s : TwitchOutputStream) (child_gone : bool)
  : exit_outcome * list Effect :=
  match pipe s with
  | None => (ExitAttributeError, [])
  | Some p => (if child_gone then ExitOSError else Exited, [Sigint p])
  end.

(** The discipline a trace of effects may follow: at most one child launched
    and not yet interrupted ([live]); a launch only when there is none; a
    signal and a write only to the live one.  [Some live'] is the live child
    at the end of a trace that follows it, [None] a trace that does not. *)
Fixpoint sink_protocol (live : option Proc) (tr : list Effect) : option (option Proc) :=
  match tr with
  | [] => Some live
  | Popen p :: tr' =>
      match live with
      | None => sink_protocol (Some p) tr'
      | Some _ => None
      end
  | Sigint p :: tr' =>
      match live with
      | Some c => if Nat.eqb c p then sink_protocol None tr' else None
      | None => None
      end
  | Write p _ :: tr' =>
      match live with
      | Some c => if Nat.eqb c p then sink_protocol live tr' else None
      | None => None
      end
  end.

(** The byte strings written to the sink, in order. *)
Definition written_frames (tr : list Effect) : list (list Z) :=
  flat_map (fun e => match e with
                     | Write _ bytes => [bytes]
                     | _ => []
                     end) tr.

(** A numpy array holds as many samples as its shape says. *)
Definition array_size (sh : list Z) : Z := fold_right Z.mul 1 sh.

Definition well_formed (f : Frame) : Prop :=
  Z.of_nat (length (data f)) = array_size (shape f).

(** ** When a relaunch fails

    In [reset], [open("/dev/null", "w")] can raise [IOError] and [sp.Popen]
    can raise [OSError]; nothing catches them in [send_frame].  The answer
    of the operating system to a relaunch is an argument here; the child
    has been sent SIGINT by then and [self.pipe] is not assigned. *)
Inductive launch : Type :=
| Launched
| OpenRaises
| PopenRaises.

Inductive os_result : Type :=
| Completed (r : result unit)  (* no relaunch, or one that succeeded *)
| RaisedByOpen                 (* the [IOError] of [open] *)
| RaisedByPopen.               (* the [OSError] of [Popen] *)

Definition completed (r : TwitchOutputStream * result unit * list Effect)
  : TwitchOutputStream * os_result * list Effect :=
  let '(s1, res, fx) := r in (s1, Completed res, fx).

Definition send_frame_os (s : TwitchOutputStream) (frame : Frame) (env : SinkEnv)
    (l : launch) : TwitchOutputStream * os_result * list Effect :=
  match pipe s with
  | Some p =>
      if truthy (poll env)
      then match l with
           | Launched => completed (send_frame s frame env)
           | OpenRaises => (s, RaisedByOpen, [Sigint p])
           | PopenRaises => (s, RaisedByPopen, [Sigint p])
           end
      else completed (send_frame s frame env)
  | None => completed (send_frame s frame env)
  end.

(** Successive calls of [send_frame] by a caller that goes on after an
    exception. *)
Fixpoint stream_run_os (calls : list (Frame * SinkEnv * launch)) (s : TwitchOutputStream)
  : TwitchOutputStream * list os_result * list Effect :=
  match calls with
  | [] => (s, [], [])
  | (f, env, l) :: calls' =>
      let '(s1, r, fx) := send_frame_os s f env l in
      let '(s2, rs, fx') := stream_run_os calls' s1 in
      (s2, r :: rs, fx ++ fx')
  end.

(** [with TwitchOutputStream(...) as s: s.send_frame(..); ...]: everything
    done to the sink from construction to exit, for a stream that was
    constructed ([__init__] leaves with [sys.exit(1)] when its own launch
    raises [OSError]). *)
Definition with_stream_os (w h : Z) (rate : Q) (calls : list (Frame * SinkEnv * launch))
    (child_gone : bool) : list Effect :=
  let '(s0, fx0) := stream_init w h rate in
  let '(s1, _, fx1) := stream_run_os calls (stream_enter s0) in
  fx0 ++ fx1 ++ snd (stream_exit s1 child_gone).

(** A call that relaunches nothing or whose relaunch succeeds. *)
Definition relaunch_ok (c : Frame * SinkEnv * launch) : Prop :=
  truthy (poll (snd (fst c))) = false \/ snd c = Launched.

(** What a call may do, given what the operating system answered. *)
Definition call_outcome (c : Frame * SinkEnv * launch) (x : os_result) : Prop :=
  match x with
  | Completed r =>
      relaunch_ok c /\ (r = Ok tt \/ r = Raise AssertionError \/ r = Raise IOError)
  | RaisedByOpen => truthy (poll (snd (fst c))) = true /\ snd c = OpenRaises
  | RaisedByPopen => truthy (poll (snd (fst c))) = true /\ snd c = PopenRaises
  end.

(** ** Further observations on executions of the buffered stream *)

(** The entries that the [Submit] events of an execution put into the queue,
    [c] being the value of [frame_counter] at its start. *)
Fixpoint submitted_entries (c : Z) (evs : list Event) : list Entry :=
  match evs with
  | [] => []
  | Submit f None :: evs' => (c, f) :: submitted_entries (c + 1) evs'
  | Submit f (Some k) :: evs' => (k, f) :: submitted_entries c evs'
  | Tick _ :: evs' => submitted_entries c evs'
  end.

(** The event is a call of the producer. *)
Definition is_submit (ev : Event) : bool :=
  match ev with
  | Submit _ _ => true
  | Tick _ => false
  end.

(** Submissions that leave the numbering to the stream. *)
Definition auto_submissions (evs : list Event) : nat :=
  length (filter (fun ev => match ev with
                            | Submit _ None => true
                            | _ => false
                            end) evs).

(** [fs] numbered from [c] on. *)
Fixpoint numbered (c : Z) (fs : list Frame) : list Entry :=
  match fs with
  | [] => []
  | f :: fs' => (c, f) :: numbered (c + 1) fs'
  end.

(** The producer hands over the frames [fs] one by one, without numbers. *)
Definition submit_all (fs : list Frame) : list Event :=
  map (fun f => Submit f None) fs.

(** ** The queue of the standard library, as it is

    [Queue.PriorityQueue] keeps its entries in the list [self.queue],
    ordered as a binary heap by the module [heapq]: [put] is [heappush] and
    [get] is [heappop].  Their code is transcribed here on the list. *)

(** [a < b] on two entries.  Python compares tuples item by item: the
    counters decide when they differ; when they are equal the frames are
    compared, and the truth value of the elementwise comparison of two arrays
    of more than one sample is a [ValueError] ([None]).  Each queued frame is
    taken to be an array object of its own with more than one sample, as a
    frame of shape [(height, width, 3)] is. *)
Definition entry_lt (a b : Entry) : option bool :=
  if fst a <? fst b then Some true
  else if fst b <? fst a then Some false
  else None.

(** [heap[i] = x] *)
Fixpoint list_set (heap : list Entry) (i : nat) (x : Entry) : list Entry :=
  match heap, i with
  | [], _ => []
  | _ :: t, O => x :: t
  | h :: t, S i' => h :: list_set t i' x
  end.

(** [_siftdown(heap, startpos, pos)], with [newitem = heap[pos]]: parents
    are moved down until [newitem] fits.  The second component is [false]
    when a comparison raises [ValueError]; the list is then left as it is at
    that moment.  The position decreases at each turn, so [pos] turns are
    enough. *)
Fixpoint siftdown_loop (fuel : nat) (heap : list Entry) (newitem : Entry)
    (startpos pos : nat) : list Entry * bool :=
  match fuel with
  | O => (list_set heap pos newitem, true)
  | S fuel' =>
      if (startpos <? pos)%nat then
        let parentpos := ((pos - 1) / 2)%nat in
        let parent := nth parentpos heap newitem in
        match entry_lt newitem parent with
        | None => (heap, false)
        | Some true =>
            siftdown_loop fuel' (list_set heap pos parent) newitem startpos parentpos
        | Some false => (list_set heap pos newitem, true)
        end
      else (list_set heap pos newitem, true)
  end.

Definition heapq_siftdown (heap : list Entry) (newitem : Entry) (startpos pos : nat)
  : list Entry * bool :=
  siftdown_loop pos heap newitem startpos pos.

(** The loop of [_siftup(heap, pos)]: the smaller child is moved up until a
    leaf is reached; [None] in the second component is a [ValueError] of the
    comparison of the two children. *)
Fixpoint siftup_loop (fuel : nat) (heap : list Entry) (dflt : Entry)
    (endpos pos : nat) : list Entry * option nat :=
  match fuel with
  | O => (heap, Some pos)
  | S fuel' =>
      let childpos := (2 * pos + 1)%nat in
      if (childpos <? endpos)%nat then
        let rightpos := (childpos + 1)%nat in
        let pick :=
          if (rightpos <? endpos)%nat
          then match entry_lt (nth childpos heap dflt) (nth rightpos heap dflt) with
               | None => None
               | Some lt => Some (if lt then childpos else rightpos)
               end
          else Some childpos in
        match pick with
        | None => (heap, None)
        | Some c => siftup_loop fuel' (list_set heap pos (nth c heap dflt)) dflt endpos c
        end
      else (heap, Some pos)
  end.

(** [_siftup(heap, pos)] *)
Definition heapq_siftup (heap : list Entry) (dflt : Entry) (pos : nat)
  : list Entry * bool :=
  let newitem := nth pos heap dflt in
  match siftup_loop (length heap) heap dflt (length heap) pos with
  | (h, None) => (h, false)
  | (h, Some leaf) => heapq_siftdown (list_set h leaf newitem) newitem pos leaf
  end.

Inductive queue_outcome (A : Type) : Type :=
| Returned (a : A)
| RaisedEmpty
| RaisedValueError.
Arguments Returned {A} a.
Arguments RaisedEmpty {A}.
Arguments RaisedValueError {A}.

(** [heappush(heap, item)]: [heap.append(item)], then
    [_siftdown(heap, 0, len(heap)-1)]. *)
Definition heapq_heappush (heap : list Entry) (item : Entry)
  : list Entry * queue_outcome unit :=
  match heapq_siftdown (heap ++ [item]) item 0 (length heap) with
  | (h, true) => (h, Returned tt)
  | (h, false) => (h, RaisedValueError)
  end.

(** [heappop(heap)] on a list that is not empty: the last element replaces
    the first, which is returned once the heap is in order again; when
    [_siftup] raises, the element that was to be returned is lost. *)
Definition heapq_heappop (heap : list Entry) : list Entry * queue_outcome Entry :=
  match heap with
  | [] => ([], RaisedEmpty)
  | first :: _ =>
      let lastelt := last heap first in
      match removelast heap with
      | [] => ([], Returned lastelt)
      | returnitem :: rest =>
          match heapq_siftup (lastelt :: rest) first 0 with
          | (h, true) => (h, Returned returnitem)
          | (h, false) => (h, RaisedValueError)
          end
      end
  end.

(** [self.q.put(item)] and [self.q.get_nowait()] *)
Definition queue_put (qu : list Entry) (item : Entry) : list Entry * queue_outcome unit :=
  heapq_heappush qu item.

Definition queue_get_nowait (qu : list Entry) : list Entry * queue_outcome Entry :=
  heapq_heappop qu.

Definition set_queue (s : TwitchBufferedOutputStream) (qu : list Entry)
  : TwitchBufferedOutputStream :=
  mkBuffered (base s) (last_frame s) (last_frame_time s) (next_send_time s)
    (frame_counter s) qu.

(** [send_frame] of the buffered stream on that queue: the exception of
    [put] reaches the producer. *)
Definition heapq_send_frame (s : TwitchBufferedOutputStream) (frame : Frame)
    (counter : option Z) : TwitchBufferedOutputStream * queue_outcome unit :=
  let c := match counter with
           | None => frame_counter s
           | Some c => c
           end in
  let s1 := match counter with
            | None =>
                mkBuffered (base s) (last_frame s) (last_frame_time s)
                  (next_send_time s) (frame_counter s + 1) (q s)
            | Some _ => s
            end in
  let '(qu, out) := queue_put (q s) (c, frame) in
  (set_queue s1 qu, out).

(** The tick once [get_nowait] has answered: [got] is the entry it returned
    ([None]: [Queue.Empty]) and [rest] the queue it left. *)
Definition buffered_tick_from (s : TwitchBufferedOutputStream) (got : option Entry)
    (rest : list Entry) (env : TickEnv) : TwitchBufferedOutputStream * Report :=
  let frame := match got with
               | Some item => snd item
               | None => last_frame s
               end in
  let '(b, res, fx) := send_frame (base s) frame (sink_env env) in
  let died e :=
    (mkBuffered b frame (last_frame_time s) (next_send_time s) (frame_counter s) rest,
     mkReport got frame (Raise e) fx []) in
  let continue_ :=
    match reschedule (fps b) (next_send_time s) (start_time env) with
    | Ok (nst, started) =>
        (mkBuffered b frame (last_frame_time s) nst (frame_counter s) rest,
         mkReport got frame (Ok tt) fx started)
    | Raise e => died e
    end in
  match res with
  | Ok _ => continue_
  | Raise IOError => continue_
  | Raise e => died e
  end.

(** The tick of the buffered stream on that queue.  A [ValueError] of
    [get_nowait] is caught by neither [except] clause: it ends the tick
    before anything is sent or scheduled ([None]). *)
Definition heapq_tick (s : TwitchBufferedOutputStream) (env : TickEnv)
  : TwitchBufferedOutputStream * option Report :=
  match queue_get_nowait (q s) with
  | (qu, Returned item) =>
      let '(s', rep) := buffered_tick_from s (Some item) qu env in (s', Some rep)
  | (qu, RaisedEmpty) =>
      let '(s', rep) := buffered_tick_from s None qu env in (s', Some rep)
  | (qu, RaisedValueError) => (set_queue s qu, None)
  end.

(** An execution on the library's queue, up to the first [ValueError] of a
    [put] or of a [get_nowait] ([None]). *)
Fixpoint heapq_run (evs : list Event) (s : TwitchBufferedOutputStream)
  : option (TwitchBufferedOutputStream * list (TickEnv * Report)) :=
  match evs with
  | [] => Some (s, [])
  | Submit f c :: evs' =>
      match heapq_send_frame s f c with
      | (s1, Returned _) => heapq_run evs' s1
      | _ => None
      end
  | Tick env :: evs' =>
      match heapq_tick s env with
      | (s1, Some rep) =>
          match heapq_run evs' s1 with
          | Some (s2, log) => Some (s2, (env, rep) :: log)
          | None => None
          end
      | (_, None) => None
      end
  end.

(** The heap invariant of [heapq]: [heap[(k-1)//2] <= heap[k]] at every
    position [k] after the first. *)
Definition is_heapb (heap : list Entry) : bool :=
  forallb (fun k => match nth_error heap k, nth_error heap ((k - 1) / 2) with
                    | Some x, Some y => fst y <=? fst x
                    | _, _ => true
                    end)
          (seq 1 (length heap - 1)).

Definition is_heap (heap : list Entry) : Prop := is_heapb heap = true.

(** Position [c] is a child of position [p]. *)
Definition child (p c : nat) : Prop := c = (2 * p + 1)%nat \/ c = (2 * p + 2)%nat.

Definition le_at (L : list Entry) (p c : nat) : Prop :=
  forall x y, nth_error L p = Some y -> nth_error L c = Some x -> fst y <= fst x.

(** [L'] is [L] with the entries at [i] and [j] exchanged. *)
Definition swapped (L L' : list Entry) (i j : nat) : Prop :=
  length L' = length L
  /\ nth_error L' i = nth_error L j
  /\ nth_error L' j = nth_error L i
  /\ (forall k, k <> i -> k <> j -> nth_error L' k = nth_error L k).

(** While an item travels through the heap: the order holds between every
    parent and child away from [pos], and between the parent of [pos] and the
    children of [pos]. *)
Definition heap_except (L : list Entry) (pos : nat) : Prop :=
  (forall p c, child p c -> p <> pos -> c <> pos -> le_at L p c)
  /\ (forall pp c, child pp pos -> child pos c -> le_at L pp c).

(** [sF], on the heap, and [sA], on the queue by contract, hold the same
    entries and agree on everything else. *)
Definition same_stream (sF sA : TwitchBufferedOutputStream) : Prop :=
  sA = set_queue sF (q sA) /\ Permutation (q sF) (q sA) /\ is_heap (q sF).

(** * Properties *)

(** ** Rounding to double precision *)

Lemma pow2_pos (e : Z) : (0 < pow2 e)%Q.
Proof. apply Qpower_0_lt. reflexivity. Qed.

Lemma pow2_add (a b : Z) : pow2 (a + b) == pow2 a * pow2 b.
Proof. apply Qpower_plus. discriminate. Qed.

Lemma pow2_le (a b : Z) : a <= b -> (pow2 a <= pow2 b)%Q.
Proof. intro H. apply Qpower_le_compat_l; [exact H | discriminate]. Qed.

Lemma pow2_lt (a b : Z) : a < b -> (pow2 a < pow2 b)%Q.
Proof. intro H. apply Qpower_lt_compat_l; [exact H | reflexivity]. Qed.

Lemma pow2_Z (k : Z) : 0 <= k -> pow2 k == inject_Z (2 ^ k).
Proof. intro H. unfold pow2. rewrite (Zpower_Qpower 2 k H). reflexivity. Qed.

Lemma mag_spec (x : Q) : (0 < x)%Q -> (pow2 (mag x - 1) <= x)%Q /\ (x < pow2 (mag x))%Q.
Proof.
  intro Hx. destruct x as [n d]. unfold mag. cbn [Qnum Qden].
  assert (Hn : 0 < n) by (unfold Qlt in Hx; simpl in Hx; lia).
  set (a := Z.log2 n). set (b := Z.log2 (Z.pos d)).
  destruct (Z.log2_spec n Hn) as [Ha1 Ha2]. fold a in Ha1, Ha2.
  destruct (Z.log2_spec (Z.pos d) (Pos2Z.is_pos d)) as [Hb1 Hb2]. fold b in Hb1, Hb2.
  assert (Ha0 : 0 <= a) by apply Z.log2_nonneg.
  assert (Hb0 : 0 <= b) by apply Z.log2_nonneg.
  (* x as a fraction of integers *)
  assert (Hlow : (pow2 (a - b - 1) <= n # d)%Q).
  { replace (a - b - 1) with (a + - (b + 1)) by lia.
    rewrite pow2_add. unfold pow2 at 2. rewrite Qpower_opp.
    fold (pow2 (b + 1)). rewrite (pow2_Z a Ha0), (pow2_Z (b + 1)) by lia.
    rewrite Z.add_1_r in *. 
    unfold Qle, Qmult, Qinv, inject_Z. 
    assert (0 < 2 ^ Z.succ b) by (apply Z.pow_pos_nonneg; lia).
    destruct (2 ^ Z.succ b) eqn:E; try lia. simpl.
    rewrite Z.mul_1_r. nia. }
  assert (Hhigh : (n # d < pow2 (a - b + 1))%Q).
  { replace (a - b + 1) with ((a + 1) + - b) by lia.
    rewrite pow2_add. unfold pow2 at 2. rewrite Qpower_opp.
    fold (pow2 b). rewrite (pow2_Z (a + 1)), (pow2_Z b Hb0) by lia.
    rewrite Z.add_1_r in *.
    unfold Qlt, Qmult, Qinv, inject_Z.
    assert (0 < 2 ^ b) by (apply Z.pow_pos_nonneg; lia).
    destruct (2 ^ b) eqn:E; try lia. simpl.
    rewrite Z.mul_1_r. nia. }
  destruct (Qle_bool (pow2 (a - b)) (n # d)) eqn:Hc.
  - apply Qle_bool_iff in Hc. split.
    + replace (a - b + 1 - 1) with (a - b) by lia. exact Hc.
    + exact Hhigh.
  - split; [exact Hlow |].
    apply Qnot_le_lt. intro Hle. apply Qle_bool_iff in Hle. congruence.
Qed.

Lemma mag_mono (x y : Q) : (0 < x)%Q -> (x <= y)%Q -> mag x <= mag y.
Proof.
  intros Hx Hxy.
  assert (Hy : (0 < y)%Q) by lra.
  destruct (mag_spec x Hx) as [Hx1 _]. destruct (mag_spec y Hy) as [_ Hy2].
  destruct (Z_le_gt_dec (mag x) (mag y)) as [H | H]; [exact H | exfalso].
  assert (Hp : (pow2 (mag y) <= pow2 (mag x - 1))%Q) by (apply pow2_le; lia).
  lra.
Qed.

Lemma rne_cases (x : Q) : rne x = Qfloor x \/ rne x = Qfloor x + 1.
Proof.
  unfold rne. destruct (_ ?= _)%Q; auto. destruct (Z.even _); auto.
Qed.

Lemma rne_ge (x : Q) (n : Z) : (inject_Z n <= x)%Q -> n <= rne x.
Proof.
  intro H. apply Qfloor_resp_le in H. rewrite Qfloor_Z in H.
  destruct (rne_cases x) as [E | E]; rewrite E; lia.
Qed.

Lemma rne_le (x : Q) (n : Z) : (x <= inject_Z n)%Q -> rne x <= n.
Proof.
  intro H. pose proof (Qfloor_resp_le _ _ H) as Hf. rewrite Qfloor_Z in Hf.
  destruct (Z_lt_le_dec (Qfloor x) n) as [Hlt | Hge].
  - destruct (rne_cases x) as [E | E]; rewrite E; lia.
  - assert (Hfx : Qfloor x = n) by lia.
    unfold rne. rewrite Hfx.
    assert (Hd : (x - inject_Z n <= 0)%Q) by lra.
    destruct (Qcompare_spec (x - inject_Z n) (1 # 2)) as [Hc | Hc | Hc].
    + lra.
    + lia.
    + lra.
Qed.

Lemma rne_mono (x y : Q) : (x <= y)%Q -> rne x <= rne y.
Proof.
  intro H. pose proof (Qfloor_resp_le _ _ H) as Hf.
  destruct (Z_lt_le_dec (Qfloor x) (Qfloor y)) as [Hlt | Hge].
  - destruct (rne_cases x) as [E | E]; destruct (rne_cases y) as [E' | E'];
      rewrite E, E'; lia.
  - assert (Hfe : Qfloor x = Qfloor y) by lia.
    unfold rne. rewrite Hfe.
    set (f := Qfloor y).
    assert (Hd : (x - inject_Z f <= y - inject_Z f)%Q) by lra.
    destruct (Qcompare_spec (x - inject_Z f) (1 # 2)) as [Hcx | Hcx | Hcx];
      destruct (Qcompare_spec (y - inject_Z f) (1 # 2)) as [Hcy | Hcy | Hcy];
      try destruct (Z.even f); try lia; try lra.
Qed.

Lemma fexp_mono (a b : Z) : a <= b -> fexp a <= fexp b.
Proof. unfold fexp. lia. Qed.

Lemma round_pos_mono (x y : Q) :
  (0 < x)%Q -> (x <= y)%Q -> (round_pos x <= round_pos y)%Q.
Proof.
  intros Hx Hxy. assert (Hy : (0 < y)%Q) by lra.
  unfold round_pos.
  pose proof (mag_mono x y Hx Hxy) as Hm.
  pose proof (fexp_mono _ _ Hm) as Hu.
  set (ux := fexp (mag x)) in *. set (uy := fexp (mag y)) in *.
  destruct (Z.eq_dec ux uy) as [Heq | Hne].
  - rewrite <- Heq.
    apply Qmult_le_compat_r; [| apply Qlt_le_weak, pow2_pos].
    rewrite <- Zle_Qle. apply rne_mono.
    apply Qmult_le_compat_r; [exact Hxy |].
    apply Qlt_le_weak, Qinv_lt_0_compat, pow2_pos.
  - assert (Hlt : ux < uy) by lia.
    assert (Huy : uy = mag y - 53) by (unfold uy, ux, fexp in *; lia).
    assert (Hmx : mag x < mag y) by (unfold uy, ux, fexp in *; lia).
    destruct (mag_spec x Hx) as [_ Hx2]. destruct (mag_spec y Hy) as [Hy1 _].
    apply Qle_trans with (pow2 (mag y - 1)).
    + (* round_pos x <= 2^(mag y - 1) *)
      assert (Hk : 0 <= mag y - 1 - ux) by lia.
      assert (Hsplit : pow2 (mag y - 1) == inject_Z (2 ^ (mag y - 1 - ux)) * pow2 ux).
      { rewrite <- (pow2_Z _ Hk), <- pow2_add. apply Qpower_comp; [reflexivity | lia]. }
      rewrite Hsplit.
      apply Qmult_le_compat_r; [| apply Qlt_le_weak, pow2_pos].
      rewrite <- Zle_Qle. apply rne_le.
      apply Qle_shift_div_r; [apply pow2_pos |].
      rewrite <- Hsplit.
      apply Qle_trans with (pow2 (mag x)); [lra | apply pow2_le; lia].
    + assert (Hsplit : pow2 (mag y - 1) == inject_Z (2 ^ 52) * pow2 uy).
      { rewrite <- (pow2_Z 52) by lia. rewrite <- pow2_add.
        apply Qpower_comp; [reflexivity | lia]. }
      rewrite Hsplit.
      apply Qmult_le_compat_r; [| apply Qlt_le_weak, pow2_pos].
      rewrite <- Zle_Qle. apply rne_ge.
      apply Qle_shift_div_l; [apply pow2_pos |].
      rewrite <- Hsplit. exact Hy1.
Qed.

Lemma round_pos_nonneg (x : Q) : (0 < x)%Q -> (0 <= round_pos x)%Q.
Proof.
  intro Hx. unfold round_pos.
  apply Qmult_le_0_compat; [| apply Qlt_le_weak, pow2_pos].
  change 0%Q with (inject_Z 0). rewrite <- Zle_Qle. apply rne_ge.
  apply Qle_shift_div_l; [apply pow2_pos |].
  change (inject_Z 0) with 0%Q. rewrite Qmult_0_l. lra.
Qed.

Lemma round64_mono (x y : Q) : (x <= y)%Q -> (round64 x <= round64 y)%Q.
Proof.
  intro H. unfold round64.
  destruct (Qcompare_spec x 0) as [Hx | Hx | Hx];
    destruct (Qcompare_spec y 0) as [Hy | Hy | Hy];
    rewrite ?Qred_correct; try lra.
  - apply round_pos_nonneg. exact Hy.
  - pose proof (round_pos_nonneg (- x)). lra.
  - pose proof (round_pos_mono (- y) (- x)). lra.
  - pose proof (round_pos_nonneg (- x)). pose proof (round_pos_nonneg y). lra.
  - apply round_pos_mono; lra.
Qed.

Lemma round64_0 : round64 0 = 0%Q.
Proof. reflexivity. Qed.

Lemma round64_255 : round64 255 = 255%Q.
Proof. vm_compute. reflexivity. Qed.

(** [round64] against the standard library's specification of binary64
    ([prec = 53], [emax = 1024]) on operations that the code performs:
    [1/255.], [255 * (1/255.)], [1./30], [1700000000. + 1./24] and the
    difference back, [0.1 + 0.2]. *)
Lemma round64_agrees_with_binary64 :
  let b64 n := S754_finite false n 0 in
  let tenth := SFdiv 53 1024 (b64 1%positive) (b64 10%positive) in
  let fifth := SFdiv 53 1024 (b64 2%positive) (b64 10%positive) in
  let late := SFadd 53 1024 (b64 1700000000%positive)
                (SFdiv 53 1024 (b64 1%positive) (b64 24%positive)) in
  SF2Q (SFdiv 53 1024 (b64 1%positive) (b64 255%positive)) = fdiv 1 255
  /\ SF2Q (SFmul 53 1024 (b64 255%positive)
             (SFdiv 53 1024 (b64 1%positive) (b64 255%positive)))
     = fmul 255 (fdiv 1 255)
  /\ SF2Q (SFdiv 53 1024 (b64 1%positive) (b64 30%positive)) = fdiv 1 30
  /\ SF2Q late = fadd 1700000000 (fdiv 1 24)
  /\ SF2Q (SFsub 53 1024 late (b64 1700000000%positive))
     = fsub (fadd 1700000000 (fdiv 1 24)) 1700000000
  /\ SF2Q (SFadd 53 1024 tenth fifth) = fadd (fdiv 1 10) (fdiv 2 10).
Proof. vm_compute. repeat split. Qed.

(** ** Sample conversion *)

Lemma shape_eqb_true (s1 s2 : list Z) : shape_eqb s1 s2 = true <-> s1 = s2.
Proof.
  unfold shape_eqb. destruct (list_eq_dec Z.eq_dec s1 s2); split; congruence.
Qed.

Lemma shape_eqb_false (s1 s2 : list Z) : shape_eqb s1 s2 = false <-> s1 <> s2.
Proof.
  unfold shape_eqb. destruct (list_eq_dec Z.eq_dec s1 s2); split; congruence.
Qed.

Lemma np_clip_bounds (x : Q) : (0 <= np_clip x 0 255 <= 255)%Q.
Proof.
  unfold np_clip. split.
  - apply Q.min_glb; [apply Q.le_max_r | discriminate].
  - apply Q.le_min_r.
Qed.

Lemma Qfloor_byte (x : Q) : (0 <= x <= 255)%Q -> 0 <= Qfloor x <= 255.
Proof.
  intros [Hlo Hhi].
  pose proof (Qfloor_resp_le _ _ Hlo) as H0.
  pose proof (Qfloor_resp_le _ _ Hhi) as H1.
  change (Qfloor 0) with 0 in H0. change (Qfloor 255) with 255 in H1. lia.
Qed.

Lemma astype_uint8_floor (x : Q) :
  (0 <= x <= 255)%Q -> astype_uint8 x = Qfloor x.
Proof.
  intros [Hlo Hhi]. unfold astype_uint8.
  assert (Hnum : 0 <= Qnum x).
  { unfold Qle in Hlo. simpl in Hlo. lia. }
  rewrite Z.quot_div_nonneg by (auto; reflexivity).
  replace (Qnum x / Z.pos (Qden x)) with (Qfloor x) by (destruct x; reflexivity).
  apply Z.mod_small.
  pose proof (Qfloor_byte x (conj Hlo Hhi)). lia.
Qed.

Lemma to_uint8_floor (v : Q) : to_uint8 v = Qfloor (np_clip (fmul 255 v) 0 255).
Proof. unfold to_uint8. apply astype_uint8_floor, np_clip_bounds. Qed.

Lemma to_uint8_range (v : Q) : 0 <= to_uint8 v <= 255.
Proof.
  rewrite to_uint8_floor. apply Qfloor_byte, np_clip_bounds.
Qed.

Lemma fmul_255_monotone (v1 v2 : Q) :
  (v1 <= v2)%Q -> (fmul 255 v1 <= fmul 255 v2)%Q.
Proof.
  intro H. unfold fmul. apply round64_mono.
  apply Qmult_le_l; [reflexivity | exact H].
Qed.

Lemma fmul_255_0 : fmul 255 0 = 0%Q.
Proof. reflexivity. Qed.

Lemma fmul_255_1 : fmul 255 1 = 255%Q.
Proof. vm_compute. reflexivity. Qed.

Lemma to_uint8_unit (v : Q) : (0 <= v <= 1)%Q -> to_uint8 v = Qfloor (fmul 255 v).
Proof.
  intros [Hlo Hhi]. rewrite to_uint8_floor. apply Qfloor_comp.
  unfold np_clip.
  pose proof (fmul_255_monotone _ _ Hlo) as H0. rewrite fmul_255_0 in H0.
  pose proof (fmul_255_monotone _ _ Hhi) as H1. rewrite fmul_255_1 in H1.
  rewrite (Q.max_l _ _ H0). apply Q.min_l. exact H1.
Qed.

Lemma to_uint8_below (v : Q) : (v <= 0)%Q -> to_uint8 v = 0.
Proof.
  intro Hv. rewrite to_uint8_floor.
  assert (H : np_clip (fmul 255 v) 0 255 == 0).
  { unfold np_clip.
    pose proof (fmul_255_monotone _ _ Hv) as H0. rewrite fmul_255_0 in H0.
    rewrite (Q.max_r _ _ H0). apply Q.min_l. discriminate. }
  rewrite (Qfloor_comp _ _ H). reflexivity.
Qed.

Lemma to_uint8_above (v : Q) : (1 <= v)%Q -> to_uint8 v = 255.
Proof.
  intro Hv. rewrite to_uint8_floor.
  assert (H : np_clip (fmul 255 v) 0 255 == 255).
  { unfold np_clip.
    pose proof (fmul_255_monotone _ _ Hv) as H1. rewrite fmul_255_1 in H1.
    apply Q.min_r. apply Qle_trans with (fmul 255 v); [exact H1 | apply Q.le_max_l]. }
  rewrite (Qfloor_comp _ _ H). reflexivity.
Qed.

(** ** [TwitchOutputStream.send_frame] *)

(** The liveness check at the top of [send_frame], as a function of what
    [poll()] answers. *)
Lemma send_frame_unfold (s : TwitchOutputStream) (p : Proc) (frame : Frame) (env : SinkEnv) :
  pipe s = Some p ->
  send_frame s frame env =
    let s1 := if truthy (poll env) then set_pipe s (Some (S p)) else s in
    let fx := if truthy (poll env) then [Sigint p; Popen (S p)] else [] in
    let p1 := if truthy (poll env) then S p else p in
    if negb (shape_eqb (shape frame) [height s; width s; 3])
    then (s1, Raise AssertionError, fx)
    else if write_ok env
         then (s1, Ok tt, fx ++ [Write p1 (frame_tostring frame)])
         else (s1, Raise IOError, fx).
Proof.
  intro Hp. unfold send_frame, reset. rewrite Hp. simpl.
  destruct (truthy (poll env)); simpl; rewrite ?Hp;
    destruct (shape_eqb (shape frame) [height s; width s; 3]); simpl;
    destruct (write_ok env); reflexivity.
Qed.

Lemma send_frame_keeps_config (s : TwitchOutputStream) (frame : Frame) (env : SinkEnv) :
  let s1 := fst (fst (send_frame s frame env)) in
  width s1 = width s /\ height s1 = height s /\ fps s1 = fps s /\
  (pipe s <> None -> pipe s1 <> None).
Proof.
  destruct (pipe s) as [p|] eqn:Hp.
  - rewrite (send_frame_unfold s p frame env Hp). cbv zeta.
    destruct (truthy (poll env));
      destruct (negb (shape_eqb (shape frame) [height s; width s; 3]));
      destruct (write_ok env); simpl; rewrite ?Hp; repeat split; congruence.
  - unfold send_frame. rewrite Hp. simpl. rewrite Hp. repeat split; congruence.
Qed.

Lemma no_write_in_reset_effects (p : Proc) (b : bool) :
  forall q0 bs, ~ In (Write q0 bs) (if b then [Sigint p; Popen (S p)] else []).
Proof.
  intros q0 bs H. destruct b; simpl in H; intuition discriminate.
Qed.

(** C7 (as amended): on a frame of the configured shape, with the sink
    accepting the write, [send_frame] writes one byte per sample, and the
    byte of a sample [v] is the integer part (floor) of the double-precision
    product [255*v] clipped to [0, 255], not its rounding; it lies in
    [0, 255], is the floor of that product for [v] in [0, 1], [0] for
    [v <= 0] and [255] for [v >= 1]; the boundary samples 0.0, 0.5, 1.0,
    -0.1 and 1.1 give 0, 127, 255, 0 and 255. *)
Theorem send_frame_truncates_samples
    (s : TwitchOutputStream) (p : Proc) (frame : Frame) (env : SinkEnv) :
  pipe s = Some p ->
  shape frame = [height s; width s; 3] ->
  write_ok env = true ->
  (exists s1 fx p1,
      send_frame s frame env
        = (s1, Ok tt,
           fx ++ [Write p1 (map (fun v => Qfloor (np_clip (fmul 255 v) 0 255))
                              (data frame))])
      /\ pipe s1 = Some p1
      /\ forall q0 bs, ~ In (Write q0 bs) fx)
  /\ (forall v, 0 <= Qfloor (np_clip (fmul 255 v) 0 255) <= 255)
  /\ (forall v, (0 <= v <= 1)%Q ->
        Qfloor (np_clip (fmul 255 v) 0 255) = Qfloor (fmul 255 v))
  /\ (forall v, (v <= 0)%Q -> Qfloor (np_clip (fmul 255 v) 0 255) = 0)
  /\ (forall v, (1 <= v)%Q -> Qfloor (np_clip (fmul 255 v) 0 255) = 255)
  /\ map to_uint8 [0%Q; 1 # 2; 1%Q; round64 (- (1 # 10)); round64 (11 # 10)]
     = [0; 127; 255; 0; 255].
Proof.
  intros Hp Hshape Hw. split; [| split; [| split; [| split; [| split]]]].
  - rewrite (send_frame_unfold s p frame env Hp). cbv zeta.
    apply shape_eqb_true in Hshape. rewrite Hshape, Hw. simpl.
    exists (if truthy (poll env) then set_pipe s (Some (S p)) else s).
    exists (if truthy (poll env) then [Sigint p; Popen (S p)] else []).
    exists (if truthy (poll env) then S p else p).
    split; [| split].
    + unfold frame_tostring. do 4 f_equal.
      apply map_ext. intro v. apply to_uint8_floor.
    + destruct (truthy (poll env)); simpl; auto.
    + apply no_write_in_reset_effects.
  - intro v. rewrite <- to_uint8_floor. apply to_uint8_range.
  - intros v Hv. rewrite <- to_uint8_floor. apply to_uint8_unit, Hv.
  - intros v Hv. rewrite <- to_uint8_floor. apply to_uint8_below, Hv.
  - intros v Hv. rewrite <- to_uint8_floor. apply to_uint8_above, Hv.
  - vm_compute. reflexivity.
Qed.

Lemma send_frame_truncates_samples_witness :
  let samples := [0%Q; 1 # 2; 1%Q; round64 (- (1 # 10)); round64 (11 # 10);
                  fdiv 1 255] in
  (exists s1 fx p1,
      send_frame (mkStream 2 1 30 (Some O)) (mkFrame [1; 2; 3] samples)
                 (mkSinkEnv None true)
      = (s1, Ok tt,
         fx ++ [Write p1 (map (fun v => Qfloor (np_clip (fmul 255 v) 0 255)) samples)])
      /\ pipe s1 = Some p1
      /\ forall q0 bs, ~ In (Write q0 bs) fx)
  /\ map (fun v => Qfloor (np_clip (fmul 255 v) 0 255)) samples
     = [0; 127; 255; 0; 255; 1].
Proof.
  intro samples. split.
  - exact (proj1 (send_frame_truncates_samples
                    (mkStream 2 1 30 (Some O)) O (mkFrame [1; 2; 3] samples)
                    (mkSinkEnv None true) eq_refl eq_refl eq_refl)).
  - vm_compute. reflexivity.
Defined.

(** C7 (as stated) fails: the sample 0.999 of a valid frame is written as
    254, which is not a rounding of the product 255 * 0.999 = 254.745. *)
Lemma send_frame_rounding_counterexample :
  let v := round64 (999 # 1000) in
  send_frame (mkStream 1 1 30 (Some O)) (mkFrame [1; 1; 3] [v; 0%Q; 1%Q])
             (mkSinkEnv None true)
  = (mkStream 1 1 30 (Some O), Ok tt, [Write O [254; 0; 255]])
  /\ (0 <= v <= 1)%Q
  /\ ~ is_round (np_clip (fmul 255 v) 0 255) 254
  /\ is_round (np_clip (fmul 255 v) 0 255) 255.
Proof.
  intro v. split; [vm_compute; reflexivity |].
  split; [split; vm_compute; discriminate |]. split.
  - unfold is_round. intro H. vm_compute in H. apply H. reflexivity.
  - unfold is_round. vm_compute. discriminate.
Qed.

(** C8: a frame whose shape is not [(height, width, 3)] makes [send_frame]
    raise [AssertionError], and nothing is written to the sink. *)
Theorem send_frame_invalid_shape
    (s : TwitchOutputStream) (p : Proc) (frame : Frame) (env : SinkEnv) :
  pipe s = Some p ->
  shape frame <> [height s; width s; 3] ->
  exists s1 fx,
    send_frame s frame env = (s1, Raise AssertionError, fx)
    /\ forall q0 bs, ~ In (Write q0 bs) fx.
Proof.
  intros Hp Hshape. rewrite (send_frame_unfold s p frame env Hp). cbv zeta.
  apply shape_eqb_false in Hshape. rewrite Hshape. simpl.
  eexists. eexists. split; [reflexivity |].
  apply no_write_in_reset_effects.
Qed.

Lemma send_frame_invalid_shape_witness :
  exists s1 fx,
    send_frame (mkStream 4 2 30 (Some O)) (np_ones 4 2)
               (mkSinkEnv (Some 1) true)
    = (s1, Raise AssertionError, fx)
    /\ forall q0 bs, ~ In (Write q0 bs) fx.
Proof.
  apply (send_frame_invalid_shape (mkStream 4 2 30 (Some O)) O).
  - reflexivity.
  - simpl. discriminate.
Defined.

(** When [poll()] answers a non-zero return code, the sink is relaunched and
    the frame goes to the new process. *)
Lemma send_frame_resets_dead_sink
    (s : TwitchOutputStream) (p : Proc) (frame : Frame) (env : SinkEnv) :
  pipe s = Some p ->
  truthy (poll env) = true ->
  shape frame = [height s; width s; 3] ->
  write_ok env = true ->
  send_frame s frame env
  = (set_pipe s (Some (S p)), Ok tt,
     [Sigint p; Popen (S p); Write (S p) (frame_tostring frame)]).
Proof.
  intros Hp Ht Hshape Hw. rewrite (send_frame_unfold s p frame env Hp). cbv zeta.
  apply shape_eqb_true in Hshape. rewrite Hshape, Hw, Ht. reflexivity.
Qed.

(** C9 (the code departs from it): when the child has exited with return
    code 0, [poll()] answers [0], which Python takes as false: [send_frame]
    never calls [reset] and the frame is written to the pipe of the exited
    process, whereas after return code 1 the sink is relaunched first. *)
Theorem send_frame_exit_zero_not_reset :
  (forall s frame w q0,
      ~ In (Popen q0) (snd (send_frame s frame (mkSinkEnv (Some 0) w))))
  /\ send_frame (mkStream 1 1 30 (Some O)) (np_ones 1 1) (mkSinkEnv (Some 0) true)
     = (mkStream 1 1 30 (Some O), Ok tt, [Write O [255; 255; 255]])
  /\ send_frame (mkStream 1 1 30 (Some O)) (np_ones 1 1) (mkSinkEnv (Some 1) true)
     = (mkStream 1 1 30 (Some 1%nat), Ok tt,
        [Sigint O; Popen 1%nat; Write 1%nat [255; 255; 255]]).
Proof.
  split; [| split; reflexivity].
  intros s frame w q0. destruct (pipe s) as [p|] eqn:Hp.
  - rewrite (send_frame_unfold s p frame _ Hp). cbv zeta. simpl.
    destruct (negb (shape_eqb (shape frame) [height s; width s; 3]));
      [| destruct w]; simpl; intuition discriminate.
  - unfold send_frame. rewrite Hp. simpl. tauto.
Qed.

(** ** [TwitchOutputStreamRepeater] *)

Lemma period_nonzero (rate : Q) : ~ rate == 0 -> period rate = Ok (fdiv 1 rate).
Proof.
  intro Hnz. unfold period. destruct (Qeq_bool rate 0) eqn:H; [| reflexivity].
  apply Qeq_bool_iff in H. contradiction.
Qed.

Lemma period_ok_inv (rate step : Q) :
  period rate = Ok step -> ~ rate == 0 /\ step = fdiv 1 rate.
Proof.
  unfold period. destruct (Qeq_bool rate 0) eqn:H; [discriminate |].
  intro Heq. inversion Heq. split; [| reflexivity].
  intro Hz. apply Qeq_bool_iff in Hz. congruence.
Qed.

(** With no timer pending, no tick ever runs again, whatever the producer
    does and however long one waits. *)
Lemma repeater_run_idle (evs : list REvent) :
  forall sys, r_pending sys = O ->
    snd (repeater_run evs sys) = [] /\ r_pending (fst (repeater_run evs sys)) = O.
Proof.
  induction evs as [| ev evs IH]; intros sys Hidle; simpl.
  - auto.
  - destruct ev as [f | env]; simpl.
    + specialize (IH (mkRSys (repeater_send_frame (r_obj sys) f) (r_pending sys)) Hidle).
      destruct (repeater_run evs _) as [sys2 reps2]. simpl in *. exact IH.
    + rewrite Hidle. specialize (IH sys Hidle).
      destruct (repeater_run evs sys) as [sys2 reps2]. simpl in *. exact IH.
Qed.

Lemma repeater_tick_unfold (r : TwitchOutputStreamRepeater) (p : Proc) (env : SinkEnv) :
  pipe (rep_base r) = Some p ->
  shape (lastframe r) = [height (rep_base r); width (rep_base r); 3] ->
  let b := rep_base r in
  let b1 := if truthy (poll env) then set_pipe b (Some (S p)) else b in
  let fx := if truthy (poll env) then [Sigint p; Popen (S p)] else [] in
  let p1 := if truthy (poll env) then S p else p in
  repeater_tick r env =
    if write_ok env
    then match period (fps b) with
         | Ok delay =>
             (mkRepeater b1 (lastframe r),
              mkReport None (lastframe r) (Ok tt)
                (fx ++ [Write p1 (frame_tostring (lastframe r))])
                [Timer delay])
         | Raise e =>
             (mkRepeater b1 (lastframe r),
              mkReport None (lastframe r) (Raise e)
                (fx ++ [Write p1 (frame_tostring (lastframe r))]) [])
         end
    else (mkRepeater b1 (lastframe r),
          mkReport None (lastframe r) (Ok tt) fx []).
Proof.
  intros Hp Hshape. cbv zeta. unfold repeater_tick.
  rewrite (send_frame_unfold _ p _ env Hp). cbv zeta.
  apply shape_eqb_true in Hshape. rewrite Hshape. simpl.
  destruct (write_ok env); destruct (truthy (poll env)); reflexivity.
Qed.

(** C4: in the repeater's tick, a write that fails with [IOError] is
    swallowed (the tick returns normally) and nothing is started, so with
    that tick's timer the only one, no tick runs ever again; a write that
    succeeds is followed by the start of exactly one timer, of delay
    [1/fps], as the last action of the tick ([fps] not being zero). *)
Theorem repeater_tick_reschedules_iff_written
    (r : TwitchOutputStreamRepeater) (p : Proc) (env : SinkEnv) :
  pipe (rep_base r) = Some p ->
  shape (lastframe r) = [height (rep_base r); width (rep_base r); 3] ->
  let rep := snd (repeater_tick r env) in
  (write_ok env = false ->
     rp_result rep = Ok tt
     /\ rp_started rep = []
     /\ (forall q0 bs, ~ In (Write q0 bs) (rp_effects rep))
     /\ forall evs,
          snd (repeater_run (RFire env :: evs) (mkRSys r 1)) = [rep]
          /\ r_pending (fst (repeater_run (RFire env :: evs) (mkRSys r 1))) = O)
  /\ (write_ok env = true ->
      ~ fps (rep_base r) == 0 ->
        rp_result rep = Ok tt
        /\ rp_started rep = [Timer (fdiv 1 (fps (rep_base r)))]
        /\ (exists fx p1,
              rp_effects rep = fx ++ [Write p1 (frame_tostring (lastframe r))]
              /\ forall q0 bs, ~ In (Write q0 bs) fx)
        /\ r_pending (fst (repeater_step (mkRSys r 1) (RFire env))) = 1%nat).
Proof.
  intros Hp Hshape rep. subst rep.
  pose proof (repeater_tick_unfold r p env Hp Hshape) as Htick. cbv zeta in Htick.
  split; [intro Hw | intros Hw Hfps]; rewrite Hw in Htick.
  - split; [| split; [| split]].
    + rewrite Htick. reflexivity.
    + rewrite Htick. reflexivity.
    + rewrite Htick. simpl. apply no_write_in_reset_effects.
    + intro evs. simpl. rewrite Htick. simpl.
      match goal with
      | |- context [repeater_run evs ?sys] =>
          destruct (repeater_run_idle evs sys eq_refl) as [Hnone Hidle];
          destruct (repeater_run evs sys) as [sys2 reps2]
      end.
      simpl in *. subst reps2. split; [reflexivity | exact Hidle].
  - rewrite (period_nonzero _ Hfps) in Htick.
    split; [| split; [| split]].
    + rewrite Htick. reflexivity.
    + rewrite Htick. reflexivity.
    + rewrite Htick. simpl. eexists. eexists. split; [reflexivity |].
      apply no_write_in_reset_effects.
    + simpl. rewrite Htick. reflexivity.
Qed.

Lemma repeater_tick_reschedules_iff_written_witness :
  let r := mkRepeater (mkStream 2 1 30 (Some O)) (np_ones 1 2) in
  snd (repeater_run [RFire (mkSinkEnv None false); RSend (np_ones 1 2);
                     RFire (mkSinkEnv None true); RFire (mkSinkEnv None true)]
                    (mkRSys r 1))
    = [snd (repeater_tick r (mkSinkEnv None false))]
  /\ rp_started (snd (repeater_tick r (mkSinkEnv None true))) = [Timer (fdiv 1 30)].
Proof.
  intro r.
  pose proof (repeater_tick_reschedules_iff_written r O (mkSinkEnv None false)
                eq_refl eq_refl) as [Hclosed _].
  pose proof (repeater_tick_reschedules_iff_written r O (mkSinkEnv None true)
                eq_refl eq_refl) as [_ Hopen].
  split.
  - apply (Hclosed eq_refl).
  - apply (Hopen eq_refl). discriminate.
Defined.

(** ** The priority queue *)

Lemma extract_min_spec (l : list Entry) :
  forall x m rest,
    extract_min x l = (m, rest) ->
    Permutation (x :: l) (m :: rest)
    /\ (forall e, In e (x :: l) -> fst m <= fst e).
Proof.
  induction l as [| y l IH]; intros x m rest H; simpl in H.
  - inversion H; subst. split; [reflexivity |].
    intros e [He | []]. subst. lia.
  - destruct (extract_min y l) as [m' rest'] eqn:Hext.
    destruct (IH y m' rest' Hext) as [Hperm Hmin].
    destruct (fst x <=? fst m') eqn:Hcmp; inversion H; subst; clear H.
    + apply Z.leb_le in Hcmp. split; [reflexivity |].
      intros e [He | He]; [subst; lia |].
      specialize (Hmin e He). lia.
    + apply Z.leb_gt in Hcmp. split.
      * rewrite Hperm. apply perm_swap.
      * intros e [He | He]; [subst; lia | auto].
Qed.

Lemma pq_get_nowait_spec (qu : PriorityQueue) :
  match pq_get_nowait qu with
  | None => qu = []
  | Some (m, rest) =>
      Permutation qu (m :: rest) /\ (forall e, In e qu -> fst m <= fst e)
  end.
Proof.
  destruct qu as [| x l]; simpl; [reflexivity |].
  destruct (extract_min x l) as [m rest] eqn:H.
  exact (extract_min_spec l x m rest H).
Qed.

(** ** [TwitchBufferedOutputStream]: what a tick does to the queue *)

Lemma buffered_tick_view (s : TwitchBufferedOutputStream) (env : TickEnv) :
  let s' := fst (buffered_tick s env) in
  let rep := snd (buffered_tick s env) in
  frame_counter s' = frame_counter s
  /\ match pq_get_nowait (q s) with
     | Some (item, rest) =>
         rp_popped rep = Some item /\ rp_frame rep = snd item
         /\ last_frame s' = snd item /\ q s' = rest
     | None =>
         rp_popped rep = None /\ rp_frame rep = last_frame s
         /\ last_frame s' = last_frame s /\ q s' = q s
     end.
Proof.
  unfold buffered_tick.
  destruct (pq_get_nowait (q s)) as [[item rest] |];
    destruct (send_frame _ _ _) as [[b res] fx];
    destruct (reschedule _ _ _) as [[nst started] | e0];
    destruct res as [[] | []]; simpl; auto.
Qed.

Lemma buffered_run_cons_tick (env : TickEnv) (evs : list Event) (s : TwitchBufferedOutputStream) :
  buffered_run (Tick env :: evs) s
  = (fst (buffered_run evs (fst (buffered_tick s env))),
     (env, snd (buffered_tick s env)) :: snd (buffered_run evs (fst (buffered_tick s env)))).
Proof.
  simpl. destruct (buffered_tick s env) as [s' rep]. simpl.
  destruct (buffered_run evs s') as [s2 log2]. reflexivity.
Qed.

Lemma buffered_run_cons_submit (f : Frame) (c : option Z) (evs : list Event)
    (s : TwitchBufferedOutputStream) :
  buffered_run (Submit f c :: evs) s = buffered_run evs (buffered_send_frame s f c).
Proof.
  simpl. destruct (buffered_run evs _) as [s2 log2]. reflexivity.
Qed.

Lemma popped_entries_cons (env : TickEnv) (rep : Report) (log : list (TickEnv * Report)) :
  popped_entries ((env, rep) :: log)
  = match rp_popped rep with
    | Some e => e :: popped_entries log
    | None => popped_entries log
    end.
Proof. unfold popped_entries. simpl. destruct (rp_popped rep); reflexivity. Qed.

(** As many ticks as there are entries drain the queue in ascending order of
    sequence number. *)
Lemma buffered_run_drains_sorted (envs : list TickEnv) :
  forall s, length envs = length (q s) ->
    let r := buffered_run (map Tick envs) s in
    Permutation (popped_entries (snd r)) (q s)
    /\ Sorted Z.le (popped_numbers (snd r))
    /\ emitted_frames (snd r) = map snd (popped_entries (snd r))
    /\ q (fst r) = [].
Proof.
  induction envs as [| env envs IH]; intros s Hlen; cbv zeta.
  - simpl in *. destruct (q s); [| discriminate].
    repeat split; constructor.
  - change (map Tick (env :: envs)) with (Tick env :: map Tick envs).
    rewrite buffered_run_cons_tick. simpl fst. simpl snd.
    destruct (buffered_tick_view s env) as [_ Hview]. cbv zeta in Hview.
    pose proof (pq_get_nowait_spec (q s)) as Hspec.
    destruct (pq_get_nowait (q s)) as [[m rest] |].
    + destruct Hview as (Hpop & Hfr & _ & Hq). destruct Hspec as [Hperm Hmin].
      assert (Hlen' : length envs = length (q (fst (buffered_tick s env)))).
      { rewrite Hq. apply Permutation_length in Hperm. simpl in *. lia. }
      specialize (IH _ Hlen'). cbv zeta in IH.
      destruct IH as (IHperm & IHsorted & IHem & IHq).
      rewrite Hq in IHperm.
      unfold popped_numbers in *. rewrite popped_entries_cons, Hpop.
      repeat split.
      * rewrite Hperm. constructor. exact IHperm.
      * simpl. constructor; [exact IHsorted |].
        destruct (popped_entries _) as [| e es] eqn:He; simpl; constructor.
        apply Hmin. rewrite Hperm. right.
        apply (Permutation_in e IHperm). left. reflexivity.
      * unfold emitted_frames in *. simpl. rewrite Hfr. f_equal. exact IHem.
      * exact IHq.
    + subst. rewrite Hspec in Hlen. discriminate.
Qed.

(** ** The library's queue on pairwise distinct counters

    [heappush] and [heappop] never raise, keep the heap invariant and the
    entries, and [heappop] returns the lowest entry: the stream does on the
    library's queue what it does on the queue by contract. *)

Lemma parent_child (k : nat) : (0 < k)%nat -> child ((k - 1) / 2) k.
Proof.
  intro Hk. unfold child.
  pose proof (Nat.div_mod_eq (k - 1) 2) as Hd.
  pose proof (Nat.mod_upper_bound (k - 1) 2) as Hm.
  lia.
Qed.

Lemma child_parent (p c : nat) : child p c -> (0 < c)%nat /\ ((c - 1) / 2)%nat = p.
Proof.
  intros [H | H]; subst; split; try lia.
  - replace (2 * p + 1 - 1)%nat with (p * 2)%nat by lia. apply Nat.div_mul. lia.
  - replace (2 * p + 2 - 1)%nat with (1 + p * 2)%nat by lia.
    rewrite Nat.div_add by lia. reflexivity.
Qed.

Lemma is_heap_spec (L : list Entry) :
  is_heap L <-> (forall p c, child p c -> le_at L p c).
Proof.
  unfold is_heap, is_heapb. rewrite forallb_forall. split.
  - intros H p c Hc x y Hy Hx.
    destruct (child_parent p c Hc) as [Hpos Hpar].
    assert (Hlen : (c < length L)%nat) by (apply nth_error_Some; congruence).
    specialize (H c). rewrite Hpar, Hx, Hy in H.
    apply Z.leb_le, H, in_seq. lia.
  - intros H k Hk. apply in_seq in Hk.
    destruct (nth_error L k) as [x |] eqn:Hx; [| reflexivity].
    destruct (nth_error L ((k - 1) / 2)) as [y |] eqn:Hy; [| reflexivity].
    apply Z.leb_le. apply (H ((k - 1) / 2)%nat k); [apply parent_child; lia | |]; assumption.
Qed.

Lemma nth_error_list_set (h : list Entry) (i : nat) (x : Entry) (j : nat) :
  nth_error (list_set h i x) j
  = if Nat.eqb i j
    then match nth_error h i with Some _ => Some x | None => None end
    else nth_error h j.
Proof.
  revert i j. induction h as [| a h IH]; intros i j.
  - simpl. destruct (Nat.eqb i j); destruct i, j; reflexivity.
  - destruct i as [| i], j as [| j]; simpl; try reflexivity. apply IH.
Qed.

Lemma length_list_set (h : list Entry) (i : nat) (x : Entry) :
  length (list_set h i x) = length h.
Proof.
  revert i. induction h as [| a h IH]; intros [| i]; simpl; auto.
Qed.

Lemma list_ext (l l' : list Entry) :
  (forall j, nth_error l j = nth_error l' j) -> l = l'.
Proof.
  revert l'. induction l as [| a l IH]; intros [| b l'] H.
  - reflexivity.
  - specialize (H O). discriminate.
  - specialize (H O). discriminate.
  - pose proof (H O) as H0. simpl in H0. inversion H0. f_equal.
    apply IH. intro j. exact (H (S j)).
Qed.

Lemma entry_lt_cases (a b : Entry) :
  (entry_lt a b = Some true /\ fst a < fst b)
  \/ (entry_lt a b = Some false /\ fst b < fst a)
  \/ (entry_lt a b = None /\ fst a = fst b).
Proof.
  unfold entry_lt.
  destruct (fst a <? fst b) eqn:H1; [left; split; [reflexivity | apply Z.ltb_lt, H1] |].
  destruct (fst b <? fst a) eqn:H2; [right; left; split; [reflexivity | apply Z.ltb_lt, H2] |].
  right; right. apply Z.ltb_ge in H1, H2. split; [reflexivity | lia].
Qed.

Lemma keys_distinct (L : list Entry) (i j : nat) (x y : Entry) :
  NoDup (map fst L) -> nth_error L i = Some x -> nth_error L j = Some y ->
  i <> j -> fst x <> fst y.
Proof.
  intros Hnd Hi Hj Hij Heq. apply Hij.
  apply (proj1 (NoDup_nth_error (map fst L)) Hnd).
  - rewrite length_map. apply (proj1 (nth_error_Some L i)). rewrite Hi. discriminate.
  - rewrite !nth_error_map. unfold Entry in *. rewrite Hi, Hj. simpl. f_equal. exact Heq.
Qed.

Lemma keys_inj (L : list Entry) (a b : Entry) :
  NoDup (map fst L) -> In a L -> In b L -> fst a = fst b -> a = b.
Proof.
  intros Hnd Ha Hb Heq.
  destruct (In_nth_error _ _ Ha) as [i Hi]. destruct (In_nth_error _ _ Hb) as [j Hj].
  destruct (Nat.eq_dec i j) as [-> | Hij]; [congruence |].
  exfalso. exact (keys_distinct L i j a b Hnd Hi Hj Hij Heq).
Qed.

Lemma swapped_incl (L L' : list Entry) (i j : nat) :
  swapped L L' i j -> incl L L'.
Proof.
  intros (_ & Hi & Hj & Hk) x Hx.
  destruct (In_nth_error _ _ Hx) as [k Hkx].
  destruct (Nat.eq_dec k i) as [-> | Hki].
  - apply (nth_error_In L' j). congruence.
  - destruct (Nat.eq_dec k j) as [-> | Hkj].
    + apply (nth_error_In L' i). congruence.
    + apply (nth_error_In L' k). rewrite Hk; auto.
Qed.

Lemma nodup_keys_entries (L : list Entry) : NoDup (map fst L) -> NoDup L.
Proof. apply NoDup_map_inv. Qed.

Lemma incl_permutation (L L' : list Entry) :
  NoDup (map fst L) -> length L' = length L -> incl L L' -> Permutation L L'.
Proof.
  intros Hnd Hlen Hincl.
  apply NoDup_Permutation_bis; [apply nodup_keys_entries, Hnd | lia | exact Hincl].
Qed.

Lemma permutation_nodup_keys (L L' : list Entry) :
  Permutation L L' -> NoDup (map fst L) -> NoDup (map fst L').
Proof.
  intros Hp. apply Permutation_NoDup, Permutation_map, Hp.
Qed.

Lemma swapped_nodup_keys (L L' : list Entry) (i j : nat) :
  swapped L L' i j -> NoDup (map fst L) -> NoDup (map fst L').
Proof.
  intros Hs Hnd. apply (permutation_nodup_keys L L'); [| exact Hnd].
  apply incl_permutation; [exact Hnd | apply Hs | exact (swapped_incl _ _ _ _ Hs)].
Qed.

Lemma swapped_list_set (hp : list Entry) (pos c : nat) (newitem y : Entry) :
  pos <> c -> (pos < length hp)%nat -> nth_error hp c = Some y ->
  swapped (list_set hp pos newitem) (list_set (list_set hp pos y) c newitem) pos c.
Proof.
  intros Hne Hpos Hc.
  destruct (nth_error hp pos) as [z |] eqn:Hz;
    [| apply nth_error_None in Hz; lia].
  assert (Hpc : Nat.eqb pos c = false) by (apply Nat.eqb_neq; exact Hne).
  assert (Hcp : Nat.eqb c pos = false) by (apply Nat.eqb_neq; auto).
  unfold swapped. rewrite !length_list_set. repeat split.
  - rewrite !nth_error_list_set, Hcp, Hpc, !Nat.eqb_refl, Hz, Hc. reflexivity.
  - rewrite !nth_error_list_set, Hpc, !Nat.eqb_refl, Hz, Hc. reflexivity.
  - intros k Hk1 Hk2. rewrite !nth_error_list_set.
    assert (E1 : Nat.eqb c k = false) by (apply Nat.eqb_neq; auto).
    assert (E2 : Nat.eqb pos k = false) by (apply Nat.eqb_neq; auto).
    rewrite E1, E2. reflexivity.
Qed.

(** One turn of the loop of [_siftdown]: the new item goes up one level. *)
Lemma heap_except_up (L L' : list Entry) (pos pp : nat) (newitem parent : Entry) :
  heap_except L pos ->
  (forall c, child pos c -> le_at L pos c) ->
  child pp pos ->
  nth_error L pp = Some parent -> nth_error L pos = Some newitem ->
  fst newitem < fst parent ->
  swapped L L' pos pp ->
  heap_except L' pp /\ (forall c, child pp c -> le_at L' pp c).
Proof.
  intros [Hex Hgp] Hch Hpp Hparent Hnew Hlt Hs.
  pose proof Hs as (Hlen & Hi & Hj & Hk).
  assert (Hne : pp <> pos) by (unfold child in Hpp; lia).
  split; [split |].
  - intros p c Hc Hp1 Hc1 x y Hy Hx.
    destruct (Nat.eq_dec p pos) as [-> | Hp2].
    + (* the children of pos *)
      rewrite Hi, Hparent in Hy. inversion Hy; subst y.
      rewrite Hk in Hx by (unfold child in *; lia).
      exact (Hgp pp c Hpp Hc x parent Hparent Hx).
    + rewrite Hk in Hy by auto.
      destruct (Nat.eq_dec c pos) as [-> | Hc2].
      * exfalso. unfold child in *. lia.
      * rewrite Hk in Hx by auto. exact (Hex p c Hc Hp2 Hc2 x y Hy Hx).
  - intros gp c Hgpc Hc x y Hy Hx.
    rewrite Hk in Hy by (unfold child in *; lia).
    destruct (Nat.eq_dec c pos) as [-> | Hc2].
    + rewrite Hi, Hparent in Hx. inversion Hx; subst x.
      apply (Hex gp pp Hgpc); auto. unfold child in *; lia.
    + rewrite Hk in Hx by (unfold child in *; lia).
      assert (fst y <= fst parent).
      { apply (Hex gp pp Hgpc); auto. unfold child in *; lia. }
      assert (fst parent <= fst x).
      { apply (Hex pp c Hc); auto. }
      lia.
  - intros c Hc x y Hy Hx.
    rewrite Hj, Hnew in Hy. inversion Hy; subst y.
    destruct (Nat.eq_dec c pos) as [-> | Hc2].
    + rewrite Hi, Hparent in Hx. inversion Hx; subst x. lia.
    + rewrite Hk in Hx by (unfold child in *; lia).
      assert (fst parent <= fst x) by (apply (Hex pp c Hc); auto).
      lia.
Qed.

(** One turn of the loop of [_siftup]: the lower child goes up one level. *)
Lemma heap_except_down (L L' : list Entry) (pos c0 : nat) :
  heap_except L pos ->
  child pos c0 ->
  (forall c, child pos c -> le_at L c0 c) ->
  swapped L L' pos c0 ->
  heap_except L' c0.
Proof.
  intros [Hex Hgp] Hc0 Hmin Hs.
  pose proof Hs as (Hlen & Hi & Hj & Hk).
  assert (Hne : pos <> c0) by (unfold child in Hc0; lia).
  split.
  - intros p c Hc Hp1 Hc1 x y Hy Hx.
    destruct (Nat.eq_dec p pos) as [-> | Hp2].
    + rewrite Hi in Hy. rewrite Hk in Hx by (unfold child in *; lia).
      exact (Hmin c Hc x y Hy Hx).
    + rewrite Hk in Hy by auto.
      destruct (Nat.eq_dec c pos) as [-> | Hc2].
      * rewrite Hi in Hx. exact (Hgp p c0 Hc Hc0 x y Hy Hx).
      * rewrite Hk in Hx by auto. exact (Hex p c Hc Hp2 Hc2 x y Hy Hx).
  - intros pp c Hpp Hc x y Hy Hx.
    assert (pp = pos) by (unfold child in *; lia). subst pp.
    rewrite Hi in Hy. rewrite Hk in Hx by (unfold child in *; lia).
    apply (Hex c0 c Hc); auto; unfold child in *; lia.
Qed.

Lemma heap_except_heap (L : list Entry) (pos : nat) :
  heap_except L pos ->
  (forall c, child pos c -> le_at L pos c) ->
  (forall pp, child pp pos -> le_at L pp pos) ->
  is_heap L.
Proof.
  intros [Hex _] Hdown Hup. apply is_heap_spec. intros p c Hc.
  destruct (Nat.eq_dec c pos) as [-> | Hc1]; [apply Hup, Hc |].
  destruct (Nat.eq_dec p pos) as [-> | Hp1]; [apply Hdown, Hc |].
  apply Hex; auto.
Qed.

Lemma list_set_same (hp : list Entry) (pos : nat) (x : Entry) :
  nth_error hp pos = Some x -> list_set hp pos x = hp.
Proof.
  intro H. apply list_ext. intro j. rewrite nth_error_list_set.
  destruct (Nat.eqb pos j) eqn:E; [| reflexivity].
  apply Nat.eqb_eq in E. subst j. rewrite H. reflexivity.
Qed.

Lemma nth_error_list_set_eq (hp : list Entry) (pos : nat) (x : Entry) :
  (pos < length hp)%nat -> nth_error (list_set hp pos x) pos = Some x.
Proof.
  intro H. rewrite nth_error_list_set, Nat.eqb_refl.
  destruct (nth_error hp pos) eqn:E; [reflexivity |].
  apply nth_error_None in E. lia.
Qed.

Lemma nth_error_list_set_neq (hp : list Entry) (pos j : nat) (x : Entry) :
  pos <> j -> nth_error (list_set hp pos x) j = nth_error hp j.
Proof.
  intro H. rewrite nth_error_list_set.
  destruct (Nat.eqb pos j) eqn:E; [apply Nat.eqb_eq in E; contradiction | reflexivity].
Qed.

Lemma nth_error_lt (l : list Entry) (i : nat) (x : Entry) :
  nth_error l i = Some x -> (i < length l)%nat.
Proof. intro H. apply (proj1 (nth_error_Some l i)). rewrite H. discriminate. Qed.

Lemma siftdown_loop_S (fuel : nat) (heap : list Entry) (newitem : Entry) (startpos pos : nat) :
  siftdown_loop (S fuel) heap newitem startpos pos
  = if (startpos <? pos)%nat then
      match entry_lt newitem (nth ((pos - 1) / 2) heap newitem) with
      | None => (heap, false)
      | Some true =>
          siftdown_loop fuel (list_set heap pos (nth ((pos - 1) / 2) heap newitem))
            newitem startpos ((pos - 1) / 2)
      | Some false => (list_set heap pos newitem, true)
      end
    else (list_set heap pos newitem, true).
Proof. reflexivity. Qed.

Lemma siftup_loop_S (fuel : nat) (heap : list Entry) (dflt : Entry) (endpos pos : nat) :
  siftup_loop (S fuel) heap dflt endpos pos
  = if (2 * pos + 1 <? endpos)%nat then
      match (if (2 * pos + 1 + 1 <? endpos)%nat
             then match entry_lt (nth (2 * pos + 1) heap dflt)
                                 (nth (2 * pos + 1 + 1) heap dflt) with
                  | None => None
                  | Some lt => Some (if lt then (2 * pos + 1)%nat else (2 * pos + 1 + 1)%nat)
                  end
             else Some (2 * pos + 1)%nat) with
      | None => (heap, None)
      | Some c => siftup_loop fuel (list_set heap pos (nth c heap dflt)) dflt endpos c
      end
    else (heap, Some pos).
Proof. reflexivity. Qed.

(** [_siftdown(heap, 0, pos)] on distinct counters: no comparison raises,
    and the list is a heap again. *)
Lemma siftdown_loop_ok (fuel : nat) :
  forall hp newitem pos,
    (pos <= fuel)%nat -> (pos < length hp)%nat ->
    NoDup (map fst (list_set hp pos newitem)) ->
    heap_except (list_set hp pos newitem) pos ->
    (forall c, child pos c -> le_at (list_set hp pos newitem) pos c) ->
    exists h',
      siftdown_loop fuel hp newitem 0 pos = (h', true)
      /\ is_heap h' /\ length h' = length hp
      /\ incl (list_set hp pos newitem) h'.
Proof.
  induction fuel as [| fuel IH]; intros hp newitem pos Hfuel Hpos Hnd Hex Hch.
  - assert (pos = O) by lia. subst pos. simpl siftdown_loop.
    exists (list_set hp 0 newitem). split; [reflexivity |].
    split; [| split; [apply length_list_set | apply incl_refl]].
    apply (heap_except_heap _ O); auto.
    intros pp Hpp. unfold child in Hpp. lia.
  - rewrite siftdown_loop_S. destruct (0 <? pos)%nat eqn:Hp.
    2: { apply Nat.ltb_ge in Hp. assert (pos = O) by lia. subst pos.
         exists (list_set hp 0 newitem). split; [reflexivity |].
         split; [| split; [apply length_list_set | apply incl_refl]].
         apply (heap_except_heap _ O); auto.
         intros pp Hpp. unfold child in Hpp. lia. }
    apply Nat.ltb_lt in Hp.
    pose proof (parent_child pos Hp) as Hpp.
    set (pp := ((pos - 1) / 2)%nat) in *.
    assert (Hlt : (pp < pos)%nat) by (unfold child in Hpp; lia).
    destruct (nth_error hp pp) as [parent |] eqn:Hparent;
      [| apply nth_error_None in Hparent; lia].
    rewrite (nth_error_nth hp pp newitem Hparent).
    assert (HLpp : nth_error (list_set hp pos newitem) pp = Some parent).
    { rewrite nth_error_list_set_neq by lia. exact Hparent. }
    assert (HLpos : nth_error (list_set hp pos newitem) pos = Some newitem).
    { apply nth_error_list_set_eq, Hpos. }
    destruct (entry_lt_cases newitem parent) as [[E Hk] | [[E Hk] | [E Hk]]]; rewrite E.
    + assert (Hs : swapped (list_set hp pos newitem)
                     (list_set (list_set hp pos parent) pp newitem) pos pp).
      { apply swapped_list_set; auto. lia. }
      destruct (heap_except_up _ _ pos pp newitem parent Hex Hch Hpp HLpp HLpos Hk Hs)
        as [Hex' Hch'].
      destruct (IH (list_set hp pos parent) newitem pp) as (h' & Hrun & Hheap & Hlen & Hincl).
      * lia.
      * rewrite length_list_set. lia.
      * exact (swapped_nodup_keys _ _ _ _ Hs Hnd).
      * exact Hex'.
      * exact Hch'.
      * exists h'. rewrite Hrun. split; [reflexivity |]. split; [exact Hheap |].
        split; [rewrite Hlen; apply length_list_set |].
        apply (incl_tran (swapped_incl _ _ _ _ Hs) Hincl).
    + exists (list_set hp pos newitem). split; [reflexivity |].
      split; [| split; [apply length_list_set | apply incl_refl]].
      apply (heap_except_heap _ pos); auto.
      intros pp' Hpp' x y Hy Hx.
      assert (pp' = pp) by (unfold child in *; lia). subst pp'.
      unfold Entry in *. rewrite HLpp in Hy. rewrite HLpos in Hx.
      inversion Hy; inversion Hx; subst. lia.
    + exfalso.
      apply (keys_distinct _ pos pp newitem parent Hnd HLpos HLpp); [lia | exact Hk].
Qed.

(** The loop of [_siftup] on distinct counters: no comparison raises, and
    the hole ends at a leaf. *)
Lemma siftup_loop_ok (fuel : nat) :
  forall hp dflt newitem pos,
    (length hp <= fuel + pos)%nat -> (pos < length hp)%nat ->
    NoDup (map fst (list_set hp pos newitem)) ->
    heap_except (list_set hp pos newitem) pos ->
    exists h' leaf,
      siftup_loop fuel hp dflt (length hp) pos = (h', Some leaf)
      /\ (leaf < length h')%nat /\ length h' = length hp
      /\ NoDup (map fst (list_set h' leaf newitem))
      /\ heap_except (list_set h' leaf newitem) leaf
      /\ (forall c, child leaf c -> le_at (list_set h' leaf newitem) leaf c)
      /\ incl (list_set hp pos newitem) (list_set h' leaf newitem).
Proof.
  induction fuel as [| fuel IH]; intros hp dflt newitem pos Hfuel Hpos Hnd Hex; [lia |].
  rewrite siftup_loop_S.
  destruct (2 * pos + 1 <? length hp)%nat eqn:Hc.
  2: { apply Nat.ltb_ge in Hc. exists hp, pos. split; [reflexivity |].
       split; [exact Hpos |]. split; [reflexivity |]. split; [exact Hnd |].
       split; [exact Hex |]. split; [| apply incl_refl].
       intros c Hch x y Hy Hx. exfalso.
       pose proof (nth_error_lt _ _ _ Hx) as Hlen.
       rewrite length_list_set in Hlen. unfold child in Hch. lia. }
  apply Nat.ltb_lt in Hc.
  set (left := (2 * pos + 1)%nat) in *.
  set (L := list_set hp pos newitem) in *.
  assert (Hleft : child pos left) by (unfold child, left; lia).
  (* the child that goes up *)
  assert (Hpick :
    exists c0 y,
      (if (left + 1 <? length hp)%nat
       then match entry_lt (nth left hp dflt) (nth (left + 1) hp dflt) with
            | None => None
            | Some lt => Some (if lt then left else (left + 1)%nat)
            end
       else Some left) = Some c0
      /\ child pos c0 /\ nth_error hp c0 = Some y /\ nth c0 hp dflt = y
      /\ (forall c, child pos c -> le_at L c0 c)).
  { destruct (nth_error hp left) as [yl |] eqn:Hyl;
      [| apply nth_error_None in Hyl; lia].
    assert (HLl : nth_error L left = Some yl).
    { unfold L. rewrite nth_error_list_set_neq by (unfold left; lia). exact Hyl. }
    destruct (left + 1 <? length hp)%nat eqn:Hr.
    - apply Nat.ltb_lt in Hr.
      destruct (nth_error hp (left + 1)) as [yr |] eqn:Hyr;
        [| apply nth_error_None in Hyr; lia].
      assert (HLr : nth_error L (left + 1) = Some yr).
      { unfold L. rewrite nth_error_list_set_neq by (unfold left; lia). exact Hyr. }
      rewrite (nth_error_nth hp left dflt Hyl), (nth_error_nth hp (left + 1) dflt Hyr).
      destruct (entry_lt_cases yl yr) as [[E Hk] | [[E Hk] | [E Hk]]]; rewrite E.
      + exists left, yl. repeat split; auto using nth_error_nth.
        intros c Hch x y Hy Hx.
        rewrite HLl in Hy. inversion Hy; subst y.
        destruct Hch as [-> | ->].
        * fold left in Hx. rewrite HLl in Hx. inversion Hx. lia.
        * replace (2 * pos + 2)%nat with (left + 1)%nat in Hx by (unfold left; lia).
          rewrite HLr in Hx. inversion Hx; subst. lia.
      + exists (left + 1)%nat, yr. repeat split; auto using nth_error_nth.
        * unfold child, left. lia.
        * intros c Hch x y Hy Hx.
          rewrite HLr in Hy. inversion Hy; subst y.
          destruct Hch as [-> | ->].
          -- fold left in Hx. rewrite HLl in Hx. inversion Hx; subst. lia.
          -- replace (2 * pos + 2)%nat with (left + 1)%nat in Hx by (unfold left; lia).
             rewrite HLr in Hx. inversion Hx; subst. lia.
      + exfalso.
        apply (keys_distinct L left (left + 1) yl yr Hnd HLl HLr); [lia | exact Hk].
    - apply Nat.ltb_ge in Hr.
      exists left, yl. repeat split; auto using nth_error_nth.
      intros c Hch x y Hy Hx.
      rewrite HLl in Hy. inversion Hy; subst y.
      destruct Hch as [-> | ->].
      + fold left in Hx. rewrite HLl in Hx. inversion Hx. lia.
      + exfalso.
        pose proof (nth_error_lt _ _ _ Hx) as Hlen.
        unfold L in Hlen. rewrite length_list_set in Hlen. unfold left in Hr. lia. }
  destruct Hpick as (c0 & y & Hsel & Hc0 & Hy & Hnth & Hmin).
  rewrite Hsel, Hnth.
  assert (Hs : swapped L (list_set (list_set hp pos y) c0 newitem) pos c0).
  { apply swapped_list_set; auto. unfold child in Hc0. lia. }
  pose proof (heap_except_down L _ pos c0 Hex Hc0 Hmin Hs) as Hex'.
  assert (Hlen0 : length (list_set hp pos y) = length hp) by apply length_list_set.
  destruct (IH (list_set hp pos y) dflt newitem c0) as (h' & leaf & Hrun & Hleaf & Hlen & R).
  - rewrite Hlen0. unfold child in Hc0. lia.
  - rewrite Hlen0. exact (nth_error_lt _ _ _ Hy).
  - exact (swapped_nodup_keys _ _ _ _ Hs Hnd).
  - exact Hex'.
  - rewrite Hlen0 in Hrun. exists h', leaf. rewrite Hrun. split; [reflexivity |].
    destruct R as (R1 & R2 & R3 & R4).
    split; [exact Hleaf |]. split; [lia |]. split; [exact R1 |]. split; [exact R2 |].
    split; [exact R3 |].
    apply (incl_tran (swapped_incl _ _ _ _ Hs) R4).
Qed.

(** The first entry of a heap is a lowest one. *)
Lemma heap_root_min (L : list Entry) (m : Entry) :
  is_heap L -> nth_error L 0 = Some m -> forall e, In e L -> fst m <= fst e.
Proof.
  intros Hh Hm.
  assert (Hall : forall i e, nth_error L i = Some e -> fst m <= fst e).
  { induction i as [i IH] using (well_founded_induction lt_wf). intros e He.
    destruct i as [| i'].
    - rewrite Hm in He. inversion He. lia.
    - pose proof (parent_child (S i') ltac:(lia)) as Hpp.
      set (pp := ((S i' - 1) / 2)%nat) in *.
      assert (Hlt : (pp < S i')%nat) by (unfold child in Hpp; lia).
      destruct (nth_error L pp) as [y |] eqn:Hy.
      + specialize (IH pp Hlt y Hy).
        pose proof (proj1 (is_heap_spec L) Hh pp (S i') Hpp e y Hy He). lia.
      + apply nth_error_None in Hy. pose proof (nth_error_lt _ _ _ He). lia. }
  intros e He. destruct (In_nth_error _ _ He) as [i Hi]. exact (Hall i e Hi).
Qed.

(** [heappush] on distinct counters. *)
Lemma heapq_heappush_ok (h : list Entry) (item : Entry) :
  is_heap h -> NoDup (map fst (h ++ [item])) ->
  exists h',
    heapq_heappush h item = (h', Returned tt)
    /\ is_heap h' /\ Permutation (h ++ [item]) h'.
Proof.
  intros Hh Hnd.
  assert (Hitem : nth_error (h ++ [item]) (length h) = Some item).
  { rewrite nth_error_app2 by lia. rewrite Nat.sub_diag. reflexivity. }
  assert (Hset : list_set (h ++ [item]) (length h) item = h ++ [item]).
  { apply list_set_same, Hitem. }
  assert (Hlen : length (h ++ [item]) = S (length h)).
  { rewrite length_app. simpl. lia. }
  assert (Hout : forall c x, (length h < c)%nat -> nth_error (h ++ [item]) c = Some x -> False).
  { intros c x Hc Hx. pose proof (nth_error_lt _ _ _ Hx). lia. }
  destruct (siftdown_loop_ok (length h) (h ++ [item]) item (length h))
    as (h' & Hrun & Hheap & Hlen' & Hincl).
  - lia.
  - lia.
  - rewrite Hset. exact Hnd.
  - rewrite Hset. split.
    + intros p c Hc Hp1 Hc1 x y Hy Hx.
      pose proof (nth_error_lt _ _ _ Hy). pose proof (nth_error_lt _ _ _ Hx).
      rewrite nth_error_app1 in Hy, Hx by lia.
      exact (proj1 (is_heap_spec h) Hh p c Hc x y Hy Hx).
    + intros pp c _ Hc x y _ Hx. exfalso.
      apply (Hout c x); [unfold child in Hc; lia | exact Hx].
  - rewrite Hset. intros c Hc x y _ Hx. exfalso.
    apply (Hout c x); [unfold child in Hc; lia | exact Hx].
  - rewrite Hset in Hincl. exists h'. unfold heapq_heappush, heapq_siftdown.
    rewrite Hrun. split; [reflexivity |]. split; [exact Hheap |].
    apply incl_permutation; auto.
Qed.

Lemma heapq_heappop_snoc (first lastelt : Entry) (rest : list Entry) :
  heapq_heappop (first :: rest ++ [lastelt])
  = match heapq_siftup (lastelt :: rest) first 0 with
    | (h, true) => (h, Returned first)
    | (h, false) => (h, RaisedValueError)
    end.
Proof.
  unfold heapq_heappop.
  change (first :: rest ++ [lastelt]) with ((first :: rest) ++ [lastelt]).
  rewrite last_last, removelast_last. reflexivity.
Qed.

(** [heappop] on distinct counters. *)
Lemma heapq_heappop_ok (h : list Entry) :
  is_heap h -> NoDup (map fst h) -> h <> [] ->
  exists m h',
    heapq_heappop h = (h', Returned m)
    /\ nth_error h 0 = Some m /\ is_heap h' /\ Permutation h (m :: h').
Proof.
  intros Hh Hnd Hne. destruct h as [| first tl]; [contradiction |].
  destruct tl as [| t tl'].
  { exists first, []. repeat split; reflexivity. }
  assert (Hsnoc : exists rest lastelt, t :: tl' = rest ++ [lastelt]).
  { exists (removelast (t :: tl')), (last (t :: tl') first).
    apply app_removelast_last. discriminate. }
  destruct Hsnoc as (rest & lastelt & Htl). rewrite Htl in *. clear Htl t tl'.
  rewrite heapq_heappop_snoc. unfold heapq_siftup.
  set (hp := lastelt :: rest).
  assert (Hperm0 : Permutation (first :: rest ++ [lastelt]) (first :: hp)).
  { constructor. unfold hp. rewrite Permutation_app_comm. reflexivity. }
  assert (Hndhp : NoDup (map fst hp)).
  { pose proof (permutation_nodup_keys _ _ Hperm0 Hnd) as H. simpl in H.
    inversion H; assumption. }
  change (nth 0 hp first) with lastelt.
  assert (Hset : list_set hp 0 lastelt = hp) by reflexivity.
  destruct (siftup_loop_ok (length hp) hp first lastelt 0)
    as (h1 & leaf & Hrun & Hleaf & Hlen1 & Hnd1 & Hex1 & Hch1 & Hincl1).
  - lia.
  - simpl. lia.
  - rewrite Hset. exact Hndhp.
  - rewrite Hset. split.
    + intros p c Hc Hp1 Hc1 x y Hy Hx.
      destruct p as [| p']; [contradiction |]. destruct c as [| c']; [contradiction |].
      apply (proj1 (is_heap_spec _) Hh (S p') (S c') Hc x y).
      * simpl in Hy |- *. pose proof (nth_error_lt _ _ _ Hy).
        rewrite nth_error_app1 by lia. exact Hy.
      * simpl in Hx |- *. pose proof (nth_error_lt _ _ _ Hx).
        rewrite nth_error_app1 by lia. exact Hx.
    + intros pp c Hpp. exfalso. unfold child in Hpp. lia.
  - rewrite Hrun. rewrite Hset in Hincl1.
    set (L1 := list_set h1 leaf lastelt) in *.
    assert (HL1 : list_set L1 leaf lastelt = L1).
    { apply list_set_same. unfold L1. apply nth_error_list_set_eq, Hleaf. }
    assert (HlenL1 : length L1 = length hp).
    { unfold L1. rewrite length_list_set. exact Hlen1. }
    destruct (siftdown_loop_ok leaf L1 lastelt leaf)
      as (h2 & Hrun2 & Hheap2 & Hlen2 & Hincl2).
    + lia.
    + rewrite HlenL1. lia.
    + rewrite HL1. exact Hnd1.
    + rewrite HL1. exact Hex1.
    + rewrite HL1. exact Hch1.
    + unfold heapq_siftdown. rewrite Hrun2. rewrite HL1 in Hincl2.
      exists first, h2. split; [reflexivity |]. split; [reflexivity |].
      split; [exact Hheap2 |].
      rewrite Hperm0. constructor.
      apply incl_permutation; [exact Hndhp | lia |].
      exact (incl_tran Hincl1 Hincl2).
Qed.

Lemma same_stream_refl (s : TwitchBufferedOutputStream) :
  is_heap (q s) -> same_stream s s.
Proof. intro H. destruct s. repeat split; auto. Qed.

Lemma same_stream_counter (sF sA : TwitchBufferedOutputStream) :
  same_stream sF sA ->
  frame_counter sF = frame_counter sA /\ last_frame sF = last_frame sA.
Proof. intros (Hs & _). rewrite Hs. split; reflexivity. Qed.

Lemma buffered_tick_factors (s : TwitchBufferedOutputStream) (env : TickEnv) :
  buffered_tick s env
  = match pq_get_nowait (q s) with
    | Some (item, rest) => buffered_tick_from s (Some item) rest env
    | None => buffered_tick_from s None (q s) env
    end.
Proof.
  unfold buffered_tick, buffered_tick_from.
  destruct (pq_get_nowait (q s)) as [[item rest] |]; reflexivity.
Qed.

Lemma buffered_tick_from_queue (s : TwitchBufferedOutputStream) (qu : list Entry)
    (got : option Entry) (rest rest' : list Entry) (env : TickEnv) :
  snd (buffered_tick_from (set_queue s qu) got rest env)
  = snd (buffered_tick_from s got rest' env)
  /\ fst (buffered_tick_from (set_queue s qu) got rest env)
     = set_queue (fst (buffered_tick_from s got rest' env)) rest.
Proof.
  unfold buffered_tick_from, set_queue. simpl.
  destruct (send_frame _ _ _) as [[b res] fx].
  destruct (reschedule _ _ _) as [[nst started] | e0];
    destruct res as [[] | []]; simpl; auto.
Qed.

Lemma buffered_tick_from_rest (s : TwitchBufferedOutputStream) (got : option Entry)
    (rest : list Entry) (env : TickEnv) :
  q (fst (buffered_tick_from s got rest env)) = rest.
Proof.
  unfold buffered_tick_from.
  destruct (send_frame _ _ _) as [[b res] fx].
  destruct (reschedule _ _ _) as [[nst started] | e0];
    destruct res as [[] | []]; reflexivity.
Qed.

Lemma heapq_tick_refines (sF sA : TwitchBufferedOutputStream) (env : TickEnv) :
  same_stream sF sA -> NoDup (map fst (q sA)) ->
  exists sF',
    heapq_tick sF env = (sF', Some (snd (buffered_tick sA env)))
    /\ same_stream sF' (fst (buffered_tick sA env)).
Proof.
  intros (Hs & Hperm & Hheap) Hnd.
  assert (HndF : NoDup (map fst (q sF))).
  { exact (permutation_nodup_keys _ _ (Permutation_sym Hperm) Hnd). }
  rewrite buffered_tick_factors. unfold heapq_tick, queue_get_nowait.
  pose proof (pq_get_nowait_spec (q sA)) as Hspec.
  remember (q sA) as qa eqn:Hqa.
  destruct (pq_get_nowait qa) as [[m rest] |].
  - destruct Hspec as [HpA Hmin].
    assert (HneF : q sF <> []).
    { intro H0. rewrite H0 in Hperm. apply Permutation_nil in Hperm.
      rewrite Hperm in HpA. apply Permutation_nil in HpA. discriminate. }
    destruct (heapq_heappop_ok (q sF) Hheap HndF HneF)
      as (m' & h' & Hpop & Hroot & Hheap' & HpF).
    rewrite Hpop.
    assert (Hm'F : In m' (q sF)) by (apply (nth_error_In _ 0), Hroot).
    assert (HmA : In m qa).
    { apply (Permutation_in m (Permutation_sym HpA)). left. reflexivity. }
    assert (Heq : m' = m).
    { apply (keys_inj qa); auto.
      - apply (Permutation_in m' Hperm Hm'F).
      - pose proof (heap_root_min (q sF) m' Hheap Hroot m
                      (Permutation_in m (Permutation_sym Hperm) HmA)).
        pose proof (Hmin m' (Permutation_in m' Hperm Hm'F)). lia. }
    subst m'. rewrite Hs.
    destruct (buffered_tick_from_queue sF qa (Some m) rest h' env) as [E1 E2].
    rewrite E1, E2.
    pose proof (buffered_tick_from_rest sF (Some m) h' env) as Hq1.
    destruct (buffered_tick_from sF (Some m) h' env) as [s1 rep].
    cbn [fst snd] in *.
    exists s1. split; [reflexivity |].
    split; [| split].
    + destruct s1; reflexivity.
    + simpl. rewrite Hq1.
      apply (Permutation_cons_inv (a := m)).
      rewrite <- HpF, <- HpA. exact Hperm.
    + rewrite Hq1. exact Hheap'.
  - subst qa. rewrite Hspec in Hperm. apply Permutation_sym, Permutation_nil in Hperm.
    rewrite Hperm. cbn [heapq_heappop].
    remember (q sA) as qa eqn:Hqa. rewrite Hs.
    destruct (buffered_tick_from_queue sF qa None qa [] env) as [E1 E2].
    rewrite E1, E2.
    pose proof (buffered_tick_from_rest sF None [] env) as Hq1.
    destruct (buffered_tick_from sF None [] env) as [s1 rep].
    cbn [fst snd] in *.
    exists s1. split; [reflexivity |].
    split; [| split].
    + destruct s1. simpl in Hq1. subst. reflexivity.
    + simpl. rewrite Hq1, Hspec. constructor.
    + rewrite Hq1. reflexivity.
Qed.

Lemma heapq_send_frame_refines (sF sA : TwitchBufferedOutputStream) (f : Frame)
    (c : option Z) :
  same_stream sF sA ->
  NoDup (map fst (q (buffered_send_frame sA f c))) ->
  exists sF',
    heapq_send_frame sF f c = (sF', Returned tt)
    /\ same_stream sF' (buffered_send_frame sA f c).
Proof.
  intros (Hs & Hperm & Hheap) Hnd.
  remember (q sA) as qa eqn:Hqa.
  set (item := (match c with None => frame_counter sF | Some k => k end, f)).
  assert (Hq : q (buffered_send_frame sA f c) = qa ++ [item]).
  { rewrite Hs in *. destruct c; reflexivity. }
  rewrite Hq in Hnd.
  assert (HndF : NoDup (map fst (q sF ++ [item]))).
  { apply (permutation_nodup_keys (qa ++ [item])); [| exact Hnd].
    apply Permutation_app_tail, Permutation_sym, Hperm. }
  destruct (heapq_heappush_ok (q sF) item Hheap HndF) as (h' & Hpush & Hheap' & Hp').
  unfold heapq_send_frame, queue_put. fold item. rewrite Hpush.
  eexists. split; [reflexivity |].
  split; [| split].
  - rewrite Hs. destruct c; reflexivity.
  - rewrite Hq. destruct c; simpl; rewrite <- Hp'; apply Permutation_app_tail, Hperm.
  - destruct c; exact Hheap'.
Qed.

(** On pairwise distinct counters the library's queue never raises
    [ValueError] and the stream does on it what it does on the queue by
    contract. *)
Lemma heapq_run_refines (evs : list Event) :
  forall sF sA,
    same_stream sF sA ->
    NoDup (map fst (q sA ++ submitted_entries (frame_counter sA) evs)) ->
    exists sF',
      heapq_run evs sF = Some (sF', snd (buffered_run evs sA))
      /\ same_stream sF' (fst (buffered_run evs sA)).
Proof.
  induction evs as [| ev evs IH]; intros sF sA Hsim Hnd.
  - exists sF. split; [reflexivity | exact Hsim].
  - destruct ev as [f c | env].
    + rewrite buffered_run_cons_submit.
      assert (Hnd1 : NoDup (map fst (q (buffered_send_frame sA f c)
                       ++ submitted_entries (frame_counter (buffered_send_frame sA f c)) evs))).
      { destruct c as [k |]; simpl in Hnd |- *; unfold pq_put;
          rewrite <- app_assoc; exact Hnd. }
      assert (Hnd0 : NoDup (map fst (q (buffered_send_frame sA f c)))).
      { rewrite map_app in Hnd1. exact (NoDup_app_remove_r _ _ Hnd1). }
      destruct (heapq_send_frame_refines sF sA f c Hsim Hnd0) as (sF1 & Hput & Hsim1).
      destruct (IH sF1 _ Hsim1 Hnd1) as (sF' & Hrun & Hsim').
      exists sF'. cbn [heapq_run]. rewrite Hput. split; [exact Hrun | exact Hsim'].
    + rewrite buffered_run_cons_tick. cbn [fst snd].
      change (submitted_entries (frame_counter sA) (Tick env :: evs))
        with (submitted_entries (frame_counter sA) evs) in Hnd.
      assert (Hnd0 : NoDup (map fst (q sA))).
      { rewrite map_app in Hnd. exact (NoDup_app_remove_r _ _ Hnd). }
      destruct (heapq_tick_refines sF sA env Hsim Hnd0) as (sF1 & Htick & Hsim1).
      destruct (buffered_tick_view sA env) as [Hc V]. cbv zeta in Hc, V.
      assert (Hnd1 : NoDup (map fst (q (fst (buffered_tick sA env))
                       ++ submitted_entries (frame_counter (fst (buffered_tick sA env))) evs))).
      { rewrite Hc. pose proof (pq_get_nowait_spec (q sA)) as Hspec.
        destruct (pq_get_nowait (q sA)) as [[m rest] |].
        - destruct V as (_ & _ & _ & Hq'). rewrite Hq'. destruct Hspec as [Hp _].
          assert (Hp' : Permutation (q sA ++ submitted_entries (frame_counter sA) evs)
                          (m :: rest ++ submitted_entries (frame_counter sA) evs)).
          { rewrite Hp. reflexivity. }
          pose proof (permutation_nodup_keys _ _ Hp' Hnd) as H. simpl in H.
          inversion H; assumption.
        - destruct V as (_ & _ & _ & Hq'). rewrite Hq'. exact Hnd. }
      destruct (IH sF1 _ Hsim1 Hnd1) as (sF' & Hrun & Hsim').
      exists sF'. cbn [heapq_run]. rewrite Htick, Hrun. split; [reflexivity | exact Hsim'].
Qed.

Lemma buffered_tick_from_view (s : TwitchBufferedOutputStream) (got : option Entry)
    (rest : list Entry) (env : TickEnv) :
  let r := buffered_tick_from s got rest env in
  let frame := match got with
               | Some item => snd item
               | None => last_frame s
               end in
  rp_popped (snd r) = got /\ rp_frame (snd r) = frame
  /\ last_frame (fst r) = frame /\ q (fst r) = rest
  /\ frame_counter (fst r) = frame_counter s.
Proof.
  unfold buffered_tick_from.
  destruct (send_frame _ _ _) as [[b res] fx].
  destruct (reschedule _ _ _) as [[nst started] | e0];
    destruct res as [[] | []]; simpl; auto.
Qed.

Lemma submitted_entries_ticks (c : Z) (envs : list TickEnv) :
  submitted_entries c (map Tick envs) = [].
Proof. induction envs as [| env envs IH]; [reflexivity | exact IH]. Qed.

(** In every execution each entry that was in the queue or was submitted
    is, at the end, either popped or still in the queue, once. *)
Lemma buffered_run_permutation (evs : list Event) :
  forall s,
    let r := buffered_run evs s in
    Permutation (q s ++ submitted_entries (frame_counter s) evs)
                (popped_entries (snd r) ++ q (fst r))
    /\ frame_counter (fst r) = frame_counter s + Z.of_nat (auto_submissions evs).
Proof.
  induction evs as [| ev evs IH]; intros s; cbv zeta.
  - simpl. rewrite app_nil_r. split; [reflexivity | lia].
  - destruct ev as [f [k |] | env].
    + rewrite buffered_run_cons_submit.
      destruct (IH (buffered_send_frame s f (Some k))) as [IHp IHc]. cbv zeta in *.
      simpl in IHp, IHc. unfold pq_put in IHp. rewrite <- app_assoc in IHp.
      split; [exact IHp | exact IHc].
    + rewrite buffered_run_cons_submit.
      destruct (IH (buffered_send_frame s f None)) as [IHp IHc]. cbv zeta in *.
      simpl in IHp, IHc. unfold pq_put in IHp. rewrite <- app_assoc in IHp.
      split; [exact IHp |].
      etransitivity; [exact IHc |]. unfold auto_submissions. simpl length. lia.
    + rewrite buffered_run_cons_tick. cbn [fst snd].
      destruct (buffered_tick_view s env) as [Hc V]. cbv zeta in Hc, V.
      destruct (IH (fst (buffered_tick s env))) as [IHp IHc]. cbv zeta in *.
      rewrite Hc in IHp, IHc. rewrite popped_entries_cons.
      change (submitted_entries (frame_counter s) (Tick env :: evs))
        with (submitted_entries (frame_counter s) evs).
      change (auto_submissions (Tick env :: evs)) with (auto_submissions evs).
      split; [| exact IHc].
      pose proof (pq_get_nowait_spec (q s)) as Hspec.
      destruct (pq_get_nowait (q s)) as [[m rest] |].
      * destruct V as (Hpop & _ & _ & Hq'). destruct Hspec as [Hperm _].
        rewrite Hpop. rewrite Hq' in IHp. rewrite Hperm. simpl.
        constructor. exact IHp.
      * destruct V as (Hpop & _ & _ & Hq'). rewrite Hpop. rewrite Hq' in IHp.
        exact IHp.
Qed.

Lemma buffered_run_app (evs1 evs2 : list Event) :
  forall s,
    buffered_run (evs1 ++ evs2) s
    = (fst (buffered_run evs2 (fst (buffered_run evs1 s))),
       snd (buffered_run evs1 s) ++ snd (buffered_run evs2 (fst (buffered_run evs1 s)))).
Proof.
  induction evs1 as [| ev evs1 IH]; intros s.
  - simpl. destruct (buffered_run evs2 s). reflexivity.
  - destruct ev as [f c | env].
    + rewrite <- app_comm_cons, !buffered_run_cons_submit. apply IH.
    + rewrite <- app_comm_cons, !buffered_run_cons_tick. rewrite IH. reflexivity.
Qed.

Lemma popped_entries_app (l1 l2 : list (TickEnv * Report)) :
  popped_entries (l1 ++ l2) = popped_entries l1 ++ popped_entries l2.
Proof. unfold popped_entries. apply flat_map_app. Qed.

Lemma emitted_frames_app (l1 l2 : list (TickEnv * Report)) :
  emitted_frames (l1 ++ l2) = emitted_frames l1 ++ emitted_frames l2.
Proof. unfold emitted_frames. apply map_app. Qed.

Lemma buffered_run_submits (subs : list Event) :
  forall s, forallb is_submit subs = true ->
    let r := buffered_run subs s in
    snd r = []
    /\ q (fst r) = q s ++ submitted_entries (frame_counter s) subs
    /\ length (submitted_entries (frame_counter s) subs) = length subs.
Proof.
  induction subs as [| ev subs IH]; intros s Hall; cbv zeta.
  - simpl. rewrite app_nil_r. auto.
  - destruct ev as [f c | env]; [| discriminate]. simpl in Hall.
    rewrite buffered_run_cons_submit.
    destruct (IH (buffered_send_frame s f c) Hall) as (H1 & H2 & H3). cbv zeta in *.
    rewrite H1, H2.
    destruct c as [k |]; simpl in *; unfold pq_put; rewrite <- app_assoc; auto.
Qed.

Lemma submitted_entries_app_ticks (evs : list Event) (envs : list TickEnv) :
  forall c, submitted_entries c (evs ++ map Tick envs) = submitted_entries c evs.
Proof.
  induction evs as [| ev evs IH]; intro c.
  - apply submitted_entries_ticks.
  - destruct ev as [f [k |] | env]; simpl; rewrite ?IH; reflexivity.
Qed.

(** An execution on pairwise distinct counters, on the library's queue: it
    runs to its end and is the execution on the queue by contract. *)
Lemma heapq_run_distinct (evs : list Event) (s : TwitchBufferedOutputStream) :
  is_heap (q s) ->
  NoDup (map fst (q s ++ submitted_entries (frame_counter s) evs)) ->
  exists s',
    heapq_run evs s = Some (s', snd (buffered_run evs s))
    /\ same_stream s' (fst (buffered_run evs s))
    /\ NoDup (map fst (q s')).
Proof.
  intros Hheap Hnd.
  destruct (heapq_run_refines evs s s (same_stream_refl s Hheap) Hnd) as (s' & Hrun & Hsim).
  exists s'. split; [exact Hrun |]. split; [exact Hsim |].
  destruct Hsim as (_ & Hperm & _).
  destruct (buffered_run_permutation evs s) as [Hcons _]. cbv zeta in Hcons.
  apply (permutation_nodup_keys _ _ Hcons) in Hnd.
  rewrite map_app in Hnd. apply NoDup_app_remove_l in Hnd.
  exact (permutation_nodup_keys _ _ (Permutation_sym Hperm) Hnd).
Qed.

(** The numbers 2, 0, 1 on the queue by contract. *)
Lemma buffered_run_2_0_1 (s0 : TwitchBufferedOutputStream) (f0 f1 f2 : Frame)
    (e1 e2 e3 : TickEnv) :
  q s0 = [] ->
  let log := snd (buffered_run
                    [Submit f2 (Some 2); Submit f0 (Some 0); Submit f1 (Some 1);
                     Tick e1; Tick e2; Tick e3] s0) in
  popped_numbers log = [0; 1; 2] /\ emitted_frames log = [f0; f1; f2].
Proof.
  intros Hq0 log. subst log.
  rewrite !buffered_run_cons_submit.
  set (s3 := buffered_send_frame _ f1 (Some 1)).
  assert (Hq3 : q s3 = [(2, f2); (0, f0); (1, f1)]).
  { subst s3. simpl. rewrite Hq0. reflexivity. }
  clearbody s3.
  rewrite !buffered_run_cons_tick. cbn [snd buffered_run].
  unfold popped_numbers, emitted_frames. rewrite !popped_entries_cons. cbn [map snd].
  destruct (buffered_tick_view s3 e1) as [_ V1]. cbv zeta in V1.
  rewrite Hq3 in V1. simpl in V1. destruct V1 as (P1 & F1 & _ & Q1).
  set (s4 := fst (buffered_tick s3 e1)) in *.
  destruct (buffered_tick_view s4 e2) as [_ V2]. cbv zeta in V2.
  rewrite Q1 in V2. simpl in V2. destruct V2 as (P2 & F2 & _ & Q2).
  set (s5 := fst (buffered_tick s4 e2)) in *.
  destruct (buffered_tick_view s5 e3) as [_ V3]. cbv zeta in V3.
  rewrite Q2 in V3. simpl in V3. destruct V3 as (P3 & F3 & _ & Q3).
  rewrite P1, P2, P3, F1, F2, F3. split; reflexivity.
Qed.

(** C2 (as amended): on the queue of the standard library, as long as the
    sequence numbers are pairwise distinct, a tick that finds the queue
    non-empty pops the entry whose sequence number is the minimum of those
    present and hands its frame to the sink; the queue stays an ordered heap
    with distinct numbers through every execution that submits pairwise
    distinct numbers, so this holds at each of its ticks; frames submitted
    under pairwise distinct numbers before the first tick are popped and
    emitted in ascending order of their numbers, as are the entries of any
    ordered queue; and the numbers 2, 0, 1 submitted in that order are
    emitted in the order 0, 1, 2. *)
Theorem buffered_tick_pops_minimum :
  (forall s env,
     q s <> [] -> is_heap (q s) -> NoDup (map fst (q s)) ->
     exists s' rep e,
       heapq_tick s env = (s', Some rep)
       /\ rp_popped rep = Some e
       /\ In e (q s)
       /\ (forall e', In e' (q s) -> e' <> e -> fst e < fst e')
       /\ rp_frame rep = snd e
       /\ Permutation (q s) (e :: q s')
       /\ is_heap (q s') /\ NoDup (map fst (q s')))
  /\ (forall evs s,
        is_heap (q s) ->
        NoDup (map fst (q s ++ submitted_entries (frame_counter s) evs)) ->
        exists s' log,
          heapq_run evs s = Some (s', log)
          /\ is_heap (q s') /\ NoDup (map fst (q s')))
  /\ (forall subs envs s,
        q s = [] ->
        forallb is_submit subs = true ->
        NoDup (map fst (submitted_entries (frame_counter s) subs)) ->
        length envs = length subs ->
        exists s' log,
          heapq_run (subs ++ map Tick envs) s = Some (s', log)
          /\ Permutation (popped_entries log) (submitted_entries (frame_counter s) subs)
          /\ Sorted Z.le (popped_numbers log)
          /\ emitted_frames log = map snd (popped_entries log)
          /\ q s' = [])
  /\ (forall s envs,
        length envs = length (q s) -> is_heap (q s) -> NoDup (map fst (q s)) ->
        exists s' log,
          heapq_run (map Tick envs) s = Some (s', log)
          /\ Permutation (popped_entries log) (q s)
          /\ Sorted Z.le (popped_numbers log)
          /\ emitted_frames log = map snd (popped_entries log)
          /\ q s' = [])
  /\ (forall w h rate f0 f1 f2 e1 e2 e3,
        let s0 := fst (fst (buffered_init w h rate)) in
        exists s' log,
          heapq_run [Submit f2 (Some 2); Submit f0 (Some 0); Submit f1 (Some 1);
                     Tick e1; Tick e2; Tick e3] s0 = Some (s', log)
          /\ popped_numbers log = [0; 1; 2] /\ emitted_frames log = [f0; f1; f2]).
Proof.
  split; [| split; [| split; [| split]]].
  - intros s env Hne Hheap Hnd.
    destruct (heapq_tick_refines s s env (same_stream_refl s Hheap) Hnd)
      as (s' & Htick & (_ & Hperm' & Hheap')).
    destruct (buffered_tick_view s env) as [_ Hview]. cbv zeta in Hview.
    pose proof (pq_get_nowait_spec (q s)) as Hspec.
    destruct (pq_get_nowait (q s)) as [[m rest] |]; [| contradiction].
    destruct Hview as (Hpop & Hfr & _ & Hq). destruct Hspec as [Hperm Hmin].
    assert (Hm : In m (q s)).
    { apply (Permutation_in m (Permutation_sym Hperm)). left. reflexivity. }
    assert (Hperm2 : Permutation (q s) (m :: q s')).
    { rewrite Hperm. constructor. rewrite Hperm', Hq. reflexivity. }
    exists s', (snd (buffered_tick s env)), m.
    split; [exact Htick |]. split; [exact Hpop |]. split; [exact Hm |].
    split; [| split; [exact Hfr | split; [exact Hperm2 | split; [exact Hheap' |]]]].
    + intros e' He' Hne'. specialize (Hmin e' He').
      destruct (Z.eq_dec (fst m) (fst e')) as [Heq | Hneq]; [| lia].
      exfalso. apply Hne'. symmetry. exact (keys_inj (q s) m e' Hnd Hm He' Heq).
    + pose proof (permutation_nodup_keys _ _ Hperm2 Hnd) as H. simpl in H.
      inversion H; assumption.
  - intros evs s Hheap Hnd.
    destruct (heapq_run_distinct evs s Hheap Hnd) as (s' & Hrun & (_ & _ & Hheap') & Hnd').
    exists s', (snd (buffered_run evs s)). auto.
  - intros subs envs s Hq Hsub Hnd Hlen.
    destruct (heapq_run_distinct (subs ++ map Tick envs) s) as (s' & Hrun & (_ & Hperm & _) & _).
    + rewrite Hq. reflexivity.
    + rewrite Hq, submitted_entries_app_ticks. exact Hnd.
    + destruct (buffered_run_submits subs s Hsub) as (H1 & H2 & H3). cbv zeta in *.
      rewrite Hq in H2. cbn [app] in H2.
      assert (Hlen' : length envs = length (q (fst (buffered_run subs s)))).
      { rewrite H2, H3. exact Hlen. }
      destruct (buffered_run_drains_sorted envs _ Hlen') as (D1 & D2 & D3 & D4).
      cbv zeta in *.
      rewrite buffered_run_app in Hrun, Hperm. cbn [fst snd] in Hrun, Hperm.
      rewrite H1 in Hrun. cbn [app] in Hrun.
      eexists. eexists. split; [exact Hrun |].
      split; [rewrite <- H2; exact D1 |]. split; [exact D2 |]. split; [exact D3 |].
      rewrite D4 in Hperm. apply Permutation_sym, Permutation_nil in Hperm. exact Hperm.
  - intros s envs Hlen Hheap Hnd.
    assert (Hnd' : NoDup (map fst (q s ++ submitted_entries (frame_counter s) (map Tick envs)))).
    { rewrite submitted_entries_ticks, app_nil_r. exact Hnd. }
    destruct (heapq_run_distinct _ s Hheap Hnd') as (s' & Hrun & (_ & Hperm & _) & _).
    destruct (buffered_run_drains_sorted envs s Hlen) as (H1 & H2 & H3 & H4).
    cbv zeta in *.
    exists s', (snd (buffered_run (map Tick envs) s)).
    split; [exact Hrun |]. split; [exact H1 |]. split; [exact H2 |]. split; [exact H3 |].
    rewrite H4 in Hperm. apply Permutation_sym, Permutation_nil in Hperm. exact Hperm.
  - intros w h rate f0 f1 f2 e1 e2 e3 s0.
    set (evs := [Submit f2 (Some 2); Submit f0 (Some 0); Submit f1 (Some 1);
                 Tick e1; Tick e2; Tick e3]).
    assert (Hq0 : q s0 = []) by reflexivity.
    destruct (heapq_run_distinct evs s0) as (s' & Hrun & _).
    + rewrite Hq0. reflexivity.
    + rewrite Hq0. simpl.
      repeat constructor; simpl; intuition discriminate.
    + exists s', (snd (buffered_run evs s0)). split; [exact Hrun |].
      exact (buffered_run_2_0_1 s0 f0 f1 f2 e1 e2 e3 Hq0).
Qed.

Lemma buffered_tick_pops_minimum_witness :
  let f0 := mkFrame [1; 1; 3] [0; 0; 0]%Q in
  let f1 := mkFrame [1; 1; 3] [1 # 2; 1 # 2; 1 # 2]%Q in
  let f2 := np_ones 1 1 in
  let env := mkTickEnv 0 0 (mkSinkEnv None true) in
  let s := mkBuffered (mkStream 1 1 30 (Some O)) f2 None None 0
             [(0, f0); (2, f2); (1, f1)] in
  exists s' rep e,
    heapq_tick s env = (s', Some rep)
    /\ rp_popped rep = Some e
    /\ In e (q s)
    /\ (forall e', In e' (q s) -> e' <> e -> fst e < fst e')
    /\ rp_frame rep = snd e
    /\ Permutation (q s) (e :: q s')
    /\ is_heap (q s') /\ NoDup (map fst (q s')).
Proof.
  intros f0 f1 f2 env s.
  destruct buffered_tick_pops_minimum as (Htick & _).
  apply (Htick s env).
  - discriminate.
  - reflexivity.
  - simpl. repeat constructor; simpl; intuition discriminate.
Defined.

(** C2 (as stated) fails.  The numbers 1, 4, 4 are submitted in that order
    before the first tick: the three calls return and the queue holds the
    three entries, but the tick pops nothing.  [heappop] moves the last
    entry to the front and compares the two entries numbered 4 while it
    restores the order: [get_nowait] raises [ValueError], which ends the
    tick, and the entry numbered 1, the minimum, is in the queue no more. *)
Lemma heapq_tied_numbers_counterexample :
  let a := mkFrame [1; 1; 3] [0; 0; 0]%Q in
  let b := mkFrame [1; 1; 3] [1 # 2; 1 # 2; 1 # 2]%Q in
  let c := np_ones 1 1 in
  let env := mkTickEnv 0 0 (mkSinkEnv None true) in
  let s0 := fst (fst (buffered_init 1 1 30)) in
  let evs := [Submit a (Some 1); Submit b (Some 4); Submit c (Some 4)] in
  exists s3,
    heapq_run evs s0 = Some (s3, [])
    /\ q s3 = [(1, a); (4, b); (4, c)]
    /\ is_heap (q s3)
    /\ heapq_tick s3 env = (set_queue s3 [(4, b); (4, c)], None)
    /\ heapq_run (evs ++ [Tick env]) s0 = None.
Proof.
  intros a b c env s0 evs. eexists.
  split; [reflexivity |]. repeat split; reflexivity.
Qed.

Lemma rp_frame_candidate (s : TwitchBufferedOutputStream) (env : TickEnv) :
  rp_frame (snd (buffered_tick s env)) = candidate s.
Proof.
  destruct (buffered_tick_view s env) as [_ V]. cbv zeta in V. unfold candidate.
  destruct (pq_get_nowait (q s)) as [[item rest] |]; tauto.
Qed.

(** A tick on a launched sink with a candidate of the configured shape, in
    full. *)
Lemma buffered_tick_unfold (s : TwitchBufferedOutputStream) (p : Proc) (env : TickEnv) :
  pipe (base s) = Some p ->
  shape (candidate s) = [height (base s); width (base s); 3] ->
  let dead := truthy (poll (sink_env env)) in
  let b1 := if dead then set_pipe (base s) (Some (S p)) else base s in
  let fx := if dead then [Sigint p; Popen (S p)] else [] in
  let p1 := if dead then S p else p in
  let wr := if write_ok (sink_env env)
            then [Write p1 (frame_tostring (candidate s))] else [] in
  let q' := match pq_get_nowait (q s) with
            | Some (_, rest) => rest
            | None => q s
            end in
  buffered_tick s env
  = match reschedule (fps (base s)) (next_send_time s) (start_time env) with
    | Ok sch =>
        (mkBuffered b1 (candidate s) (last_frame_time s) (fst sch) (frame_counter s) q',
         mkReport (option_map fst (pq_get_nowait (q s))) (candidate s) (Ok tt)
           (fx ++ wr) (snd sch))
    | Raise e =>
        (mkBuffered b1 (candidate s) (last_frame_time s) (next_send_time s)
           (frame_counter s) q',
         mkReport (option_map fst (pq_get_nowait (q s))) (candidate s) (Raise e)
           (fx ++ wr) [])
    end.
Proof.
  intros Hp Hshape. cbv zeta. unfold buffered_tick, candidate in *.
  apply shape_eqb_true in Hshape.
  destruct (pq_get_nowait (q s)) as [[item rest] |];
    rewrite (send_frame_unfold _ p _ _ Hp); cbv zeta; rewrite Hshape; simpl;
    destruct (write_ok (sink_env env)); destruct (truthy (poll (sink_env env)));
    simpl; destruct (reschedule _ _ _) as [[nst started] | e0]; simpl;
    rewrite ?app_nil_r; reflexivity.
Qed.

(** Ticks on an empty queue repeat the last frame and leave it in place. *)
Lemma buffered_run_empty_repeats (envs : list TickEnv) :
  forall s, q s = [] ->
    let r := buffered_run (map Tick envs) s in
    emitted_frames (snd r) = repeat (last_frame s) (length envs)
    /\ popped_entries (snd r) = []
    /\ last_frame (fst r) = last_frame s
    /\ q (fst r) = [].
Proof.
  induction envs as [| env envs IH]; intros s Hq; cbv zeta.
  - simpl. auto.
  - change (map Tick (env :: envs)) with (Tick env :: map Tick envs).
    rewrite buffered_run_cons_tick. cbn [fst snd].
    destruct (buffered_tick_view s env) as [_ V]. cbv zeta in V.
    rewrite Hq in V. simpl in V. destruct V as (Hpop & Hfr & Hlf & Hq').
    destruct (IH _ Hq') as (IHem & IHpop & IHlf & IHq). cbv zeta in *.
    rewrite popped_entries_cons, Hpop. unfold emitted_frames in *.
    cbn [map snd length repeat]. rewrite Hfr, IHem, Hlf.
    repeat split; auto. congruence.
Qed.

Lemma last_cons_default {A : Type} (l : list A) :
  forall a d, last (a :: l) d = last l a.
Proof.
  induction l as [| b l IH]; intros a d; [reflexivity |].
  change (last (a :: b :: l) d) with (last (b :: l) d).
  rewrite (IH b d), (IH b a). reflexivity.
Qed.

(** A tick on the library's queue that gets past [get_nowait] is the rest
    of the tick on what [get_nowait] answered. *)
Lemma heapq_tick_report (s s' : TwitchBufferedOutputStream) (env : TickEnv) (rep : Report) :
  heapq_tick s env = (s', Some rep) ->
  exists got rest, buffered_tick_from s got rest env = (s', rep).
Proof.
  unfold heapq_tick. destruct (queue_get_nowait (q s)) as [qu [item | |]].
  - destruct (buffered_tick_from s (Some item) qu env) as [s1 rep1] eqn:E.
    intro H. inversion H; subst. eauto.
  - destruct (buffered_tick_from s None qu env) as [s1 rep1] eqn:E.
    intro H. inversion H; subst. eauto.
  - discriminate.
Qed.

Lemma heapq_tick_latches_emitted (s s' : TwitchBufferedOutputStream) (env : TickEnv)
    (rep : Report) :
  heapq_tick s env = (s', Some rep) ->
  last_frame s' = rp_frame rep
  /\ match rp_popped rep with
     | Some item => rp_frame rep = snd item
     | None => rp_frame rep = last_frame s
     end.
Proof.
  intro H. destruct (heapq_tick_report _ _ _ _ H) as (got & rest & E).
  destruct (buffered_tick_from_view s got rest env) as (P & F & L & _).
  cbv zeta in P, F, L. rewrite E in P, F, L. cbn [fst snd] in *.
  rewrite P. split; [congruence |]. destruct got; exact F.
Qed.

Lemma heapq_send_frame_last_frame (s : TwitchBufferedOutputStream) (f : Frame)
    (c : option Z) :
  last_frame (fst (heapq_send_frame s f c)) = last_frame s.
Proof.
  unfold heapq_send_frame. destruct (queue_put _ _) as [qu out].
  destruct c; reflexivity.
Qed.

(** After an execution on the library's queue the last frame is the frame
    emitted last, or the initial one when no tick came. *)
Lemma heapq_last_frame_is_last_emitted (evs : list Event) :
  forall s s1 log,
    heapq_run evs s = Some (s1, log) ->
    last_frame s1 = last (emitted_frames log) (last_frame s).
Proof.
  induction evs as [| ev evs IH]; intros s s1 log Hrun.
  - simpl in Hrun. inversion Hrun; subst. reflexivity.
  - destruct ev as [f c | env]; cbn [heapq_run] in Hrun.
    + pose proof (heapq_send_frame_last_frame s f c) as Hlf.
      destruct (heapq_send_frame s f c) as [s2 [[] | |]]; try discriminate.
      cbn [fst] in Hlf. rewrite (IH _ _ _ Hrun), Hlf. reflexivity.
    + destruct (heapq_tick s env) as [s2 [rep |]] eqn:Ht; [| discriminate].
      destruct (heapq_run evs s2) as [[s3 log3] |] eqn:Hr; [| discriminate].
      inversion Hrun; subst.
      destruct (heapq_tick_latches_emitted _ _ _ _ Ht) as [Hlf _].
      unfold emitted_frames. cbn [map snd]. rewrite last_cons_default.
      rewrite (IH _ _ _ Hr), Hlf. reflexivity.
Qed.

(** Ticks on an empty queue, on the library's queue. *)
Lemma heapq_run_empty_repeats (envs : list TickEnv) (s : TwitchBufferedOutputStream) :
  q s = [] ->
  exists s' log,
    heapq_run (map Tick envs) s = Some (s', log)
    /\ emitted_frames log = repeat (last_frame s) (length envs)
    /\ popped_entries log = []
    /\ last_frame s' = last_frame s
    /\ q s' = [].
Proof.
  intro Hq.
  destruct (heapq_run_distinct (map Tick envs) s) as (s' & Hrun & Hsim & _).
  - rewrite Hq. reflexivity.
  - rewrite Hq, submitted_entries_ticks. constructor.
  - destruct (buffered_run_empty_repeats envs s Hq) as (H1 & H2 & H3 & H4).
    cbv zeta in *.
    destruct (same_stream_counter _ _ Hsim) as [_ Hlf].
    destruct Hsim as (_ & Hperm & _). rewrite H4 in Hperm.
    apply Permutation_sym, Permutation_nil in Hperm.
    exists s', (snd (buffered_run (map Tick envs) s)).
    repeat split; auto. congruence.
Qed.

(** C6: a tick that finds the queue empty hands the current last frame to
    the sink (and writes its bytes when the frame has the configured shape
    and the sink accepts them) and leaves the last frame unchanged; every
    tick leaves as last frame the frame it has emitted, which is the frame
    of the entry it popped if it popped one; so that after any execution N
    ticks in a row on an empty queue emit N times the frame emitted last
    before them, or the initial last frame when no tick came before; the
    last frame of a new stream is the all-ones frame of the configured
    shape. *)
Theorem buffered_empty_queue_repeats_last_frame :
  (forall s env, q s = [] ->
     exists s' rep,
       heapq_tick s env = (s', Some rep)
       /\ rp_popped rep = None
       /\ rp_frame rep = last_frame s
       /\ last_frame s' = last_frame s
       /\ q s' = [])
  /\ (forall s p env, q s = [] ->
        pipe (base s) = Some p ->
        shape (last_frame s) = [height (base s); width (base s); 3] ->
        write_ok (sink_env env) = true ->
        exists s' rep fx p1,
          heapq_tick s env = (s', Some rep)
          /\ rp_effects rep = fx ++ [Write p1 (frame_tostring (last_frame s))]
          /\ forall q0 bs, ~ In (Write q0 bs) fx)
  /\ (forall s env s' rep,
        heapq_tick s env = (s', Some rep) ->
        last_frame s' = rp_frame rep
        /\ match rp_popped rep with
           | Some item => rp_frame rep = snd item
           | None => rp_frame rep = last_frame s
           end)
  /\ (forall evs s s1 log envs,
        heapq_run evs s = Some (s1, log) ->
        q s1 = [] ->
        exists s2 log2,
          heapq_run (map Tick envs) s1 = Some (s2, log2)
          /\ emitted_frames log2
             = repeat (last (emitted_frames log) (last_frame s)) (length envs)
          /\ popped_entries log2 = []
          /\ last_frame s2 = last (emitted_frames log) (last_frame s))
  /\ (forall w h rate,
        let s0 := fst (fst (buffered_init w h rate)) in
        q s0 = []
        /\ last_frame s0 = mkFrame [h; w; 3] (repeat 1%Q (Z.to_nat (h * w * 3)))
        /\ shape (last_frame s0) = [height (base s0); width (base s0); 3]
        /\ length (data (last_frame s0)) = Z.to_nat (h * w * 3)
        /\ forall envs,
             exists s' log,
               heapq_run (map Tick envs) s0 = Some (s', log)
               /\ emitted_frames log
                  = repeat (mkFrame [h; w; 3] (repeat 1%Q (Z.to_nat (h * w * 3))))
                      (length envs)).
Proof.
  assert (Hempty : forall s env, q s = [] ->
            heapq_tick s env
            = (fst (buffered_tick s env), Some (snd (buffered_tick s env)))).
  { intros s env Hq. unfold heapq_tick, queue_get_nowait. rewrite Hq.
    cbn [heapq_heappop]. rewrite buffered_tick_factors, Hq. cbn [pq_get_nowait].
    destruct (buffered_tick_from s None [] env). reflexivity. }
  split; [| split; [| split; [| split]]].
  - intros s env Hq.
    destruct (buffered_tick_view s env) as [_ V]. cbv zeta in V.
    rewrite Hq in V. simpl in V.
    exists (fst (buffered_tick s env)), (snd (buffered_tick s env)).
    split; [apply Hempty, Hq | exact V].
  - intros s p env Hq Hp Hshape Hw.
    exists (fst (buffered_tick s env)), (snd (buffered_tick s env)).
    assert (Hc : candidate s = last_frame s).
    { unfold candidate. rewrite Hq. reflexivity. }
    rewrite <- Hc in Hshape.
    rewrite (Hempty s env Hq).
    rewrite (buffered_tick_unfold s p env Hp Hshape). cbv zeta.
    destruct (reschedule _ _ _) as [sch | e0]; cbn [snd rp_effects];
      rewrite Hw, Hc; (eexists; eexists; split; [reflexivity |]);
      (split; [reflexivity |]);
    apply no_write_in_reset_effects.
  - intros s env s' rep H. exact (heapq_tick_latches_emitted s s' env rep H).
  - intros evs s s1 log envs Hrun Hq.
    destruct (heapq_run_empty_repeats envs s1 Hq) as (s2 & log2 & H0 & H1 & H2 & H3 & _).
    pose proof (heapq_last_frame_is_last_emitted evs s s1 log Hrun) as Hlast.
    exists s2, log2. rewrite <- Hlast. auto.
  - intros w h rate s0. subst s0. simpl. repeat split.
    + apply repeat_length.
    + intro envs.
      destruct (heapq_run_empty_repeats envs
                  (mkBuffered (mkStream w h rate (Some O)) (np_ones h w) None None 0 [])
                  eq_refl) as (s' & log & H0 & H1 & _).
      exists s', log. split; [exact H0 | exact H1].
Qed.

Lemma buffered_empty_queue_repeats_last_frame_witness :
  let f := mkFrame [1; 2; 3] [0; 1 # 2; 1; 0; 1 # 2; 1]%Q in
  let env := mkTickEnv 0 0 (mkSinkEnv None true) in
  let s0 := fst (fst (buffered_init 2 1 30)) in
  exists s1 log s2 log2,
    heapq_run [Tick env; Submit f None; Tick env] s0 = Some (s1, log)
    /\ emitted_frames log = [np_ones 1 2; f]
    /\ heapq_run (map Tick [env; env; env]) s1 = Some (s2, log2)
    /\ emitted_frames log2 = [f; f; f].
Proof.
  intros f env s0.
  destruct buffered_empty_queue_repeats_last_frame as (_ & _ & _ & Hrun & _).
  assert (Hbefore : exists s1 log,
            heapq_run [Tick env; Submit f None; Tick env] s0 = Some (s1, log)
            /\ q s1 = [] /\ emitted_frames log = [np_ones 1 2; f]).
  { vm_compute. eexists. eexists. split; [reflexivity |]. split; reflexivity. }
  destruct Hbefore as (s1 & log & Hb & Hq & Hem).
  destruct (Hrun _ s0 s1 log [env; env; env] Hb Hq) as (s2 & log2 & H0 & H1 & _).
  exists s1, log, s2, log2.
  split; [exact Hb |]. split; [exact Hem |]. split; [exact H0 |].
  rewrite H1, Hem. reflexivity.
Defined.

(** An insertion, whether it returns or raises, leaves in the list every
    entry that was there. *)
Lemma siftdown_loop_keeps (fuel : nat) :
  forall hp newitem startpos pos e i,
    (pos < length hp)%nat -> i <> pos -> nth_error hp i = Some e ->
    In e (fst (siftdown_loop fuel hp newitem startpos pos)).
Proof.
  induction fuel as [| fuel IH]; intros hp newitem startpos pos e i Hpos Hi He.
  - simpl. apply (nth_error_In _ i). rewrite nth_error_list_set_neq by auto. exact He.
  - rewrite siftdown_loop_S.
    destruct (startpos <? pos)%nat eqn:Hp.
    2: { simpl. apply (nth_error_In _ i). rewrite nth_error_list_set_neq by auto. exact He. }
    apply Nat.ltb_lt in Hp.
    pose proof (parent_child pos ltac:(lia)) as Hpp.
    set (pp := ((pos - 1) / 2)%nat) in *.
    assert (Hlt : (pp < pos)%nat) by (unfold child in Hpp; lia).
    destruct (entry_lt newitem (nth pp hp newitem)) as [[|] |].
    + destruct (Nat.eq_dec i pp) as [-> | Hne].
      * apply (IH _ newitem startpos pp e pos).
        -- rewrite length_list_set. lia.
        -- lia.
        -- rewrite (nth_error_nth hp pp newitem He).
           apply nth_error_list_set_eq, Hpos.
      * apply (IH _ newitem startpos pp e i).
        -- rewrite length_list_set. lia.
        -- exact Hne.
        -- rewrite nth_error_list_set_neq by auto. exact He.
    + simpl. apply (nth_error_In _ i). rewrite nth_error_list_set_neq by auto. exact He.
    + simpl. apply (nth_error_In _ i). exact He.
Qed.

Lemma heapq_tick_returned (s : TwitchBufferedOutputStream) (env : TickEnv)
    (qu : list Entry) (item : Entry) :
  queue_get_nowait (q s) = (qu, Returned item) ->
  heapq_tick s env
  = (fst (buffered_tick_from s (Some item) qu env),
     Some (snd (buffered_tick_from s (Some item) qu env))).
Proof.
  intro H. unfold heapq_tick. rewrite H.
  destruct (buffered_tick_from s (Some item) qu env). reflexivity.
Qed.

(** C10 (as amended): an insertion never removes or replaces an entry
    already queued, whatever its number; two frames submitted under the same
    sequence number to an empty queue are both in the queue, although the
    second [send_frame] raises [ValueError] in the producer, and the next
    two ticks pop one of them each, in the order of submission, and hand its
    frame to the sink. *)
Theorem heapq_same_number_entries :
  (forall qu item e, In e qu -> In e (fst (queue_put qu item)))
  /\ (forall s f1 f2 k e1 e2,
        q s = [] ->
        let r1 := heapq_send_frame s f1 (Some k) in
        let r2 := heapq_send_frame (fst r1) f2 (Some k) in
        let t1 := heapq_tick (fst r2) e1 in
        let t2 := heapq_tick (fst t1) e2 in
        snd r1 = Returned tt
        /\ snd r2 = RaisedValueError
        /\ q (fst r2) = [(k, f1); (k, f2)]
        /\ (exists rep1 rep2,
              snd t1 = Some rep1
              /\ rp_popped rep1 = Some (k, f1) /\ rp_frame rep1 = f1
              /\ snd t2 = Some rep2
              /\ rp_popped rep2 = Some (k, f2) /\ rp_frame rep2 = f2)
        /\ q (fst t2) = []).
Proof.
  split.
  - intros qu item e He. unfold queue_put, heapq_heappush, heapq_siftdown.
    destruct (In_nth_error _ _ He) as [i Hi].
    pose proof (nth_error_lt _ _ _ Hi) as Hlt.
    pose proof (siftdown_loop_keeps (length qu) (qu ++ [item]) item 0 (length qu) e i) as Hk.
    destruct (siftdown_loop (length qu) (qu ++ [item]) item 0 (length qu)) as [h' [|]];
      apply Hk; try (rewrite length_app; simpl; lia); try lia;
      rewrite nth_error_app1 by lia; exact Hi.
  - intros s f1 f2 k e1 e2 Hq r1 r2 t1 t2.
    assert (Hr1 : r1 = (set_queue s [(k, f1)], Returned tt)).
    { subst r1. unfold heapq_send_frame. rewrite Hq. reflexivity. }
    assert (Hr2 : r2 = (set_queue s [(k, f1); (k, f2)], RaisedValueError)).
    { assert (E : entry_lt (k, f2) (k, f1) = None).
      { unfold entry_lt. cbn [fst]. rewrite Z.ltb_irrefl. reflexivity. }
      subst r2. rewrite Hr1.
      unfold heapq_send_frame, queue_put, heapq_heappush, heapq_siftdown.
      cbn [fst q set_queue length app]. rewrite siftdown_loop_S.
      change (nth ((1 - 1) / 2) [(k, f1); (k, f2)] (k, f2)) with (k, f1).
      rewrite E. reflexivity. }
    set (s2 := set_queue s [(k, f1); (k, f2)]) in *.
    assert (Ht1 : t1 = (fst (buffered_tick_from s2 (Some (k, f1)) [(k, f2)] e1),
                        Some (snd (buffered_tick_from s2 (Some (k, f1)) [(k, f2)] e1)))).
    { subst t1. rewrite Hr2. cbn [fst]. apply heapq_tick_returned. reflexivity. }
    destruct (buffered_tick_from_view s2 (Some (k, f1)) [(k, f2)] e1)
      as (P1 & F1 & _ & Q1 & _). cbv zeta in P1, F1, Q1.
    set (s3 := fst (buffered_tick_from s2 (Some (k, f1)) [(k, f2)] e1)) in *.
    assert (Ht2 : t2 = (fst (buffered_tick_from s3 (Some (k, f2)) [] e2),
                        Some (snd (buffered_tick_from s3 (Some (k, f2)) [] e2)))).
    { subst t2. rewrite Ht1. cbn [fst]. apply heapq_tick_returned.
      fold s3. rewrite Q1. reflexivity. }
    destruct (buffered_tick_from_view s3 (Some (k, f2)) [] e2)
      as (P2 & F2 & _ & Q2 & _). cbv zeta in P2, F2, Q2.
    rewrite Hr1, Hr2, Ht2. cbn [fst snd].
    split; [reflexivity |]. split; [reflexivity |]. split; [reflexivity |].
    split; [| exact Q2].
    rewrite Ht1. cbn [snd]. eexists. eexists.
    split; [reflexivity |]. split; [exact P1 |]. split; [exact F1 |].
    split; [reflexivity |]. split; [exact P2 | exact F2].
Qed.

Lemma heapq_same_number_entries_witness :
  let f1 := mkFrame [1; 1; 3] [0; 0; 0]%Q in
  let f2 := np_ones 1 1 in
  let env := mkTickEnv 0 0 (mkSinkEnv None true) in
  let s0 := fst (fst (buffered_init 1 1 30)) in
  let r1 := heapq_send_frame s0 f1 (Some 4) in
  let r2 := heapq_send_frame (fst r1) f2 (Some 4) in
  let t1 := heapq_tick (fst r2) env in
  let t2 := heapq_tick (fst t1) env in
  snd r1 = Returned tt
  /\ snd r2 = RaisedValueError
  /\ q (fst r2) = [(4, f1); (4, f2)]
  /\ (exists rep1 rep2,
        snd t1 = Some rep1
        /\ rp_popped rep1 = Some (4, f1) /\ rp_frame rep1 = f1
        /\ snd t2 = Some rep2
        /\ rp_popped rep2 = Some (4, f2) /\ rp_frame rep2 = f2)
  /\ q (fst t2) = [].
Proof.
  intros f1 f2 env s0.
  destruct heapq_same_number_entries as (_ & Hpair).
  exact (Hpair s0 f1 f2 4 env env eq_refl).
Defined.

(** C10 (as stated) fails.  A frame is submitted under the number 4 to a
    queue that holds the numbers 4, 7, 9 and 8.  [heappush] appends the new
    entry, moves the entry numbered 7 down into its place and then compares
    the new entry with the one numbered 4 at the front: [put] raises
    [ValueError] in the producer, the new entry is not in the queue and the
    entry numbered 7 is there twice. *)
Lemma heapq_put_tie_counterexample :
  let a := mkFrame [1; 1; 3] [0; 0; 0]%Q in
  let b := mkFrame [1; 1; 3] [1 # 2; 1 # 2; 1 # 2]%Q in
  let x := mkFrame [1; 1; 3] [1 # 4; 1 # 4; 1 # 4]%Q in
  let y := mkFrame [1; 1; 3] [3 # 4; 3 # 4; 3 # 4]%Q in
  let z := np_ones 1 1 in
  let s0 := fst (fst (buffered_init 1 1 30)) in
  exists s4,
    heapq_run [Submit a (Some 4); Submit x (Some 7); Submit y (Some 9); Submit z (Some 8)] s0
    = Some (s4, [])
    /\ q s4 = [(4, a); (7, x); (9, y); (8, z)]
    /\ heapq_send_frame s4 b (Some 4)
       = (set_queue s4 [(4, a); (7, x); (9, y); (8, z); (7, x)], RaisedValueError)
    /\ ~ In (4, b) [(4, a); (7, x); (9, y); (8, z); (7, x)].
Proof.
  intros a b x y z s0. eexists.
  split; [reflexivity |]. split; [reflexivity |]. split; [reflexivity |].
  simpl. intuition discriminate.
Qed.

(** ** [TwitchBufferedOutputStream]: rescheduling *)

Lemma reschedule_nonzero (rate : Q) (nst : option Q) (start : Q) :
  ~ rate == 0 ->
  reschedule rate nst start = Ok (next_schedule (fdiv 1 rate) nst start).
Proof. intro Hnz. unfold reschedule. rewrite (period_nonzero _ Hnz). reflexivity. Qed.

Lemma reschedule_ok_inv (rate : Q) (nst : option Q) (start : Q) (r : option Q * list Sched) :
  reschedule rate nst start = Ok r ->
  ~ rate == 0 /\ r = next_schedule (fdiv 1 rate) nst start.
Proof.
  unfold reschedule. destruct (period rate) as [step | e] eqn:Hp; [| discriminate].
  intro H. inversion H. destruct (period_ok_inv _ _ Hp) as [Hnz Hstep].
  subst step. auto.
Qed.

(** A tick that returns has run the rescheduling block; a tick that dies has
    not touched the schedule. *)
Lemma buffered_tick_schedule (s : TwitchBufferedOutputStream) (env : TickEnv) :
  let s' := fst (buffered_tick s env) in
  let rep := snd (buffered_tick s env) in
  fps (base s') = fps (base s)
  /\ match rp_result rep with
     | Ok _ =>
         ~ fps (base s) == 0
         /\ (next_send_time s', rp_started rep)
            = next_schedule (fdiv 1 (fps (base s))) (next_send_time s) (start_time env)
     | Raise _ => next_send_time s' = next_send_time s /\ rp_started rep = []
     end.
Proof.
  unfold buffered_tick.
  destruct (pq_get_nowait (q s)) as [[item rest] |];
    match goal with
    | |- context [send_frame ?b ?f ?e] =>
        destruct (send_frame_keeps_config b f e) as (_ & _ & Hfps & _);
        destruct (send_frame b f e) as [[b' res] fx]
    end;
    cbn [fst] in Hfps; rewrite Hfps;
    destruct (reschedule _ _ _) as [[nst started] | e0] eqn:Hsch;
    try (apply reschedule_ok_inv in Hsch; destruct Hsch as [Hnz Hsch]);
    destruct res as [[] | []]; simpl; auto.
Qed.



Lemma next_schedule_first (step start : Q) :
  next_schedule step None start = (Some (fadd start step), [Timer step]).
Proof. reflexivity. Qed.

Lemma next_schedule_later (step t start : Q) :
  let t' := fadd t step in
  let delay := fsub t' start in
  fst (next_schedule step (Some t) start) = Some t'
  /\ ((0 < delay)%Q -> snd (next_schedule step (Some t) start) = [Timer delay])
  /\ ((delay <= 0)%Q -> snd (next_schedule step (Some t) start) = [Thread]).
Proof.
  cbv zeta. unfold next_schedule.
  destruct (Qle_bool (fsub (fadd t step) start) 0) eqn:Hle; simpl.
  - apply Qle_bool_iff in Hle. repeat split; auto.
    intro Hpos. exfalso. exact (Qlt_not_le _ _ Hpos Hle).
  - repeat split; auto. intro Hle'. apply Qle_bool_iff in Hle'. congruence.
Qed.

Lemma completed_ticks_cons (x : TickEnv * Report) (log : list (TickEnv * Report)) :
  completed_ticks (x :: log)
  = if tick_completed x then x :: completed_ticks log else completed_ticks log.
Proof. reflexivity. Qed.

Lemma buffered_tick_from_schedule (s : TwitchBufferedOutputStream) (got : option Entry)
    (rest : list Entry) (env : TickEnv) :
  let s' := fst (buffered_tick_from s got rest env) in
  let rep := snd (buffered_tick_from s got rest env) in
  fps (base s') = fps (base s)
  /\ match rp_result rep with
     | Ok _ =>
         ~ fps (base s) == 0
         /\ (next_send_time s', rp_started rep)
            = next_schedule (fdiv 1 (fps (base s))) (next_send_time s) (start_time env)
     | Raise _ => next_send_time s' = next_send_time s /\ rp_started rep = []
     end.
Proof.
  unfold buffered_tick_from.
  match goal with
  | |- context [send_frame ?b ?f ?e] =>
      destruct (send_frame_keeps_config b f e) as (_ & _ & Hfps & _);
      destruct (send_frame b f e) as [[b' res] fx]
  end.
  cbn [fst] in Hfps. rewrite Hfps.
  destruct (reschedule _ _ _) as [[nst started] | e0] eqn:Hsch;
    try (apply reschedule_ok_inv in Hsch; destruct Hsch as [Hnz Hsch]);
    destruct res as [[] | []]; simpl; auto.
Qed.

(** A tick on the library's queue that gets past [get_nowait]: when it
    returns it has run the rescheduling block, when it dies it has not
    touched the schedule. *)
Lemma heapq_tick_schedule (s s' : TwitchBufferedOutputStream) (env : TickEnv)
    (rep : Report) :
  heapq_tick s env = (s', Some rep) ->
  fps (base s') = fps (base s)
  /\ match rp_result rep with
     | Ok _ =>
         ~ fps (base s) == 0
         /\ (next_send_time s', rp_started rep)
            = next_schedule (fdiv 1 (fps (base s))) (next_send_time s) (start_time env)
     | Raise _ => next_send_time s' = next_send_time s /\ rp_started rep = []
     end.
Proof.
  intro H. destruct (heapq_tick_report _ _ _ _ H) as (got & rest & E).
  pose proof (buffered_tick_from_schedule s got rest env) as Hsch.
  cbv zeta in Hsch. rewrite E in Hsch. exact Hsch.
Qed.

Lemma heapq_send_frame_keeps_schedule (s : TwitchBufferedOutputStream)
    (f : Frame) (c : option Z) :
  next_send_time (fst (heapq_send_frame s f c)) = next_send_time s
  /\ base (fst (heapq_send_frame s f c)) = base s.
Proof.
  unfold heapq_send_frame. destruct (queue_put _ _) as [qu out].
  destruct c; split; reflexivity.
Qed.

(** On the library's queue too, once [next_send_time] is set every
    completed tick adds [1/fps] to it, in double precision, and nothing else
    changes it. *)
Lemma heapq_next_send_time_accumulates (evs : list Event) :
  forall s t s' log,
    next_send_time s = Some t ->
    heapq_run evs s = Some (s', log) ->
    next_send_time s'
    = Some (Nat.iter (length (completed_ticks log))
              (fun u => fadd u (fdiv 1 (fps (base s)))) t).
Proof.
  induction evs as [| ev evs IH]; intros s t s' log Hs Hrun.
  - simpl in Hrun. inversion Hrun; subst. exact Hs.
  - destruct ev as [f c | env]; cbn [heapq_run] in Hrun.
    + destruct (heapq_send_frame_keeps_schedule s f c) as [Hn Hb].
      destruct (heapq_send_frame s f c) as [s1 [[] | |]]; try discriminate.
      cbn [fst] in Hn, Hb. rewrite Hs in Hn.
      rewrite (IH _ t _ _ Hn Hrun), Hb. reflexivity.
    + destruct (heapq_tick s env) as [s1 [rep |]] eqn:Ht; [| discriminate].
      destruct (heapq_run evs s1) as [[s2 log2] |] eqn:Hr; [| discriminate].
      inversion Hrun; subst.
      destruct (heapq_tick_schedule _ _ _ _ Ht) as [Hfps Hsch].
      rewrite completed_ticks_cons. unfold tick_completed at 1. cbn [snd].
      destruct (rp_result rep) as [[] | e].
      * destruct Hsch as [_ Hsch]. rewrite Hs in Hsch.
        destruct (next_schedule_later (fdiv 1 (fps (base s))) t (start_time env))
          as (Hfst & _).
        cbv zeta in Hfst. rewrite <- Hsch in Hfst. cbn [fst] in Hfst.
        rewrite (IH _ _ _ _ Hfst Hr), Hfps. cbn [length].
        rewrite Nat.iter_succ_r. reflexivity.
      * destruct Hsch as [Hn _]. rewrite Hs in Hn.
        rewrite (IH _ _ _ _ Hn Hr), Hfps. reflexivity.
Qed.

Lemma heapq_next_send_time_locked (evs : list Event) :
  forall s s' log,
    next_send_time s = None ->
    heapq_run evs s = Some (s', log) ->
    match completed_ticks log with
    | [] => next_send_time s' = None
    | (e0, _) :: rest =>
        next_send_time s'
        = Some (Nat.iter (S (length rest))
                  (fun u => fadd u (fdiv 1 (fps (base s)))) (start_time e0))
    end.
Proof.
  induction evs as [| ev evs IH]; intros s s' log Hs Hrun.
  - simpl in Hrun. inversion Hrun; subst. exact Hs.
  - destruct ev as [f c | env]; cbn [heapq_run] in Hrun.
    + destruct (heapq_send_frame_keeps_schedule s f c) as [Hn Hb].
      destruct (heapq_send_frame s f c) as [s1 [[] | |]]; try discriminate.
      cbn [fst] in Hn, Hb. rewrite Hs in Hn.
      specialize (IH _ _ _ Hn Hrun). rewrite Hb in IH. exact IH.
    + destruct (heapq_tick s env) as [s1 [rep |]] eqn:Ht; [| discriminate].
      destruct (heapq_run evs s1) as [[s2 log2] |] eqn:Hr; [| discriminate].
      inversion Hrun; subst.
      destruct (heapq_tick_schedule _ _ _ _ Ht) as [Hfps Hsch].
      rewrite completed_ticks_cons. unfold tick_completed at 1. cbn [snd].
      destruct (rp_result rep) as [[] | e].
      * destruct Hsch as [_ Hsch]. rewrite Hs, next_schedule_first in Hsch.
        assert (Hn : next_send_time s1
                     = Some (fadd (start_time env) (fdiv 1 (fps (base s)))))
          by congruence.
        rewrite (heapq_next_send_time_accumulates evs _ _ _ _ Hn Hr), Hfps.
        rewrite Nat.iter_succ_r. reflexivity.
      * destruct Hsch as [Hn _]. rewrite Hs in Hn.
        specialize (IH _ _ _ Hn Hr). rewrite Hfps in IH. exact IH.
Qed.

(** C1 (as amended): a completed tick that finds [next_send_time] set adds
    [1/fps] to it by one floating-point addition, takes as delay the new
    [next_send_time] minus the clock value read at the top of the tick (the
    clock is not read again), and starts a timer of that delay when it is
    positive (a thread at once otherwise); the first completed tick starts a
    timer of delay [1/fps] and sets [next_send_time] to its start time plus
    [1/fps]; hence after k completed ticks [next_send_time] is the first
    one's start time to which [1/fps] has been added k times in double
    precision, whatever the start times of the later ticks. *)
Theorem buffered_tick_drift_corrected :
  (forall s env t s' rep,
     next_send_time s = Some t ->
     heapq_tick s env = (s', Some rep) ->
     rp_result rep = Ok tt ->
     let t' := fadd t (fdiv 1 (fps (base s))) in
     let delay := fsub t' (start_time env) in
     next_send_time s' = Some t'
     /\ ((0 < delay)%Q -> rp_started rep = [Timer delay])
     /\ ((delay <= 0)%Q -> rp_started rep = [Thread]))
  /\ (forall s env s' rep,
        next_send_time s = None ->
        heapq_tick s env = (s', Some rep) ->
        rp_result rep = Ok tt ->
        next_send_time s' = Some (fadd (start_time env) (fdiv 1 (fps (base s))))
        /\ rp_started rep = [Timer (fdiv 1 (fps (base s)))])
  /\ (forall evs s s' log,
        next_send_time s = None ->
        heapq_run evs s = Some (s', log) ->
        match completed_ticks log with
        | [] => next_send_time s' = None
        | (e0, _) :: rest =>
            next_send_time s'
            = Some (Nat.iter (S (length rest))
                      (fun u => fadd u (fdiv 1 (fps (base s)))) (start_time e0))
        end).
Proof.
  split; [| split].
  - intros s env t s' rep Hs Ht Hok t' delay.
    destruct (heapq_tick_schedule s s' env rep Ht) as [_ Hsch].
    rewrite Hok, Hs in Hsch. destruct Hsch as [_ Hsch].
    destruct (next_schedule_later (fdiv 1 (fps (base s))) t (start_time env))
      as (H1 & H2 & H3).
    cbv zeta in H1, H2, H3. rewrite <- Hsch in H1, H2, H3. cbn [fst snd] in *.
    auto.
  - intros s env s' rep Hs Ht Hok.
    destruct (heapq_tick_schedule s s' env rep Ht) as [_ Hsch].
    rewrite Hok, Hs, next_schedule_first in Hsch. destruct Hsch as [_ Hsch].
    split; congruence.
  - intros evs s s' log Hs Hrun. exact (heapq_next_send_time_locked evs s s' log Hs Hrun).
Qed.

Lemma buffered_tick_drift_corrected_witness :
  let s := mkBuffered (mkStream 1 1 1 (Some O)) (np_ones 1 1) None (Some 1%Q) 0 [] in
  let env := mkTickEnv 1 (1 # 2) (mkSinkEnv None true) in
  exists s' rep,
    heapq_tick s env = (s', Some rep)
    /\ next_send_time s' = Some 2%Q
    /\ rp_started rep = [Timer 1].
Proof.
  intros s env.
  destruct buffered_tick_drift_corrected as (Hlater & _ & _).
  assert (Htick : exists s' rep,
            heapq_tick s env = (s', Some rep) /\ rp_result rep = Ok tt).
  { vm_compute. eexists. eexists. split; reflexivity. }
  destruct Htick as (s' & rep & Ht & Hok).
  destruct (Hlater s env 1%Q s' rep eq_refl Ht Hok) as (Hnst & Hpos & _).
  exists s', rep. split; [exact Ht |]. split; [exact Hnst | apply Hpos; reflexivity].
Defined.

(** C1 (as stated) fails.  With [next_send_time = 1], [fps = 1], a tick that
    reads the clock at 1 and reaches its rescheduling half a second later
    starts a timer of 1 second, which is the new [next_send_time] (2) minus
    the start time (1), not minus the clock at that moment (1.5).  And
    [next_send_time] is a running sum in double precision, not
    [startTime + k/fps]: at 10 frames per second from time 0 it is not, after
    3 ticks, the double nearest to 0.3, and at 30 frames per second from time
    1700000000 it is, after 1000 ticks, more than 3e-5 seconds away from
    1700000000 + 1000/30. *)
Lemma buffered_tick_delay_counterexample :
  let s := mkBuffered (mkStream 1 1 1 (Some O)) (np_ones 1 1) None (Some 1%Q) 0 [] in
  let env := mkTickEnv 1 (1 # 2) (mkSinkEnv None true) in
  let t3 := Nat.iter 3 (fun u => fadd u (fdiv 1 10)) 0%Q in
  let t1000 := Nat.iter 1000 (fun u => fadd u (fdiv 1 30)) 1700000000%Q in
  rp_result (snd (buffered_tick s env)) = Ok tt
  /\ next_send_time (fst (buffered_tick s env)) = Some 2%Q
  /\ rp_started (snd (buffered_tick s env)) = [Timer 1]
  /\ now_at_reschedule env == 3 # 2
  /\ (0 < 2 - now_at_reschedule env)%Q
  /\ ~ 1 == 2 - now_at_reschedule env
  /\ 1 == 2 - start_time env
  /\ t3 <> round64 (3 # 10)
  /\ (3 # 100000 < Qabs (t1000 - (1700000000 + (1000 # 30))))%Q.
Proof.
  intros s env t3 t1000.
  split; [reflexivity |]. split; [reflexivity |]. split; [reflexivity |].
  split; [reflexivity |]. split; [reflexivity |].
  split; [intro H; discriminate H |]. split; [reflexivity |].
  split; [vm_compute; discriminate | vm_compute; reflexivity].
Qed.

(** ** [TwitchBufferedOutputStream]: order of the popped numbers *)

Lemma bounded_below_raise (hi : option Z) (k x : Z) :
  bounded_below (raise_bound hi k) x <-> bounded_below hi x /\ k <= x.
Proof. destruct hi as [h |]; simpl; lia. Qed.

(** While no submission is late, the entries of the queue and the numbers
    popped later stay at or above the greatest number popped so far. *)
Lemma no_late_submission_sorted (evs : list Event) :
  forall s hi,
    (forall e, In e (q s) -> bounded_below hi (fst e)) ->
    no_late_submission hi evs s ->
    let log := snd (buffered_run evs s) in
    Sorted Z.le (popped_numbers log)
    /\ Forall (bounded_below hi) (popped_numbers log).
Proof.
  induction evs as [| ev evs IH]; intros s hi Hinv Hlate; cbv zeta.
  - simpl. split; constructor.
  - destruct ev as [f c | env].
    + rewrite buffered_run_cons_submit. simpl in Hlate. destruct Hlate as [Hk Hlate].
      apply (IH _ hi); [| exact Hlate].
      intros e He. destruct c as [k |]; simpl in He; unfold pq_put in He;
        apply in_app_or in He; destruct He as [He | [He | []]];
        try (apply Hinv; exact He); subst e; exact Hk.
    + rewrite buffered_run_cons_tick. cbn [snd].
      simpl in Hlate.
      destruct (buffered_tick_view s env) as [_ V]. cbv zeta in V.
      pose proof (pq_get_nowait_spec (q s)) as Hspec.
      destruct (buffered_tick s env) as [s' rep]. cbn [fst snd] in *.
      unfold popped_numbers in *. rewrite popped_entries_cons.
      destruct (pq_get_nowait (q s)) as [[m rest] |].
      * destruct V as (Hpop & _ & _ & Hq). destruct Hspec as [Hperm Hmin].
        rewrite Hpop in *. cbn [map].
        assert (Hm : In m (q s)).
        { apply (Permutation_in m (Permutation_sym Hperm)). left. reflexivity. }
        assert (Hinv' : forall e, In e (q s') -> bounded_below (raise_bound hi (fst m)) (fst e)).
        { intros e He. rewrite Hq in He.
          assert (He' : In e (q s)).
          { apply (Permutation_in e (Permutation_sym Hperm)). right. exact He. }
          apply bounded_below_raise. split; [apply Hinv | apply Hmin]; exact He'. }
        destruct (IH s' _ Hinv' Hlate) as [IHs IHb]. cbv zeta in IHs, IHb.
        split.
        -- constructor; [exact IHs |].
           destruct (map fst (popped_entries _)) as [| k ks]; constructor.
           inversion IHb as [| ? ? Hk _]; subst.
           apply bounded_below_raise in Hk. tauto.
        -- constructor; [apply Hinv; exact Hm |].
           eapply Forall_impl; [| exact IHb].
           intros k Hk. apply bounded_below_raise in Hk. tauto.
      * destruct V as (Hpop & _ & _ & Hq). rewrite Hpop in *.
        apply (IH s' hi); [| exact Hlate].
        intros e He. rewrite Hq in He. apply Hinv. exact He.
Qed.

(** C3 (as amended): in every execution in which no submission carries a
    sequence number lower than a number already popped, the numbers popped
    are in non-decreasing order. *)
Theorem buffered_popped_numbers_sorted
    (evs : list Event) (s : TwitchBufferedOutputStream) :
  no_late_submission None evs s ->
  Sorted Z.le (popped_numbers (snd (buffered_run evs s))).
Proof.
  intro Hlate.
  destruct (no_late_submission_sorted evs s None) as [Hsorted _]; auto.
  intros e _. exact I.
Qed.

Lemma buffered_popped_numbers_sorted_witness :
  let f := np_ones 1 1 in
  let env := mkTickEnv 0 0 (mkSinkEnv None true) in
  let evs := [Submit f None; Submit f (Some 2); Tick env; Submit f (Some 1);
              Tick env; Tick env; Submit f (Some 2); Tick env] in
  let s0 := fst (fst (buffered_init 1 1 30)) in
  popped_numbers (snd (buffered_run evs s0)) = [0; 1; 2; 2]
  /\ Sorted Z.le (popped_numbers (snd (buffered_run evs s0))).
Proof.
  intros f env evs s0. split; [reflexivity |].
  apply (buffered_popped_numbers_sorted evs s0).
  cbv. intuition discriminate.
Defined.

(** C3 (as stated) fails: number 5 is submitted and popped, then number 2 is
    submitted and popped: the numbers popped are 5, 2. *)
Lemma buffered_late_submission_counterexample :
  let f := np_ones 1 1 in
  let env := mkTickEnv 0 0 (mkSinkEnv None true) in
  let s0 := fst (fst (buffered_init 1 1 30)) in
  let log := snd (buffered_run [Submit f (Some 5); Tick env; Submit f (Some 2); Tick env] s0) in
  popped_numbers log = [5; 2]
  /\ map (fun er => rp_result (snd er)) log = [Ok tt; Ok tt]
  /\ ~ Sorted Z.le (popped_numbers log).
Proof.
  intros f env s0 log. split; [reflexivity | split; [reflexivity |]].
  intro H. change (popped_numbers log) with [5; 2] in H.
  inversion H as [| ? ? _ Hhd]; subst. inversion Hhd as [| ? ? Hle]; subst. lia.
Qed.

(** * Further properties *)

(** ** Conversion and size of what is written *)

Lemma np_clip_monotone (x y : Q) : (x <= y)%Q -> (np_clip x 0 255 <= np_clip y 0 255)%Q.
Proof.
  intro H. unfold np_clip. apply Q.min_le_compat_r, Q.max_le_compat_r, H.
Qed.

(** X1: the conversion to 8 bits keeps the order of the samples: a sample
    that is not larger is written as a byte that is not larger. *)
Theorem to_uint8_monotone (v1 v2 : Q) :
  (v1 <= v2)%Q -> to_uint8 v1 <= to_uint8 v2.
Proof.
  intro H. rewrite !to_uint8_floor. apply Qfloor_resp_le, np_clip_monotone.
  apply fmul_255_monotone, H.
Qed.

Lemma to_uint8_monotone_witness : to_uint8 (1 # 3) <= to_uint8 (2 # 3).
Proof. apply to_uint8_monotone. discriminate. Defined.

(** X2: a frame of the configured shape that holds as many samples as its
    shape says is written as exactly [height * width * 3] bytes, each between
    0 and 255. *)
Theorem send_frame_writes_whole_frame
    (s : TwitchOutputStream) (p : Proc) (frame : Frame) (env : SinkEnv) :
  pipe s = Some p ->
  shape frame = [height s; width s; 3] ->
  well_formed frame ->
  write_ok env = true ->
  exists bytes,
    written_frames (snd (send_frame s frame env)) = [bytes]
    /\ Z.of_nat (length bytes) = height s * width s * 3
    /\ Forall (fun b => 0 <= b <= 255) bytes.
Proof.
  intros Hp Hshape Hwf Hw. rewrite (send_frame_unfold s p frame env Hp). cbv zeta.
  pose proof Hshape as Hs. apply shape_eqb_true in Hs. rewrite Hs, Hw. simpl.
  exists (frame_tostring frame). split; [| split].
  - destruct (truthy (poll env)); reflexivity.
  - unfold frame_tostring. rewrite length_map. unfold well_formed in Hwf.
    rewrite Hwf, Hshape. unfold array_size. simpl. lia.
  - unfold frame_tostring. apply Forall_forall. intros b Hb.
    apply in_map_iff in Hb. destruct Hb as (v & <- & _). apply to_uint8_range.
Qed.

Lemma send_frame_writes_whole_frame_witness :
  exists bytes,
    written_frames (snd (send_frame (mkStream 3 2 30 (Some O)) (np_ones 2 3)
                           (mkSinkEnv (Some 1) true))) = [bytes]
    /\ Z.of_nat (length bytes) = 2 * 3 * 3
    /\ Forall (fun b => 0 <= b <= 255) bytes.
Proof.
  apply (send_frame_writes_whole_frame (mkStream 3 2 30 (Some O)) O);
    reflexivity.
Defined.

(** ** Sequences of calls on a constructed stream *)

Lemma send_frame_result (s : TwitchOutputStream) (f : Frame) (env : SinkEnv) :
  pipe s <> None ->
  snd (fst (send_frame s f env)) = Ok tt
  \/ snd (fst (send_frame s f env)) = Raise AssertionError
  \/ snd (fst (send_frame s f env)) = Raise IOError.
Proof.
  intro Hp. destruct (pipe s) as [p |] eqn:Hps; [| congruence].
  rewrite (send_frame_unfold s p f env Hps). cbv zeta.
  destruct (negb (shape_eqb (shape f) [height s; width s; 3]));
    [| destruct (write_ok env)]; simpl; auto.
Qed.

(** A call either relaunches nothing or with success, and is [send_frame];
    or it finds the sink dead and the relaunch raises: the child has been
    signalled and the stream is as it was. *)
Lemma send_frame_os_cases (s : TwitchOutputStream) (p : Proc) (f : Frame)
    (env : SinkEnv) (l : launch) :
  pipe s = Some p ->
  (relaunch_ok (f, env, l)
   /\ send_frame_os s f env l = completed (send_frame s f env))
  \/ (truthy (poll env) = true
      /\ ((l = OpenRaises /\ send_frame_os s f env l = (s, RaisedByOpen, [Sigint p]))
          \/ (l = PopenRaises /\ send_frame_os s f env l = (s, RaisedByPopen, [Sigint p])))).
Proof.
  intro Hp. unfold send_frame_os, relaunch_ok. rewrite Hp. cbn [fst snd].
  destruct (truthy (poll env)); [| left; auto].
  destruct l; [left; auto | right; auto | right; auto].
Qed.

Lemma stream_run_os_invariant (calls : list (Frame * SinkEnv * launch)) :
  forall s, pipe s <> None ->
    let r := stream_run_os calls s in
    pipe (fst (fst r)) <> None
    /\ width (fst (fst r)) = width s
    /\ height (fst (fst r)) = height s
    /\ fps (fst (fst r)) = fps s
    /\ Forall2 call_outcome calls (snd (fst r)).
Proof.
  induction calls as [| [[f env] l] calls IH]; intros s Hp; cbv zeta.
  - simpl. repeat split; auto.
  - cbn [stream_run_os].
    destruct (pipe s) as [p |] eqn:Hps; [| congruence].
    destruct (send_frame_os_cases s p f env l Hps)
      as [[Hok Heq] | [Hdead [[Hl Heq] | [Hl Heq]]]]; rewrite Heq.
    + destruct (send_frame_keeps_config s f env) as (Hw & Hh & Hf & Hlive).
      cbv zeta in Hlive.
      pose proof (send_frame_result s f env ltac:(congruence)) as Hres.
      destruct (send_frame s f env) as [[s1 r1] fx1]. cbn [fst snd completed] in *.
      specialize (IH s1 (Hlive ltac:(congruence))). cbv zeta in IH.
      destruct (stream_run_os calls s1) as [[s2 rs] fx2]. cbn [fst snd] in *.
      destruct IH as (I1 & I2 & I3 & I4 & I5).
      repeat split; try congruence.
      constructor; [| exact I5]. split; assumption.
    + specialize (IH s ltac:(congruence)). cbv zeta in IH.
      destruct (stream_run_os calls s) as [[s2 rs] fx2]. cbn [fst snd] in *.
      destruct IH as (I1 & I2 & I3 & I4 & I5).
      repeat split; auto. constructor; [| exact I5]. split; assumption.
    + specialize (IH s ltac:(congruence)). cbv zeta in IH.
      destruct (stream_run_os calls s) as [[s2 rs] fx2]. cbn [fst snd] in *.
      destruct IH as (I1 & I2 & I3 & I4 & I5).
      repeat split; auto. constructor; [| exact I5]. split; assumption.
Qed.

(** X3: on a constructed stream every call of [send_frame], in any
    sequence and whatever the sink and the operating system answer, either
    returns, or raises [AssertionError] or [IOError], or, when it finds the
    sink dead and the relaunch fails, lets the error of [open] or [Popen]
    escape; the stream keeps a [pipe] (so no call raises [AttributeError])
    and its width, height and frame rate. *)
Theorem constructed_stream_stays_launched :
  forall w h rate calls,
    let s0 := fst (stream_init w h rate) in
    let r := stream_run_os calls s0 in
    pipe (fst (fst r)) <> None
    /\ width (fst (fst r)) = w
    /\ height (fst (fst r)) = h
    /\ fps (fst (fst r)) = rate
    /\ Forall2 call_outcome calls (snd (fst r)).
Proof.
  intros w h rate calls s0 r. subst r.
  assert (Hp : pipe s0 <> None) by (subst s0; simpl; discriminate).
  exact (stream_run_os_invariant calls s0 Hp).
Qed.

Lemma send_frame_protocol (s : TwitchOutputStream) (p : Proc) (f : Frame)
    (env : SinkEnv) (tr : list Effect) :
  pipe s = Some p ->
  sink_protocol (Some p) (snd (send_frame s f env) ++ tr)
  = sink_protocol (pipe (fst (fst (send_frame s f env)))) tr.
Proof.
  intro Hp. rewrite (send_frame_unfold s p f env Hp). cbv zeta.
  destruct (truthy (poll env));
    destruct (negb (shape_eqb (shape f) [height s; width s; 3]));
    destruct (write_ok env); simpl; rewrite ?Nat.eqb_refl, ?Hp; reflexivity.
Qed.

Lemma stream_run_os_protocol (calls : list (Frame * SinkEnv * launch)) :
  forall s p tr,
    pipe s = Some p -> Forall relaunch_ok calls ->
    sink_protocol (Some p) (snd (stream_run_os calls s) ++ tr)
    = sink_protocol (pipe (fst (fst (stream_run_os calls s)))) tr.
Proof.
  induction calls as [| [[f env] l] calls IH]; intros s p tr Hp Hall.
  - simpl. rewrite Hp. reflexivity.
  - inversion Hall as [| c cs Hok Hrest]; subst.
    cbn [stream_run_os].
    assert (Heq : send_frame_os s f env l = completed (send_frame s f env)).
    { destruct (send_frame_os_cases s p f env l Hp)
        as [[_ Heq] | [Hdead [[Hl _] | [Hl _]]]]; [exact Heq | |];
        destruct Hok as [Hok | Hok]; cbn [fst snd] in Hok; congruence. }
    rewrite Heq.
    pose proof (send_frame_protocol s p f env) as Hstep.
    destruct (send_frame_keeps_config s f env) as (_ & _ & _ & Hlive).
    cbv zeta in Hlive.
    destruct (send_frame s f env) as [[s1 r1] fx1]. cbn [fst snd completed] in *.
    destruct (pipe s1) as [p1 |] eqn:Hp1.
    2: { exfalso. apply Hlive; congruence. }
    specialize (IH s1 p1 tr Hp1 Hrest).
    destruct (stream_run_os calls s1) as [[s2 rs] fx2]. cbn [fst snd] in *.
    rewrite <- app_assoc, (Hstep _ Hp). exact IH.
Qed.

Lemma with_stream_os_unfold (w h : Z) (rate : Q) (calls : list (Frame * SinkEnv * launch))
    (child_gone : bool) :
  let s0 := mkStream w h rate (Some O) in
  with_stream_os w h rate calls child_gone
  = Popen O :: snd (stream_run_os calls s0)
      ++ snd (stream_exit (fst (fst (stream_run_os calls s0))) child_gone).
Proof.
  cbv zeta. unfold with_stream_os, stream_init, reset, stream_enter, set_pipe. simpl.
  destruct (stream_run_os calls _) as [[s1 rs] fx1]. reflexivity.
Qed.

(** X4: from the construction of a stream to the end of its [with] block,
    whatever frames are sent and whatever the sink answers, provided every
    relaunch succeeds: a child is launched only when none is live, only the
    live child is signalled or written to, and at the end every child
    launched has been interrupted.  When a relaunch fails this is lost: the
    child that was interrupted is signalled once more at the exit. *)
Theorem with_stream_follows_protocol :
  (forall w h rate calls child_gone,
     Forall relaunch_ok calls ->
     sink_protocol None (with_stream_os w h rate calls child_gone) = Some None)
  /\ (forall w h rate f child_gone,
        with_stream_os w h rate [(f, mkSinkEnv (Some 1) true, PopenRaises)] child_gone
        = [Popen O; Sigint O; Sigint O]
        /\ sink_protocol None [Popen O; Sigint O; Sigint O] = None).
Proof.
  split.
  - intros w h rate calls child_gone Hall. rewrite with_stream_os_unfold. cbv zeta.
    set (s0 := mkStream w h rate (Some O)).
    assert (Hp0 : pipe s0 = Some O) by reflexivity.
    pose proof (stream_run_os_protocol calls s0 O) as Hrun.
    pose proof (stream_run_os_invariant calls s0) as Hinv. cbv zeta in Hinv.
    destruct (stream_run_os calls s0) as [[s1 rs] fx1]. cbn [fst snd] in *.
    destruct Hinv as (Hlive & _); [congruence |].
    cbn [sink_protocol]. rewrite (Hrun _ Hp0 Hall).
    unfold stream_exit. destruct (pipe s1) as [p1 |]; [| congruence].
    simpl. rewrite Nat.eqb_refl. reflexivity.
  - intros w h rate f child_gone. split; reflexivity.
Qed.

Lemma with_stream_follows_protocol_witness :
  let f := np_ones 1 1 in
  let calls := [(f, mkSinkEnv None true, Launched);
                (f, mkSinkEnv (Some 1) true, Launched);
                (f, mkSinkEnv None false, PopenRaises)] in
  sink_protocol None (with_stream_os 1 1 30 calls false) = Some None.
Proof.
  intros f calls.
  destruct with_stream_follows_protocol as (Hok & _).
  apply Hok.
  constructor; [left; reflexivity |].
  constructor; [right; reflexivity |].
  constructor; [left; reflexivity |].
  constructor.
Defined.

(** ** The repeater between and across ticks *)

Lemma repeater_run_sends (fs : list Frame) :
  forall f evs sys,
    repeater_run (map RSend (fs ++ [f]) ++ evs) sys
    = repeater_run evs (mkRSys (mkRepeater (rep_base (r_obj sys)) f) (r_pending sys)).
Proof.
  induction fs as [| g fs IH]; intros f evs sys.
  - simpl. destruct (repeater_run evs _) as [sys2 reps2]. reflexivity.
  - simpl. rewrite IH. simpl. destruct (repeater_run evs _) as [sys2 reps2].
    reflexivity.
Qed.

(** X5: the repeater keeps only the latest frame: however many frames the
    producer sends between two ticks, none of these calls touches the sink,
    and the next tick runs exactly as if only the last of them had been
    sent. *)
Theorem repeater_latest_frame_wins :
  forall fs f env r n,
    snd (repeater_run (map RSend (fs ++ [f]) ++ [RFire env]) (mkRSys r (S n)))
    = [snd (repeater_tick (mkRepeater (rep_base r) f) env)]
    /\ rp_frame (snd (repeater_tick (mkRepeater (rep_base r) f) env)) = f.
Proof.
  intros fs f env r n. split.
  - rewrite repeater_run_sends. simpl.
    destruct (repeater_tick _ env) as [r' rep]. reflexivity.
  - unfold repeater_tick. simpl.
    destruct (send_frame (rep_base r) f env) as [[b res] fx].
    destruct res as [[] | []]; try reflexivity.
    destruct (period (fps b)); reflexivity.
Qed.

(** X6: the repeater takes a frame of any shape without complaint; a frame
    of the wrong shape then makes the next tick die with [AssertionError]
    before anything is written, no timer is started, and no tick runs ever
    again, whatever is sent afterwards. *)
Theorem repeater_invalid_frame_stops_loop
    (r : TwitchOutputStreamRepeater) (p : Proc) (f : Frame) (env : SinkEnv)
    (evs : list REvent) :
  pipe (rep_base r) = Some p ->
  shape f <> [height (rep_base r); width (rep_base r); 3] ->
  exists rep,
    snd (repeater_run (RSend f :: RFire env :: evs) (mkRSys r 1)) = [rep]
    /\ rp_result rep = Raise AssertionError
    /\ rp_started rep = []
    /\ written_frames (rp_effects rep) = [].
Proof.
  intros Hp Hshape. apply shape_eqb_false in Hshape.
  simpl. unfold repeater_tick. cbn [repeater_send_frame rep_base lastframe].
  rewrite (send_frame_unfold _ p f env Hp). cbv zeta. rewrite Hshape. simpl.
  match goal with
  | |- context [repeater_run evs ?sys] =>
      destruct (repeater_run_idle evs sys eq_refl) as [Hnone _];
      destruct (repeater_run evs sys) as [sys2 reps2]
  end.
  simpl in Hnone. subst reps2.
  eexists. split; [reflexivity |]. simpl.
  repeat split. destruct (truthy (poll env)); reflexivity.
Qed.

Lemma repeater_invalid_frame_stops_loop_witness :
  exists rep,
    snd (repeater_run [RSend (np_ones 2 1); RFire (mkSinkEnv None true);
                       RSend (np_ones 1 2); RFire (mkSinkEnv None true)]
           (mkRSys (mkRepeater (mkStream 2 1 30 (Some O)) (np_ones 1 2)) 1))
    = [rep]
    /\ rp_result rep = Raise AssertionError
    /\ rp_started rep = []
    /\ written_frames (rp_effects rep) = [].
Proof.
  apply (repeater_invalid_frame_stops_loop
           (mkRepeater (mkStream 2 1 30 (Some O)) (np_ones 1 2)) O).
  - reflexivity.
  - simpl. discriminate.
Defined.

(** X7: while the sink takes every write and the producer is silent, each
    timer that fires runs one tick, which writes the latched frame once and
    starts the one timer for the next tick: after any number of ticks one
    timer is pending, never none and never two. *)
Theorem repeater_run_steady (envs : list SinkEnv) :
  forall r p,
    pipe (rep_base r) = Some p ->
    shape (lastframe r) = [height (rep_base r); width (rep_base r); 3] ->
    ~ fps (rep_base r) == 0 ->
    Forall (fun env => write_ok env = true) envs ->
    let res := repeater_run (map RFire envs) (mkRSys r 1) in
    r_pending (fst res) = 1%nat
    /\ lastframe (r_obj (fst res)) = lastframe r
    /\ length (snd res) = length envs
    /\ Forall (fun rep => rp_result rep = Ok tt
                          /\ written_frames (rp_effects rep)
                             = [frame_tostring (lastframe r)]
                          /\ rp_started rep = [Timer (fdiv 1 (fps (rep_base r)))])
         (snd res).
Proof.
  induction envs as [| env envs IH]; intros r p Hp Hshape Hfps Hall; cbv zeta.
  - simpl. repeat split; auto.
  - inversion Hall as [| ? ? Hw Hall']; subst.
    change (map RFire (env :: envs)) with (RFire env :: map RFire envs).
    cbn [repeater_run repeater_step r_pending r_obj].
    pose proof (repeater_tick_unfold r p env Hp Hshape) as Htick. cbv zeta in Htick.
    rewrite Hw, (period_nonzero _ Hfps) in Htick. rewrite Htick.
    cbn [rp_started length Nat.add].
    set (r1 := mkRepeater _ (lastframe r)).
    assert (Hp1 : pipe (rep_base r1) = Some (if truthy (poll env) then S p else p)).
    { subst r1. simpl. destruct (truthy (poll env)); simpl; auto. }
    assert (Hcfg : height (rep_base r1) = height (rep_base r)
                   /\ width (rep_base r1) = width (rep_base r)
                   /\ fps (rep_base r1) = fps (rep_base r)).
    { subst r1. simpl. destruct (truthy (poll env)); simpl; auto. }
    destruct Hcfg as (Hh & Hwd & Hf).
    assert (Hshape1 : shape (lastframe r1)
                      = [height (rep_base r1); width (rep_base r1); 3]).
    { rewrite Hh, Hwd. exact Hshape. }
    assert (Hfps1 : ~ fps (rep_base r1) == 0) by (rewrite Hf; exact Hfps).
    specialize (IH r1 _ Hp1 Hshape1 Hfps1 Hall'). cbv zeta in IH.
    destruct (repeater_run (map RFire envs) (mkRSys r1 1)) as [sys2 reps2].
    cbn [fst snd] in *. destruct IH as (I1 & I2 & I3 & I4).
    rewrite Hf in I4. change (lastframe r1) with (lastframe r) in I2, I4.
    repeat split; auto.
    + simpl. congruence.
    + simpl. constructor; [| exact I4].
      repeat split. simpl. destruct (truthy (poll env)); reflexivity.
Qed.

Lemma repeater_run_steady_witness :
  let r := mkRepeater (mkStream 2 1 30 (Some O)) (np_ones 1 2) in
  let res := repeater_run (map RFire [mkSinkEnv None true; mkSinkEnv (Some 1) true;
                                      mkSinkEnv None true]) (mkRSys r 1) in
  r_pending (fst res) = 1%nat /\ length (snd res) = 3%nat.
Proof.
  intros r res.
  assert (Hfps : ~ fps (rep_base r) == 0) by discriminate.
  destruct (repeater_run_steady
              [mkSinkEnv None true; mkSinkEnv (Some 1) true; mkSinkEnv None true]
              r O eq_refl eq_refl Hfps) as (H1 & _ & H3 & _).
  - repeat constructor.
  - split; [exact H1 | exact H3].
Defined.

Lemma frame_tostring_ones (h w : Z) :
  frame_tostring (np_ones h w) = repeat 255 (Z.to_nat (h * w * 3)).
Proof. unfold frame_tostring, np_ones. simpl. rewrite map_repeat. reflexivity. Qed.

Lemma repeater_init_unfold (w h : Z) (rate : Q) (env : SinkEnv) :
  let r0 := mkRepeater (mkStream w h rate (Some O)) (np_ones h w) in
  repeater_init w h rate env
  = (fst (repeater_tick r0 env), [Popen O], snd (repeater_tick r0 env)).
Proof.
  cbv zeta. unfold repeater_init, stream_init, reset, set_pipe.
  cbn [pipe next_proc app width height fps].
  destruct (repeater_tick _ env) as [r rep]. reflexivity.
Qed.

(** X8: constructing a repeater launches the sink once and, within the
    constructor, runs the first tick: when the sink takes the write, a white
    frame ([height * width * 3] bytes 255) is written and the timer for the
    next tick is started. *)
Theorem repeater_init_writes_white_frame
    (w h : Z) (rate : Q) (env : SinkEnv) :
  write_ok env = true ->
  ~ rate == 0 ->
  let r := fst (fst (repeater_init w h rate env)) in
  let fx := snd (fst (repeater_init w h rate env)) in
  let rep := snd (repeater_init w h rate env) in
  fx = [Popen O]
  /\ lastframe r = np_ones h w
  /\ rp_result rep = Ok tt
  /\ written_frames (rp_effects rep) = [repeat 255 (Z.to_nat (h * w * 3))]
  /\ rp_started rep = [Timer (fdiv 1 rate)].
Proof.
  intros Hw Hrate. cbv zeta. rewrite repeater_init_unfold. cbv zeta.
  set (r0 := mkRepeater (mkStream w h rate (Some O)) (np_ones h w)).
  pose proof (repeater_tick_unfold r0 O env eq_refl eq_refl) as Htick.
  cbv zeta in Htick. rewrite Hw in Htick.
  change (fps (rep_base r0)) with rate in Htick.
  rewrite (period_nonzero _ Hrate) in Htick.
  rewrite Htick. cbn [fst snd rp_result rp_started rp_effects lastframe].
  change (lastframe r0) with (np_ones h w). rewrite frame_tostring_ones.
  repeat split. destruct (truthy (poll env)); reflexivity.
Qed.

Lemma repeater_init_writes_white_frame_witness :
  written_frames (rp_effects (snd (repeater_init 2 1 30 (mkSinkEnv None true))))
  = [[255; 255; 255; 255; 255; 255]].
Proof.
  assert (Hrate : ~ 30 == 0) by discriminate.
  destruct (repeater_init_writes_white_frame 2 1 30 (mkSinkEnv None true)
              eq_refl Hrate) as (_ & _ & _ & Hbytes & _).
  exact Hbytes.
Defined.

(** ** The buffered stream: numbering, conservation, fallback *)

Lemma buffered_run_submit_all (fs : list Frame) :
  forall s,
    let r := buffered_run (submit_all fs) s in
    snd r = []
    /\ q (fst r) = q s ++ numbered (frame_counter s) fs
    /\ last_frame (fst r) = last_frame s.
Proof.
  induction fs as [| f fs IH]; intros s; cbv zeta.
  - simpl. rewrite app_nil_r. auto.
  - change (submit_all (f :: fs)) with (Submit f None :: submit_all fs).
    rewrite buffered_run_cons_submit.
    destruct (IH (buffered_send_frame s f None)) as (H1 & H2 & H3). cbv zeta in *.
    rewrite H1, H2, H3. simpl. unfold pq_put. rewrite <- app_assoc. auto.
Qed.

Lemma extract_min_head (x : Entry) (l : list Entry) :
  Forall (fun e => fst x <= fst e) l -> extract_min x l = (x, l).
Proof.
  intro Hall. destruct l as [| y l']; [reflexivity |]. simpl.
  destruct (extract_min y l') as [m rest] eqn:H.
  destruct (extract_min_spec l' y m rest H) as [Hperm _].
  assert (Hm : In m (y :: l')).
  { apply (Permutation_in m (Permutation_sym Hperm)). left. reflexivity. }
  rewrite Forall_forall in Hall. specialize (Hall m Hm).
  apply Z.leb_le in Hall. rewrite Hall. reflexivity.
Qed.

(** A queue whose entries stand in ascending order is popped front to back. *)
Lemma buffered_run_drains_in_order (envs : list TickEnv) :
  forall s, length envs = length (q s) ->
    StronglySorted (fun a b => fst a <= fst b) (q s) ->
    let r := buffered_run (map Tick envs) s in
    popped_entries (snd r) = q s /\ emitted_frames (snd r) = map snd (q s).
Proof.
  induction envs as [| env envs IH]; intros s Hlen Hsorted; cbv zeta.
  - simpl in *. destruct (q s); [auto | discriminate].
  - change (map Tick (env :: envs)) with (Tick env :: map Tick envs).
    rewrite buffered_run_cons_tick. cbn [fst snd].
    destruct (buffered_tick_view s env) as [_ V]. cbv zeta in V.
    destruct (q s) as [| x l] eqn:Hq; [discriminate |].
    inversion Hsorted as [| ? ? Hl Hx]; subst.
    simpl in V. rewrite (extract_min_head x l Hx) in V.
    destruct V as (Hpop & Hfr & _ & Hq').
    assert (Hlen' : length envs = length (q (fst (buffered_tick s env)))).
    { rewrite Hq'. simpl in Hlen. lia. }
    rewrite <- Hq' in Hl.
    destruct (IH _ Hlen' Hl) as [IHp IHe]. cbv zeta in *.
    rewrite popped_entries_cons, Hpop, IHp, Hq'.
    unfold emitted_frames in *. cbn [map snd]. rewrite Hfr, IHe, Hq'. auto.
Qed.

Lemma numbered_lower (fs : list Frame) :
  forall c, Forall (fun e => c <= fst e) (numbered c fs).
Proof.
  induction fs as [| f fs IH]; intro c; simpl; constructor.
  - simpl. lia.
  - eapply Forall_impl; [| apply (IH (c + 1))]. intros e He. simpl in He. lia.
Qed.

Lemma numbered_sorted (fs : list Frame) :
  forall c, StronglySorted (fun a b => fst a <= fst b) (numbered c fs).
Proof.
  induction fs as [| f fs IH]; intro c; simpl; constructor.
  - apply IH.
  - eapply Forall_impl; [| apply (numbered_lower fs (c + 1))].
    intros e He. simpl in *. lia.
Qed.

Lemma numbered_frames (fs : list Frame) :
  forall c, map snd (numbered c fs) = fs /\ length (numbered c fs) = length fs.
Proof.
  induction fs as [| f fs IH]; intro c; simpl; [auto |].
  destruct (IH (c + 1)) as [H1 H2]. rewrite H1, H2. auto.
Qed.

(** X9: frames submitted without a number to a stream whose queue is empty
    are numbered consecutively from [frame_counter] and are emitted by the
    following ticks in the order of submission. *)
Theorem buffered_auto_counter_fifo
    (fs : list Frame) (envs : list TickEnv) (s : TwitchBufferedOutputStream) :
  q s = [] ->
  length envs = length fs ->
  let log := snd (buffered_run (submit_all fs ++ map Tick envs) s) in
  emitted_frames log = fs
  /\ popped_entries log = numbered (frame_counter s) fs.
Proof.
  intros Hq Hlen log. subst log. rewrite buffered_run_app. cbn [snd].
  destruct (buffered_run_submit_all fs s) as (Hlog & Hq' & _). cbv zeta in *.
  rewrite Hlog, Hq in *. simpl in Hq'. cbn [app].
  destruct (numbered_frames fs (frame_counter s)) as [Hfr Hn].
  assert (Hlen' : length envs = length (q (fst (buffered_run (submit_all fs) s)))).
  { rewrite Hq', Hn. exact Hlen. }
  assert (Hs : StronglySorted (fun a b => fst a <= fst b)
                 (q (fst (buffered_run (submit_all fs) s)))).
  { rewrite Hq'. apply numbered_sorted. }
  destruct (buffered_run_drains_in_order envs _ Hlen' Hs) as [Hp He].
  cbv zeta in *. rewrite Hp, He, Hq', Hfr. auto.
Qed.

Lemma buffered_auto_counter_fifo_witness :
  let f0 := mkFrame [1; 1; 3] [0; 0; 0]%Q in
  let f1 := np_ones 1 1 in
  let env := mkTickEnv 0 0 (mkSinkEnv None true) in
  let s0 := fst (fst (buffered_init 1 1 30)) in
  emitted_frames (snd (buffered_run (submit_all [f1; f0; f1] ++ map Tick [env; env; env]) s0))
  = [f1; f0; f1].
Proof.
  intros f0 f1 env s0.
  exact (proj1 (buffered_auto_counter_fifo [f1; f0; f1] [env; env; env] s0
                  eq_refl eq_refl)).
Defined.

(** X10: in every execution on the library's queue that starts from an
    ordered queue and in which the sequence numbers queued and submitted are
    pairwise distinct, no call raises, and each entry that was in the queue
    or was submitted is, at the end, either popped or still in the queue,
    once: no entry is lost and none is popped twice; and [frame_counter] has
    advanced by the number of submissions that carried no number. *)
Theorem buffered_run_conserves_entries (evs : list Event) :
  forall s,
    is_heap (q s) ->
    NoDup (map fst (q s ++ submitted_entries (frame_counter s) evs)) ->
    exists s' log,
      heapq_run evs s = Some (s', log)
      /\ Permutation (q s ++ submitted_entries (frame_counter s) evs)
                     (popped_entries log ++ q s')
      /\ frame_counter s' = frame_counter s + Z.of_nat (auto_submissions evs).
Proof.
  intros s Hheap Hnd.
  destruct (heapq_run_distinct evs s Hheap Hnd) as (s' & Hrun & Hsim & _).
  destruct (buffered_run_permutation evs s) as [Hperm Hc]. cbv zeta in Hperm, Hc.
  destruct (same_stream_counter _ _ Hsim) as [Hfc _].
  destruct Hsim as (_ & Hq & _).
  exists s', (snd (buffered_run evs s)). split; [exact Hrun |].
  split; [rewrite Hq; exact Hperm | rewrite Hfc; exact Hc].
Qed.

Lemma buffered_run_conserves_entries_witness :
  let f := mkFrame [1; 1; 3] [0; 0; 0]%Q in
  let g := np_ones 1 1 in
  let env := mkTickEnv 0 0 (mkSinkEnv None true) in
  let s0 := fst (fst (buffered_init 1 1 30)) in
  let evs := [Submit f (Some 5); Submit g None; Tick env; Submit f (Some 2)] in
  exists s' log,
    heapq_run evs s0 = Some (s', log)
    /\ Permutation ([] ++ [(5, f); (0, g); (2, f)]) (popped_entries log ++ q s')
    /\ frame_counter s' = 0 + Z.of_nat 1.
Proof.
  intros f g env s0 evs.
  apply (buffered_run_conserves_entries evs s0).
  - reflexivity.
  - simpl. repeat constructor; simpl; intuition discriminate.
Defined.

Lemma next_schedule_one (step : Q) (nst : option Q) (start : Q) :
  exists x, snd (next_schedule step nst start) = [x].
Proof.
  unfold next_schedule. destruct nst as [t |]; [| eexists; reflexivity].
  cbv zeta. destruct (Qle_bool _ _); eexists; reflexivity.
Qed.

Lemma buffered_tick_never_ioerror (s : TwitchBufferedOutputStream) (env : TickEnv) :
  rp_result (snd (buffered_tick s env)) <> Raise IOError.
Proof.
  unfold buffered_tick.
  destruct (pq_get_nowait (q s)) as [[item rest] |];
    destruct (send_frame _ _ _) as [[b res] fx];
    unfold reschedule, period; destruct (Qeq_bool (fps b) 0);
    try destruct (next_schedule _ _ _) as [nst started];
    destruct res as [[] | []]; simpl; discriminate.
Qed.

(** X11: whatever the state and whatever the sink answers, a buffered tick
    either returns, and then it has started exactly one timer or thread for
    the next tick, or dies with an exception, which is never [IOError], and
    then it has started nothing and left [next_send_time] as it was. *)
Theorem buffered_tick_successor_iff_returns :
  forall s env,
    let s' := fst (buffered_tick s env) in
    let rep := snd (buffered_tick s env) in
    (rp_result rep = Ok tt /\ exists x, rp_started rep = [x])
    \/ (exists e, rp_result rep = Raise e /\ e <> IOError
                  /\ rp_started rep = []
                  /\ next_send_time s' = next_send_time s).
Proof.
  intros s env. cbv zeta.
  destruct (buffered_tick_schedule s env) as [_ Hsch]. cbv zeta in Hsch.
  pose proof (buffered_tick_never_ioerror s env) as Hio.
  destruct (rp_result (snd (buffered_tick s env))) as [[] | e].
  - left. split; [reflexivity |]. destruct Hsch as [_ Hsch].
    destruct (next_schedule_one (fdiv 1 (fps (base s))) (next_send_time s) (start_time env))
      as [x Hx].
    rewrite <- Hsch in Hx. exists x. exact Hx.
  - right. exists e. destruct Hsch as [Hn Hst].
    repeat split; auto. congruence.
Qed.

Lemma send_frame_writes_at_most_once (s : TwitchOutputStream) (f : Frame) (env : SinkEnv) :
  written_frames (snd (send_frame s f env)) = []
  \/ written_frames (snd (send_frame s f env)) = [frame_tostring f].
Proof.
  destruct (pipe s) as [p |] eqn:Hp.
  - rewrite (send_frame_unfold s p f env Hp). cbv zeta.
    destruct (truthy (poll env));
      destruct (negb (shape_eqb (shape f) [height s; width s; 3]));
      destruct (write_ok env); simpl; auto.
  - unfold send_frame. rewrite Hp. simpl. auto.
Qed.

(** X12: a buffered tick on an ordered queue of pairwise distinct numbers
    hands to the sink the frame of an entry whose number no queued number
    is below, or the last frame when the queue is empty; it writes at most
    one byte string, the conversion of that frame, and it writes it whenever
    the frame has the configured shape and the sink accepts the write. *)
Theorem buffered_tick_writes_candidate_once :
  forall s env,
    is_heap (q s) -> NoDup (map fst (q s)) ->
    exists s' rep,
      heapq_tick s env = (s', Some rep)
      /\ (written_frames (rp_effects rep) = []
          \/ written_frames (rp_effects rep) = [frame_tostring (rp_frame rep)])
      /\ (q s = [] -> rp_frame rep = last_frame s)
      /\ (forall e, In e (q s) -> (forall e', In e' (q s) -> fst e <= fst e') ->
            rp_frame rep = snd e)
      /\ (forall p,
            pipe (base s) = Some p ->
            shape (rp_frame rep) = [height (base s); width (base s); 3] ->
            write_ok (sink_env env) = true ->
            written_frames (rp_effects rep) = [frame_tostring (rp_frame rep)]).
Proof.
  intros s env Hheap Hnd.
  destruct (heapq_tick_refines s s env (same_stream_refl s Hheap) Hnd) as (s' & Htick & _).
  exists s', (snd (buffered_tick s env)). split; [exact Htick |].
  pose proof (rp_frame_candidate s env) as Hc. rewrite Hc.
  split; [| split; [| split]].
  - unfold buffered_tick, candidate.
    destruct (pq_get_nowait (q s)) as [[item rest] |];
      match goal with
      | |- context [send_frame ?b ?f ?e] =>
          pose proof (send_frame_writes_at_most_once b f e) as Hw;
          destruct (send_frame b f e) as [[b' res] fx]
      end;
      destruct (reschedule _ _ _) as [[nst started] | e0];
      destruct res as [[] | []]; simpl in *; exact Hw.
  - intro Hq. unfold candidate. rewrite Hq. reflexivity.
  - intros e He Hmin. unfold candidate.
    pose proof (pq_get_nowait_spec (q s)) as Hspec.
    destruct (pq_get_nowait (q s)) as [[m rest] |].
    + destruct Hspec as [Hperm Hmin'].
      assert (Hm : In m (q s)).
      { apply (Permutation_in m (Permutation_sym Hperm)). left. reflexivity. }
      f_equal. apply (keys_inj (q s)); auto.
      specialize (Hmin m Hm). specialize (Hmin' e He). lia.
    + rewrite Hspec in He. destruct He.
  - intros p Hp Hshape Hw.
    rewrite (buffered_tick_unfold s p env Hp Hshape). cbv zeta. rewrite Hw.
    destruct (reschedule _ _ _) as [sch | e0];
      destruct (truthy (poll (sink_env env))); reflexivity.
Qed.

Lemma buffered_tick_writes_candidate_once_witness :
  let f0 := mkFrame [1; 1; 3] [0; 0; 0]%Q in
  let f1 := np_ones 1 1 in
  let env := mkTickEnv 0 0 (mkSinkEnv None true) in
  let s := mkBuffered (mkStream 1 1 30 (Some O)) f1 None None 2 [(0, f0); (1, f1)] in
  exists s' rep,
    heapq_tick s env = (s', Some rep)
    /\ (written_frames (rp_effects rep) = []
        \/ written_frames (rp_effects rep) = [frame_tostring (rp_frame rep)])
    /\ (q s = [] -> rp_frame rep = last_frame s)
    /\ (forall e, In e (q s) -> (forall e', In e' (q s) -> fst e <= fst e') ->
          rp_frame rep = snd e)
    /\ (forall p,
          pipe (base s) = Some p ->
          shape (rp_frame rep) = [height (base s); width (base s); 3] ->
          write_ok (sink_env env) = true ->
          written_frames (rp_effects rep) = [frame_tostring (rp_frame rep)]).
Proof.
  intros f0 f1 env s.
  apply (buffered_tick_writes_candidate_once s env).
  - reflexivity.
  - simpl. repeat constructor; simpl; intuition discriminate.
Defined.

(** After any execution the last frame is the frame popped last, or the
    initial one when nothing was popped. *)
Lemma last_frame_is_last_popped (evs : list Event) :
  forall s,
    last_frame (fst (buffered_run evs s))
    = last (map snd (popped_entries (snd (buffered_run evs s)))) (last_frame s).
Proof.
  induction evs as [| ev evs IH]; intros s.
  - reflexivity.
  - destruct ev as [f c | env].
    + rewrite buffered_run_cons_submit, IH. destruct c; reflexivity.
    + rewrite buffered_run_cons_tick. cbn [fst snd]. rewrite IH.
      rewrite popped_entries_cons.
      destruct (buffered_tick_view s env) as [_ V]. cbv zeta in V.
      destruct (pq_get_nowait (q s)) as [[m rest] |];
        destruct V as (Hpop & _ & Hlf & _); rewrite Hpop, Hlf.
      * cbn [map]. rewrite last_cons_default. reflexivity.
      * reflexivity.
Qed.

(** X13: on an ordered queue of pairwise distinct numbers and with no
    further submissions, the ticks first emit the queued frames in ascending
    order of sequence number, one per tick, and, once the queue is empty,
    every further tick emits again the frame emitted last. *)
Theorem buffered_drain_then_repeat
    (s : TwitchBufferedOutputStream) (envs1 envs2 : list TickEnv) :
  length envs1 = length (q s) ->
  is_heap (q s) -> NoDup (map fst (q s)) ->
  exists s' log popped,
    heapq_run (map Tick (envs1 ++ envs2)) s = Some (s', log)
    /\ Permutation popped (q s)
    /\ Sorted Z.le (map fst popped)
    /\ emitted_frames log
       = map snd popped
         ++ repeat (last (map snd popped) (last_frame s)) (length envs2).
Proof.
  intros Hlen Hheap Hnd.
  assert (Hnd' : NoDup (map fst (q s ++ submitted_entries (frame_counter s)
                                          (map Tick (envs1 ++ envs2))))).
  { rewrite submitted_entries_ticks, app_nil_r. exact Hnd. }
  destruct (heapq_run_distinct _ s Hheap Hnd') as (s' & Hrun & _).
  exists s', (snd (buffered_run (map Tick (envs1 ++ envs2)) s)).
  rewrite map_app, buffered_run_app in *. cbn [snd] in *.
  destruct (buffered_run_drains_sorted envs1 s Hlen) as (Hperm & Hsorted & Hem & Hq).
  cbv zeta in *.
  pose proof (last_frame_is_last_popped (map Tick envs1) s) as Hlast.
  destruct (buffered_run_empty_repeats envs2 _ Hq) as (Hrep & _). cbv zeta in Hrep.
  exists (popped_entries (snd (buffered_run (map Tick envs1) s))).
  split; [exact Hrun |].
  split; [exact Hperm | split; [exact Hsorted |]].
  rewrite emitted_frames_app, Hem, Hrep, Hlast. reflexivity.
Qed.

Lemma buffered_drain_then_repeat_witness :
  let f0 := mkFrame [1; 1; 3] [0; 0; 0]%Q in
  let f1 := np_ones 1 1 in
  let env := mkTickEnv 0 0 (mkSinkEnv None true) in
  let s := mkBuffered (mkStream 1 1 30 (Some O)) f0 None None 2 [(0, f0); (1, f1)] in
  exists s' log popped,
    heapq_run (map Tick ([env; env] ++ [env; env; env])) s = Some (s', log)
    /\ Permutation popped [(0, f0); (1, f1)]
    /\ Sorted Z.le (map fst popped)
    /\ emitted_frames log
       = map snd popped ++ repeat (last (map snd popped) f0) 3.
Proof.
  intros f0 f1 env s.
  apply (buffered_drain_then_repeat s [env; env] [env; env; env]).
  - reflexivity.
  - reflexivity.
  - simpl. repeat constructor; simpl; intuition discriminate.
Defined.




Lemma buffered_init_unfold (w h : Z) (rate : Q) :
  buffered_init w h rate
  = (mkBuffered (mkStream w h rate (Some O)) (np_ones h w) None None 0 [],
     [Popen O], [Timer 0]).
Proof. reflexivity. Qed.

(** X17: constructing a buffered stream launches the sink once and leaves
    the first tick to a timer of delay 0; with nothing submitted, that first
    tick writes a white frame ([height * width * 3] bytes 255) when the sink
    takes it, sets [next_send_time] to its start time plus [1/fps] and starts
    a timer of [1/fps]. *)
Theorem buffered_init_first_tick
    (w h : Z) (rate : Q) (env : TickEnv) :
  write_ok (sink_env env) = true ->
  ~ rate == 0 ->
  let s0 := fst (fst (buffered_init w h rate)) in
  snd (fst (buffered_init w h rate)) = [Popen O]
  /\ snd (buffered_init w h rate) = [Timer 0]
  /\ rp_result (snd (buffered_tick s0 env)) = Ok tt
  /\ written_frames (rp_effects (snd (buffered_tick s0 env)))
     = [repeat 255 (Z.to_nat (h * w * 3))]
  /\ next_send_time (fst (buffered_tick s0 env)) = Some (fadd (start_time env) (fdiv 1 rate))
  /\ rp_started (snd (buffered_tick s0 env)) = [Timer (fdiv 1 rate)].
Proof.
  intros Hw Hrate s0. subst s0. rewrite buffered_init_unfold. cbn [fst snd].
  set (s0 := mkBuffered _ _ _ _ _ _).
  assert (Hc : candidate s0 = np_ones h w) by reflexivity.
  assert (Hshape : shape (candidate s0) = [height (base s0); width (base s0); 3])
    by reflexivity.
  rewrite (buffered_tick_unfold s0 O env eq_refl Hshape). cbv zeta.
  change (fps (base s0)) with rate. change (next_send_time s0) with (@None Q).
  rewrite (reschedule_nonzero _ _ _ Hrate), Hw, Hc, frame_tostring_ones.
  cbn [fst snd rp_result rp_effects rp_started next_send_time next_schedule].
  repeat split. destruct (truthy (poll (sink_env env))); reflexivity.
Qed.

Lemma buffered_init_first_tick_witness :
  written_frames
    (rp_effects (snd (buffered_tick (fst (fst (buffered_init 1 1 30)))
                        (mkTickEnv 0 0 (mkSinkEnv None true)))))
  = [[255; 255; 255]].
Proof.
  assert (Hrate : ~ 30 == 0) by discriminate.
  destruct (buffered_init_first_tick 1 1 30 (mkTickEnv 0 0 (mkSinkEnv None true))
              eq_refl Hrate) as (_ & _ & _ & Hbytes & _).
  exact Hbytes.
Defined.
